(** * Progressive mask revelation: [dilate_mask] and [MaskUpdate]

    A shallow embedding of [utils/torch.py] (functions [dilate_mask] and
    class [MaskUpdate]) together with the properties of the revelation
    scheduler.

    Modelling choices.
    - A tensor is a handle (dtype, shape, buffer address) into a store of
      flat row-major buffers, so that views ([squeeze], [reshape],
      [from_numpy]) share their buffer and in-place writes are visible
      through every alias, as in torch and numpy.
    - Tensor elements are rationals kept in lowest terms: the masks hold 0
      and 1, on which the arithmetic of [update] is exact in any float type.
    - The dropout probability is a Python float: it is computed in binary64
      with rounding to nearest, ties to even, and a double is the rational
      it denotes (in doubles [1. / step * step] falls just short of 1 for
      some steps, 49 for instance, so that the last probability of an epoch
      is then [2^-53] instead of 0).
    - [grow_calls] in the store is a ghost counter of the calls of
      [dilate_mask]; no code reads it.
    - Python exceptions are outcomes of a state-and-exception monad in
      which the state survives an exception.
    - The random source read by [F.dropout] is an explicit argument: a
      function giving the uniform draw in [0,1) used for each element.

    The other functions of the two modules that are plain control flow over
    numbers, strings and arrays are embedded as well: the class
    [EarlyStopping], [get_params], [get_noise] and [build_noise_tensor],
    [add_rand_mask], and [bool2bin] of [utils/processing.py]. They build
    their values afresh, so their arrays are modelled by value. Their random
    sources are arguments too: the values written by the noise fillers, and
    the permutation drawn by [np.random.choice]. *)

From Stdlib Require Import ZArith QArith Qround Qpower Lia Lqa Sorted.
From Stdlib Require Import Ascii.
From stdpp Require Import base list strings.

Local Open Scope Z_scope.

(** ** Scalars *)

Definition q_sub (x y : Q) : Q := Qred (x - y).
Definition q_add (x y : Q) : Q := Qred (x + y).
Definition q_mul (x y : Q) : Q := Qred (x * y).
Definition q_div (x y : Q) : Q := Qred (x / y).

(** [x != 0] on a tensor element. *)
Definition nonzero (x : Q) : bool := negb (Qeq_bool x 0).

(** Conversion of a float to [np.uint8]: truncation toward zero, then
    reduction modulo 256. *)
Definition astype_uint8 (x : Q) : Z := Z.quot (Qnum x) (Zpos (Qden x)) mod 256.

(** ** Binary floating point

    A finite double is the rational it denotes. [round_float prec emin]
    rounds a rational to the nearest multiple of [2^e], ties to the even
    multiple, where [e] is the exponent of the binade of the number, and at
    least [emin]: with [prec = 53] and [emin = -1074] this is the rounding
    of binary64, subnormal numbers included. The results computed below
    stay far from the largest double, except for the conversion of integers,
    where Python raises [OverflowError]. *)

Definition pow2 (e : Z) : Q := (2 ^ e)%Q.

(** [floor (log2 x)] for a positive [x]. *)
Definition ilog2 (x : Q) : Z :=
  let d := Z.log2 (Qnum x) - Z.log2 (Zpos (Qden x)) in
  if Qle_bool (pow2 d) x then d else d - 1.

(** The nearest integer, ties to even. *)
Definition rne (q : Q) : Z :=
  let f := Qfloor q in
  match (q - inject_Z f ?= 1 # 2)%Q with
  | Lt => f
  | Gt => f + 1
  | Eq => if Z.even f then f else f + 1
  end.

Definition round_pos (prec emin : Z) (x : Q) : Q :=
  let e := Z.max (ilog2 x - (prec - 1)) emin in
  (inject_Z (rne (x / pow2 e)) * pow2 e)%Q.

Definition round_float (prec emin : Z) (x : Q) : Q :=
  match (x ?= 0)%Q with
  | Eq => 0%Q
  | Gt => round_pos prec emin x
  | Lt => (- round_pos prec emin (- x))%Q
  end.

Definition double (x : Q) : Q := Qred (round_float 53 (-1074) x).

(** [x / y], [x * y] and [x - y] on doubles. *)
Definition f64_div (x y : Q) : Q := double (x / y).
Definition f64_mul (x y : Q) : Q := double (x * y).
Definition f64_sub (x y : Q) : Q := double (x - y).

(** ** Outcomes and the state-and-exception monad *)

Inductive exn : Type := ZeroDivisionError | ValueError | IndexError | OverflowError.

(** [Stuck] marks an input that lies outside the fragment of numpy, torch
    and OpenCV covered here (for instance a mask of four axes or more);
    it is never the model of a Python exception. *)
Inductive outcome (A : Type) : Type :=
  | Ok (a : A)
  | Raise (e : exn)
  | Stuck.
Arguments Ok {A} a.
Arguments Raise {A} e.
Arguments Stuck {A}.

Definition M (St A : Type) : Type := St -> outcome A * St.

Definition ret {St A : Type} (a : A) : M St A := fun s => (Ok a, s).

Definition bind {St A B : Type} (m : M St A) (k : A -> M St B) : M St B :=
  fun s =>
    match m s with
    | (Ok a, s') => k a s'
    | (Raise e, s') => (Raise e, s')
    | (Stuck, s') => (Stuck, s')
    end.

Definition raise {St A : Type} (e : exn) : M St A := fun s => (Raise e, s).
Definition stuck {St A : Type} : M St A := fun s => (Stuck, s).

Notation "'let!' x ':=' m 'in' k" := (bind m (fun x => k))
  (at level 10, x pattern, m at level 99, k at level 200).
Notation "m ';;' k" := (bind m (fun _ => k))
  (at level 100, k at level 200, right associativity).

(** [for i in range(count)], starting at [i]. *)
Fixpoint for_range {St : Type} (body : nat -> M St unit) (i count : nat) : M St unit :=
  match count with
  | O => ret tt
  | S c => body i ;; for_range body (S i) c
  end.

(** ** The store of array buffers *)

(** [grow_calls] is a ghost counter of the invocations of [dilate_mask]. *)
Record World : Type := mkWorld {
  mem : list (list Q);
  grow_calls : nat
}.

Definition alloc (d : list Q) : M World nat :=
  fun w => (Ok (length (mem w)),
            {| mem := mem w ++ [d]; grow_calls := grow_calls w |}).

Definition load (l : nat) : M World (list Q) :=
  fun w => match mem w !! l with
           | Some d => (Ok d, w)
           | None => (Stuck, w)
           end.

Definition store (l : nat) (d : list Q) : M World unit :=
  fun w => (Ok tt, {| mem := <[l := d]> (mem w); grow_calls := grow_calls w |}).

Definition tick : M World unit :=
  fun w => (Ok tt, {| mem := mem w; grow_calls := S (grow_calls w) |}).

(** ** Tensors *)

Inductive dtype : Type := float32 | float64.

Record Tensor : Type := mkTensor {
  t_dtype : dtype;
  t_shape : list nat;
  t_buf : nat
}.

Definition numel (shape : list nat) : nat := foldr Nat.mul 1%nat shape.

(** [t.clone()]: a copy in a new buffer. *)
Definition clone (t : Tensor) : M World Tensor :=
  let! d := load (t_buf t) in
  let! l := alloc d in
  ret {| t_dtype := t_dtype t; t_shape := t_shape t; t_buf := l |}.

(** [a.squeeze()]: a view without the axes of size one. *)
Definition squeeze (a : Tensor) : Tensor :=
  {| t_dtype := t_dtype a;
     t_shape := filter (fun n => n <> 1%nat) (t_shape a);
     t_buf := t_buf a |}.

(** [a.reshape(shape)]: a view with another shape. *)
Definition reshape (a : Tensor) (shape : list nat) : Tensor :=
  {| t_dtype := t_dtype a; t_shape := shape; t_buf := t_buf a |}.

(** [np.empty_like(a)]: a new buffer; its unspecified contents are taken
    to be zeros. *)
Definition empty_like (a : Tensor) : M World Tensor :=
  let! l := alloc (replicate (numel (t_shape a)) 0%Q) in
  ret {| t_dtype := t_dtype a; t_shape := t_shape a; t_buf := l |}.

(** [a[i]] read along the leading axis; [sz] is the size of one slice. *)
Definition slice (sz i : nat) (d : list Q) : list Q := take sz (drop (i * sz) d).

Definition getitem (a : Tensor) (sz i : nat) : M World (list Q) :=
  let! d := load (t_buf a) in ret (slice sz i d).

(** [a[i] = v], written in place. *)
Definition set_slice (sz i : nat) (v d : list Q) : list Q :=
  take (i * sz) d ++ v ++ drop (i * sz + sz) d.

Definition setitem (a : Tensor) (sz i : nat) (v : list Q) : M World unit :=
  let! d := load (t_buf a) in store (t_buf a) (set_slice sz i v d).

(** ** OpenCV's [dilate] on one 8-bit plane

    [dst(x,y)] is the maximum of [src(x + x' - anchor.x, y + y' - anchor.y)]
    over the non-zero kernel elements [(x',y')]; the default anchor is the
    kernel centre [(cols/2, rows/2)], and pixels outside the plane never
    win the maximum (constant border at the lowest value). *)

Definition np_ones (rows cols : nat) : list (list Z) := replicate rows (replicate cols 1).

Definition kernel_offsets (kernel : list (list Z)) : list (Z * Z) :=
  let ay := Z.of_nat (length kernel) / 2 in
  let ax := Z.of_nat (length (default [] (head kernel))) / 2 in
  concat (imap (fun ky row =>
            omap id (imap (fun kx e =>
              if e =? 0 then None else Some (Z.of_nat ky - ay, Z.of_nat kx - ax)) row))
          kernel).

Definition pixel (h w : nat) (img : list Z) (y x : Z) : Z :=
  if (0 <=? y) && (y <? Z.of_nat h) && (0 <=? x) && (x <? Z.of_nat w)
  then default 0 (img !! Z.to_nat (y * Z.of_nat w + x))
  else 0.

Definition dilate_pixel (h w : nat) (offs : list (Z * Z)) (img : list Z) (j : nat) : Z :=
  let y := Z.of_nat j / Z.of_nat w in
  let x := Z.of_nat j mod Z.of_nat w in
  foldr Z.max 0 (fmap (fun o => pixel h w img (y + fst o) (x + snd o)) offs).

Definition dilate_once (h w : nat) (offs : list (Z * Z)) (img : list Z) : list Z :=
  fmap (dilate_pixel h w offs img) (seq 0 (h * w)).

Definition cv2_dilate (h w : nat) (img : list Z) (kernel : list (list Z))
    (iterations : nat) : list Z :=
  Nat.iter iterations (dilate_once h w (kernel_offsets kernel)) img.

(** ** [dilate_mask]

    After [squeeze], a mask of three axes is a stack of 2-D planes, each
    dilated by OpenCV as an image. In a mask of two axes each slice
    [mask_np[i]] is a 1-D array, which OpenCV takes as a single line of
    pixels, here one column of [h] rows (as one row of [h] columns the
    result is the same, the kernel being symmetric): each line is dilated
    along its length. A 0-d array has no [shape[0]]. Arrays of one axis
    (whose slices are scalars) and of four axes or more are outside the
    fragment. *)

Definition dilate_body (mask_np mask_res : Tensor) (h w : nat)
    (kernel : list (list Z)) (iterations : nat) (i : nat) : M World unit :=
  let! mi := getitem mask_np (h * w) i in
  let m := fmap astype_uint8 mi in
  if (h =? 0)%nat || (w =? 0)%nat then stuck
  else setitem mask_res (h * w) i (fmap inject_Z (cv2_dilate h w m kernel iterations)).

Definition dilate_mask (mask : Tensor) (iterations : nat) : M World Tensor :=
  tick ;;
  let kernel := np_ones 2 2 in
  let ddtype := t_dtype mask in
  let! mask_t := clone mask in
  let shape := t_shape mask_t in
  let mask_np := squeeze mask_t in
  let! mask_res := empty_like mask_np in
  match t_shape mask_np with
  | [] => raise IndexError
  | [n; h] =>
      for_range (dilate_body mask_np mask_res h 1 kernel iterations) 0 n ;;
      ret {| t_dtype := ddtype; t_shape := shape; t_buf := t_buf (reshape mask_res shape) |}
  | [n; h; w] =>
      for_range (dilate_body mask_np mask_res h w kernel iterations) 0 n ;;
      ret {| t_dtype := ddtype; t_shape := shape; t_buf := t_buf (reshape mask_res shape) |}
  | _ => stuck
  end.

(** ** Tensor arithmetic, [F.dropout] and masked assignment *)

Definition promote (a b : dtype) : dtype :=
  match a, b with
  | float32, float32 => float32
  | _, _ => float64
  end.

(** [a - b] and [a + b] on tensors of one shape; broadcasting between
    different shapes is outside the fragment. *)
Definition tensor_binop (f : Q -> Q -> Q) (a b : Tensor) : M World Tensor :=
  if decide (t_shape a = t_shape b) then
    let! da := load (t_buf a) in
    let! db := load (t_buf b) in
    let! l := alloc (zip_with f da db) in
    ret {| t_dtype := promote (t_dtype a) (t_dtype b); t_shape := t_shape a; t_buf := l |}
  else stuck.

Definition tensor_sub : Tensor -> Tensor -> M World Tensor := tensor_binop q_sub.
Definition tensor_add : Tensor -> Tensor -> M World Tensor := tensor_binop q_add.

(** [noise.bernoulli_(1 - p)] followed by [noise.div_(1 - p)]: element [i]
    is kept when its uniform draw [u i] falls below [1 - p]. *)
Definition dropout_noise (p : Q) (u : nat -> Q) (n : nat) : list Q :=
  fmap (fun i => q_div (if Qle_bool (1 - p) (u i) then 0 else 1) (1 - p)) (seq 0 n).

(** [F.dropout(input, p)] in training mode. A probability outside [0,1]
    raises [ValueError]; [p == 0] or an empty input returns the input
    itself; [p == 1] returns [input * 0]; otherwise [input * noise]. *)
Definition F_dropout (input : Tensor) (p : Q) (u : nat -> Q) : M World Tensor :=
  if negb (Qle_bool 0 p) || negb (Qle_bool p 1) then raise ValueError
  else if Qeq_bool p 0 || (numel (t_shape input) =? 0)%nat then ret input
  else
    let! d := load (t_buf input) in
    let! l := alloc (if Qeq_bool p 1 then fmap (fun x => q_mul x 0) d
                     else zip_with q_mul d (dropout_noise p u (length d))) in
    ret {| t_dtype := t_dtype input; t_shape := t_shape input; t_buf := l |}.

(** [a[a != 0] = v], written in place. *)
Definition setitem_nonzero (a : Tensor) (v : Q) : M World unit :=
  let! d := load (t_buf a) in
  store (t_buf a) (fmap (fun x => if nonzero x then v else x) d).

(** The thinner of [update]: [mask_add = F.dropout(delta, p)] followed by
    [mask_add[mask_add != 0] = 1]. *)
Definition thin (delta : Tensor) (p : Q) (u : nat -> Q) : M World Tensor :=
  let! mask_add := F_dropout delta p u in
  setitem_nonzero mask_add 1 ;;
  ret mask_add.

(** ** Python integer and float division *)

Definition py_floordiv {St : Type} (a b : Z) : M St Z :=
  if b =? 0 then raise ZeroDivisionError else ret (a / b).

Definition py_mod {St : Type} (a b : Z) : M St Z :=
  if b =? 0 then raise ZeroDivisionError else ret (a mod b).

(** [float(n)] for an [int], as done for the [int] operand of a float
    operation: the nearest double, or [OverflowError] when the nearest
    double would be infinite. *)
Definition py_float {St : Type} (n : Z) : M St Q :=
  let x := double (inject_Z n) in
  if Qle_bool (pow2 1024) x || Qle_bool x (- pow2 1024) then raise OverflowError
  else ret x.

(** [a / b] on floats. *)
Definition py_truediv {St : Type} (a b : Q) : M St Q :=
  if Qeq_bool b 0 then raise ZeroDivisionError else ret (f64_div a b).

(** ** [MaskUpdate] *)

Record MaskUpdate : Type := mkMaskUpdate {
  threshold : Z;
  step : Z;
  iter : Z;
  new_mask : Tensor;
  old_mask : Tensor
}.

(** The scheduler object together with the store its masks live in. *)
Record State : Type := mkState {
  self : MaskUpdate;
  world : World
}.

Definition lift {A : Type} (m : M World A) : M State A :=
  fun s => let (o, w') := m (world s) in (o, {| self := self s; world := w' |}).

Definition getattr {A : Type} (field : MaskUpdate -> A) : M State A :=
  fun s => (Ok (field (self s)), s).

Definition setattr (f : MaskUpdate -> MaskUpdate) : M State unit :=
  fun s => (Ok tt, {| self := f (self s); world := world s |}).

Definition set_iter (v : Z) (o : MaskUpdate) : MaskUpdate :=
  {| threshold := threshold o; step := step o; iter := v;
     new_mask := new_mask o; old_mask := old_mask o |}.

Definition set_new_mask (v : Tensor) (o : MaskUpdate) : MaskUpdate :=
  {| threshold := threshold o; step := step o; iter := iter o;
     new_mask := v; old_mask := old_mask o |}.

Definition set_old_mask (v : Tensor) (o : MaskUpdate) : MaskUpdate :=
  {| threshold := threshold o; step := step o; iter := iter o;
     new_mask := new_mask o; old_mask := v |}.

(** [MaskUpdate.__init__]: the five assignments, with no check of any
    argument. *)
Definition MaskUpdate_init (mask : Tensor) (threshold step : Z) : outcome MaskUpdate :=
  Ok {| threshold := threshold; step := step; iter := 0;
        new_mask := mask; old_mask := mask |}.


(** [iiter_dil], [iter_drop] and [p] of [update], as functions of the
    schedule and of the iteration. *)
Definition target_epoch (threshold step iiter : Z) : Z := (iiter - threshold) / step + 1.
Definition iter_drop (threshold step iiter : Z) : Z := (iiter - threshold) mod step.
Definition drop_prob (step iter_drop : Z) : Q :=
  f64_sub 1 (f64_mul (f64_div 1 (double (inject_Z step)))
                     (double (inject_Z (iter_drop + 1)))).

(** The growth step of [update], taken when [iiter_dil > self.iter]. *)
Definition grow (iiter_dil : Z) : M State unit :=
  let! nm := getattr new_mask in
  setattr (set_old_mask nm) ;;
  let! om := getattr old_mask in
  let! r := lift (dilate_mask om 1) in
  setattr (set_new_mask r) ;;
  setattr (set_iter iiter_dil).

(** The last three statements of the guarded block of [update]: the newly
    grown samples [new_mask - old_mask] are thinned and the survivors are
    added to [old_mask]. *)
Definition reveal (p : Q) (u : nat -> Q) : M State Tensor :=
  let! nm := getattr new_mask in
  let! om := getattr old_mask in
  let! delta := lift (tensor_sub nm om) in
  let! mask_add := lift (thin delta p u) in
  let! om' := getattr old_mask in
  lift (tensor_add om' mask_add).

(** The statements of [update] that follow the growth step: the position
    in the epoch, the dropout probability
    [1. - 1. / self.step * (iter_drop + 1)], computed in doubles from left
    to right, and the thinned sum. *)
Definition drop_and_add (iiter : Z) (u : nat -> Q) : M State Tensor :=
  let! thr := getattr threshold in
  let! st := getattr step in
  let! i_drop := py_mod (iiter - thr) st in
  let! st' := getattr step in
  let! fst' := py_float st' in
  let! r := py_truediv 1 fst' in
  let! k := py_float (i_drop + 1) in
  let p := f64_sub 1 (f64_mul r k) in
  reveal p u.

(** [MaskUpdate.update]. *)
Definition update (iiter : Z) (u : nat -> Q) : M State Tensor :=
  let! mask_return := getattr old_mask in
  let! thr := getattr threshold in
  if iiter >? thr then
    let! thr' := getattr threshold in
    let! st := getattr step in
    let! q := py_floordiv (iiter - thr') st in
    let iiter_dil := q + 1 in
    let! it := getattr iter in
    (if iiter_dil >? it then grow iiter_dil else ret tt) ;;
    drop_and_add iiter u
  else ret mask_return.

(** Running the scheduler: a sequence of calls, each with its iteration
    number and its random draws; the state left by a call is the state the
    next call starts from, whatever the call's outcome. *)
Definition run (calls : list (Z * (nat -> Q))) (s : State) : State :=
  foldl (fun s c => snd (update (fst c) (snd c) s)) s calls.

(** The outcomes of the calls of such a sequence, in order. *)
Fixpoint outcomes (calls : list (Z * (nat -> Q))) (s : State) : list (outcome Tensor) :=
  match calls with
  | [] => []
  | c :: calls' =>
      let (o, s') := update (fst c) (snd c) s in
      o :: outcomes calls' s'
  end.

(** The state right after [MaskUpdate(mask, threshold, step)]. *)
Definition initial (mask : Tensor) (threshold step : Z) (w : World) : State :=
  {| self := {| threshold := threshold; step := step; iter := 0;
                new_mask := mask; old_mask := mask |};
     world := w |}.

(** * Other functions of the repository *)

(** ** Floats that may be NaN

    The metrics of [EarlyStopping] and the arrays of [bool2bin] hold floats
    that are tested with [isnan]; a finite float is a rational, infinities
    are not modelled. Arithmetic propagates NaN and every comparison with
    NaN is false. Arithmetic on finite values is exact here: the rounding
    of the float type of the metrics is not modelled. This is an
    idealisation wherever a margin is added to a metric (in float32,
    [0.3 - 0.1] is above [0.2], and a small margin is absorbed); it is
    exact for a margin of 0, and the properties below either have
    [min_delta = 0], or a NaN, or take the verdict of [is_better] as it
    comes. *)

Inductive np_float : Type := NaN | Fin (q : Q).

Definition isnan (x : np_float) : bool :=
  match x with NaN => true | Fin _ => false end.

Definition f_lift2 (f : Q -> Q -> Q) (a b : np_float) : np_float :=
  match a, b with
  | Fin x, Fin y => Fin (f x y)
  | _, _ => NaN
  end.

Definition f_add : np_float -> np_float -> np_float := f_lift2 q_add.
Definition f_sub : np_float -> np_float -> np_float := f_lift2 q_sub.
Definition f_mul : np_float -> np_float -> np_float := f_lift2 q_mul.
Definition f_div : np_float -> np_float -> np_float := f_lift2 q_div.

(** [a < b] and [a > b]. *)
Definition f_lt (a b : np_float) : bool :=
  match a, b with
  | Fin x, Fin y => negb (Qle_bool y x)
  | _, _ => false
  end.

Definition f_gt (a b : np_float) : bool := f_lt b a.

(** ** [EarlyStopping] *)

Module EarlyStopping.

Inductive mode_t : Type := mode_min | mode_max.

(** The fields of the object. [is_better] and the instance attribute
    [step] installed when [patience == 0] are functions of these fields;
    [msg] is only printed. *)
Record t : Type := mk {
  mode : mode_t;
  min_delta : Q;
  patience : Z;
  percentage : bool;
  best : option np_float;
  num_bad_epochs : Z
}.

(** [__init__(patience, max, min_delta, percentage)]. The mode is built
    from the boolean [max], so the [ValueError] of [_init_is_better] for an
    unknown mode cannot be reached. *)
Definition init (patience : Z) (max : bool) (min_delta : Q) (percentage : bool) : t :=
  {| mode := if max then mode_max else mode_min;
     min_delta := min_delta;
     patience := patience;
     percentage := percentage;
     best := None;
     num_bad_epochs := 0 |}.

(** [self.is_better(a, best)]: the lambda chosen by [_init_is_better], or
    the constant [True] installed when [patience == 0]. The margins
    [best - min_delta] and [best * min_delta / 100] are exact, where the
    code rounds them. *)
Definition is_better (self : t) (a best : np_float) : bool :=
  if patience self =? 0 then true
  else if negb (percentage self) then
    match mode self with
    | mode_min => f_lt a (f_sub best (Fin (min_delta self)))
    | mode_max => f_gt a (f_add best (Fin (min_delta self)))
    end
  else
    match mode self with
    | mode_min =>
        f_lt a (f_sub best (f_div (f_mul best (Fin (min_delta self))) (Fin 100)))
    | mode_max =>
        f_gt a (f_add best (f_div (f_mul best (Fin (min_delta self))) (Fin 100)))
    end.

Definition set_best (v : np_float) (self : t) : t :=
  {| mode := mode self; min_delta := min_delta self; patience := patience self;
     percentage := percentage self; best := Some v;
     num_bad_epochs := num_bad_epochs self |}.

Definition set_num_bad_epochs (v : Z) (self : t) : t :=
  {| mode := mode self; min_delta := min_delta self; patience := patience self;
     percentage := percentage self; best := best self;
     num_bad_epochs := v |}.

(** [self.step(metrics)]: the answer and the object after the call. With
    [patience == 0] the call reaches the lambda [lambda a: False]. *)
Definition step (self : t) (metrics : np_float) : bool * t :=
  if patience self =? 0 then (false, self)
  else
    match best self with
    | None => (false, set_best metrics self)
    | Some b =>
        if isnan metrics then (true, self)
        else
          let self1 :=
            if is_better self metrics b
            then set_best metrics (set_num_bad_epochs 0 self)
            else set_num_bad_epochs (num_bad_epochs self + 1) self in
          if num_bad_epochs self1 >=? patience self1 then (true, self1)
          else (false, self1)
    end.

(** The answers to a sequence of calls of [step], and the final object. *)
Fixpoint steps (self : t) (ms : list np_float) : list bool * t :=
  match ms with
  | [] => ([], self)
  | m :: ms' =>
      let (b, self1) := step self m in
      let (bs, self2) := steps self1 ms' in
      (b :: bs, self2)
  end.

End EarlyStopping.

(** ** [bool2bin] *)

(** [a[cond] = v] on a copy of the array. *)
Definition setitem_mask (cond : list bool) (v : np_float) (a : list np_float) :
    list np_float :=
  zip_with (fun (c : bool) x => if c then v else x) cond a.

(** [bool2bin(in_content, logic)]: the two masked assignments, in order, on
    a copy of the input; the second mask is computed after the first
    assignment. *)
Definition bool2bin (in_content : list np_float) (logic : bool) : list np_float :=
  let temp := in_content in
  let temp := setitem_mask ((fun x => Bool.eqb (isnan x) false) <$> temp)
                (if logic then Fin 1 else Fin 0) temp in
  let temp := setitem_mask ((fun x => Bool.eqb (isnan x) true) <$> temp)
                (if logic then Fin 0 else Fin 1) temp in
  temp.

(** ** [get_params] *)

(** The exceptions of the functions below: the built-in ones of [exn],
    [AssertionError] of the [assert] statements and the [RuntimeError] of
    torch. *)
Inductive error : Type := Builtin (e : exn) | AssertionError | RuntimeError.

Inductive result (A : Type) : Type :=
  | Returns (a : A)
  | Raises (e : error).
Arguments Returns {A} a.
Arguments Raises {A} e.

(** [s.split(sep)] for a separator of one character: the pieces between the
    separators, empty pieces included; the empty string gives one empty
    piece. *)
Fixpoint str_split (sep : Ascii.ascii) (s : string) : list string :=
  match s with
  | EmptyString => [EmptyString]
  | String c s' =>
      if Ascii.eqb c sep then EmptyString :: str_split sep s'
      else match str_split sep s' with
           | t :: ts => String c t :: ts
           | [] => [String c EmptyString]
           end
  end.

(** The loop of [get_params] over [opt_over_list]. [params] is the list
    built so far and [requires_grad] the attribute of [net_input], which is
    written by the token ['input'] and survives an exception. The objects
    collected ([net.parameters()], [downsampler.parameters()], [net_input])
    are of an arbitrary type [P]; [downsampler] is [None] or its
    parameters. [net_input] is taken to be a floating-point leaf tensor, for
    which the assignment of [requires_grad] succeeds. *)
Fixpoint get_params_loop {P : Type} (net : list P) (net_input : P)
    (downsampler : option (list P)) (opt_over_list : list string)
    (params : list P) (requires_grad : bool) : result (list P) * bool :=
  match opt_over_list with
  | [] => (Returns params, requires_grad)
  | opt :: rest =>
      if String.eqb opt "net" then
        get_params_loop net net_input downsampler rest (params ++ net) requires_grad
      else if String.eqb opt "down" then
        match downsampler with
        | None => (Raises AssertionError, requires_grad)
        | Some d => get_params_loop net net_input downsampler rest d requires_grad
        end
      else if String.eqb opt "input" then
        get_params_loop net net_input downsampler rest (params ++ [net_input]) true
      else (Raises AssertionError, requires_grad)
  end.

(** [get_params(opt_over, net, net_input, downsampler)], started with
    [net_input.requires_grad] equal to [requires_grad]: the outcome and the
    attribute after the call. *)
Definition get_params {P : Type} (opt_over : string) (net : list P) (net_input : P)
    (downsampler : option (list P)) (requires_grad : bool) : result (list P) * bool :=
  get_params_loop net net_input downsampler (str_split ","%char opt_over) [] requires_grad.

(** ** [get_noise] and [build_noise_tensor] *)

(** A freshly built tensor, by value. *)
Record noise_tensor : Type := mkNoise {
  n_shape : list Z;
  n_data : list Q
}.

(** [get_noise(shape, noise_type)]. [torch.zeros] refuses a negative
    dimension; the three fillers differ by the distribution of the values
    they draw, here [rnd i] for the element of flat index [i]. *)
Definition get_noise (shape : list Z) (noise_type : string) (rnd : nat -> Q) :
    result noise_tensor :=
  if forallb (fun d => 0 <=? d) shape then
    let x := mkNoise shape (replicate (numel (Z.to_nat <$> shape)) 0%Q) in
    let fill := mkNoise (n_shape x) (imap (fun i _ => Qred (rnd i)) (n_data x)) in
    if String.eqb noise_type "u" then Returns fill
    else if String.eqb noise_type "n" then Returns fill
    else if String.eqb noise_type "c" then Returns fill
    else Raises (Builtin ValueError)
  else Raises RuntimeError.

(** The argument [spatial_size]: an [int] or a sequence of ints. *)
Inductive spatial : Type := SizeInt (n : Z) | SizeSeq (t : list Z).

(** [seq[i]] on a Python sequence, for [i >= 0]. *)
Definition seq_item (t : list Z) (i : nat) : result Z :=
  match t !! i with
  | Some v => Returns v
  | None => Raises (Builtin IndexError)
  end.

Definition result_bind {A B : Type} (r : result A) (k : A -> result B) : result B :=
  match r with
  | Returns a => k a
  | Raises e => Raises e
  end.

(** [build_noise_tensor(input_depth, spatial_size, method, noise_type, var)]. *)
Definition build_noise_tensor (input_depth : Z) (spatial_size : spatial)
    (method noise_type : string) (var : Q) (rnd : nat -> Q) : result noise_tensor :=
  let spatial_size :=
    match spatial_size with
    | SizeInt n => [n; n]
    | SizeSeq t => t
    end in
  result_bind
    (if String.eqb method "noise" then
       result_bind (seq_item spatial_size 0) (fun s0 =>
       result_bind (seq_item spatial_size 1) (fun s1 =>
       Returns [1; input_depth; s0; s1]))
     else if String.eqb method "noise3d" then
       if (length spatial_size =? 3)%nat then
         result_bind (seq_item spatial_size 0) (fun s0 =>
         result_bind (seq_item spatial_size 1) (fun s1 =>
         result_bind (seq_item spatial_size 2) (fun s2 =>
         Returns [1; input_depth; s0; s1; s2])))
       else Raises AssertionError
     else Raises AssertionError)
    (fun shape =>
       result_bind (get_noise shape noise_type rnd) (fun x =>
       Returns (mkNoise (n_shape x) ((fun v => q_mul v var) <$> n_data x)))).

(** ** [add_rand_mask] *)

(** A numpy array of two or three axes, by value: the first axis is time. *)
Inductive ndarray : Type :=
  | Arr2 (a : list (list Q))
  | Arr3 (a : list (list (list Q))).

(** [int(x)]: truncation toward zero. *)
Definition py_int (x : Q) : Z := Z.quot (Qnum x) (Zpos (Qden x)).

(** The indices [i + j] of the elements [row[j] == 1], in increasing order. *)
Fixpoint where_one (i : nat) (row : list Q) : list nat :=
  match row with
  | [] => []
  | x :: r => if Qeq_bool x 1 then i :: where_one (S i) r else where_one (S i) r
  end.

(** [np.argwhere(a == 1)] for [a] of one axis and of two axes: the rows of
    indices, in row-major order. *)
Definition argwhere1 (a : list Q) : list (list nat) :=
  (fun j => [j]) <$> where_one 0 a.

Definition argwhere2 (a : list (list Q)) : list (list nat) :=
  concat (imap (fun j row => (fun k => [j; k]) <$> where_one 0 row) a).

(** [np.argwhere(m[0] == 1)]; [m[0]] does not exist when the first axis is
    empty. *)
Definition first_points (m : ndarray) : option (list (list nat)) :=
  match m with
  | Arr2 a => argwhere1 <$> a !! 0%nat
  | Arr3 a => argwhere2 <$> a !! 0%nat
  end.

(** [m[:, p[0]] = 0] when [m.ndim == 2], [m[:, p[0], p[1]] = 0] otherwise.
    The rows of [np.argwhere] have one index per axis of [m[0]], so that the
    last case is not reached. *)
Definition erase_trace (m : ndarray) (p : list nat) : ndarray :=
  match m, p with
  | Arr2 a, j :: _ => Arr2 ((fun row => <[j := 0%Q]> row) <$> a)
  | Arr3 a, j :: k :: _ => Arr3 ((fun plane => alter (fun row => <[k := 0%Q]> row) j plane) <$> a)
  | _, _ => m
  end.

(** [add_rand_mask(mask, perc)]. [np.random.choice(np.arange(n), k,
    replace=False)] returns the first [k] entries of a random permutation of
    [range(n)], here the argument [perm]; it raises [ValueError] for
    [k > n], and its answer to a negative [k] depends on the version of
    numpy. The product [n * perc] is exact. *)
Definition add_rand_mask (mask : ndarray) (perc : Q) (perm : list nat) : outcome ndarray :=
  let m := mask in
  match first_points m with
  | None => Raise IndexError
  | Some points =>
      let n := Z.of_nat (length points) in
      let k := py_int (inject_Z n * perc) in
      if k <? 0 then Stuck
      else if n <? k then Raise ValueError
      else
        let rr := take (Z.to_nat k) perm in
        Ok (foldl erase_trace m (omap (fun r => points !! r) rr))
  end.

(** ** Options of [get_params] *)

(** The tokens that [get_params] accepts: ['net'], ['input'], and ['down']
    when a downsampler is given. *)
Definition known_option {P : Type} (downsampler : option (list P)) (opt : string) : Prop :=
  opt = "net" \/ opt = "input" \/ (opt = "down" /\ downsampler <> None).

(** ** Arrays as data *)

(** The elements of an array in row-major order. *)
Definition elements (m : ndarray) : list Q :=
  match m with
  | Arr2 a => concat a
  | Arr3 a => concat (concat a)
  end.

(** The trace at position [p] ([[j]] in an array of two axes, [[j; k]] in
    one of three): its sample at each time, [None] where the position lies
    outside the array. *)
Definition trace (m : ndarray) (p : list nat) : list (option Q) :=
  match m, p with
  | Arr2 a, [j] => (fun row => row !! j) <$> a
  | Arr3 a, [j; k] => (fun plane => plane !! j ≫= (fun row => row !! k)) <$> a
  | _, _ => []
  end.

(** A trace is alive at the first time sample when its sample there equals 1. *)
Definition alive_at_start (m : ndarray) (p : list nat) : Prop :=
  exists x, head (trace m p) = Some (Some x) /\ Qeq_bool x 1 = true.

(** Every sample of the trace is 0. *)
Definition erased (m : ndarray) (p : list nat) : Prop :=
  forall (t : nat) (x : Q), trace m p !! t = Some (Some x) -> x = 0%Q.

(** [m.shape[0]]: the number of time samples. *)
Definition time_samples (m : ndarray) : nat :=
  match m with
  | Arr2 a => length a
  | Arr3 a => length a
  end.

(** [p] has one index per axis of [m[0]]. *)
Definition fits (m : ndarray) (p : list nat) : Prop :=
  match m, p with
  | Arr2 _, [_] => True
  | Arr3 _, [_; _] => True
  | _, _ => False
  end.

(** The number of traces alive at the first time sample. *)
Definition alive_count (m : ndarray) : nat :=
  match first_points m with
  | Some points => length points
  | None => 0
  end.

(** * Vocabulary of the properties *)

(** ** Masks as data *)

(** A sample is revealed when it is non-zero; a mask is binary when every
    sample is 0 or 1. *)
Definition revealed (x : Q) : Prop := nonzero x = true.
Definition binary (x : Q) : Prop := x = 0%Q \/ x = 1%Q.
Definition subset (a b : list Q) : Prop :=
  Forall2 (fun x y => revealed x -> revealed y) a b.

(** One sample after [mask_add[mask_add != 0] = 1]. *)
Definition binarize (x : Q) : Q := if nonzero x then 1%Q else x.

(** The element-wise content of [reveal]: one sample [o] of [old_mask], one
    sample [n] of [new_mask], and the noise factor [k] of the dropout. *)
Definition reveal_sample (o n k : Q) : Q := q_add o (binarize (q_mul (q_sub n o) k)).

(** A pixel of an 8-bit plane that is 0 or 1. *)
Definition bit (z : Z) : Prop := z = 0 \/ z = 1.

(** ** What the operators compute *)

(** What [dilate_mask] writes for one slice [m] of the mask. *)
Definition dilate_plane (h w it : nat) (m : list Q) : list Q :=
  inject_Z <$> cv2_dilate h w (astype_uint8 <$> m) (np_ones 2 2) it.

(** The contents of [mask_res] after [n] rounds of the loop of
    [dilate_mask] that start at slice [i] with contents [r]. *)
Fixpoint dilate_planes (h w it : nat) (d : list Q) (i n : nat) (r : list Q) : list Q :=
  match n with
  | O => r
  | S c => dilate_planes h w it d (S i) c
             (set_slice (h * w) i (dilate_plane h w it (slice (h * w) i d)) r)
  end.

(** The dilated copy that [dilate_mask] returns for a buffer [d] seen as
    [n] planes of [h] rows and [w] columns. *)
Definition dilate_data (n h w it : nat) (d : list Q) : list Q :=
  dilate_planes h w it d 0 n (replicate (numel [n; h; w]) 0%Q).

(** The masks [dilate_mask] is known to accept: once the axes of size one
    are squeezed out, a stack of [n] non-empty planes of [h] by [w]. *)
Definition planes (shape : list nat) (n h w : nat) : Prop :=
  filter (fun k => k <> 1%nat) shape = [n; h; w] /\
  (n = 0%nat \/ (h <> 0%nat /\ w <> 0%nat)).

(** The masks on which [dilate_mask] returns: once the axes of size one
    are squeezed out, a stack of [n] non-empty planes of [h] by [w], or a
    stack of [n] non-empty lines of [h] samples, which are dilated as planes
    of [h] by 1. *)
Definition stack (shape : list nat) (n h w : nat) : Prop :=
  (filter (fun k => k <> 1%nat) shape = [n; h; w] \/
   (filter (fun k => k <> 1%nat) shape = [n; h] /\ w = 1%nat)) /\
  (n = 0%nat \/ (h <> 0%nat /\ w <> 0%nat)).

(** [keeps w w']: every buffer of [w] is in [w'] with the same contents,
    and no call of [dilate_mask] was counted in between. *)
Definition keeps (w w' : World) : Prop :=
  mem w `prefix_of` mem w' /\ grow_calls w' = grow_calls w.

(** The values [thin] leaves in the buffer of the tensor it returns. *)
Definition dropout_data (p : Q) (u : nat -> Q) (d : list Q) : list Q :=
  if Qeq_bool p 0 then d
  else if Qeq_bool p 1 then (fun x => q_mul x 0) <$> d
  else zip_with q_mul d (dropout_noise p u (length d)).

Definition thin_data (p : Q) (u : nat -> Q) (d : list Q) : list Q :=
  binarize <$> dropout_data p u d.

(** An integer that [float] converts to a finite double. *)
Definition converts (n : Z) : Prop :=
  Qle_bool (pow2 1024) (double (inject_Z n))
  || Qle_bool (double (inject_Z n)) (- pow2 1024) = false.

(** A dropout probability that [F.dropout] accepts. *)
Definition valid_prob (p : Q) : Prop := Qle_bool 0 p = true /\ Qle_bool p 1 = true.

(** ** The invariant of the scheduler *)

(** Both masks are valid binary tensors of one shape, and [old_mask] is a
    subset of [new_mask]. *)
Definition mask_inv (s : State) : Prop :=
  exists d_old d_new,
    mem (world s) !! t_buf (old_mask (self s)) = Some d_old /\
    mem (world s) !! t_buf (new_mask (self s)) = Some d_new /\
    t_shape (old_mask (self s)) = t_shape (new_mask (self s)) /\
    length d_new = numel (t_shape (new_mask (self s))) /\
    Forall binary d_old /\ Forall binary d_new /\ subset d_old d_new.

(** ** Concrete inputs *)

(** Two planes of two rows and eight columns in which only sample 3 of the
    first row is revealed. *)
Definition scenario_mask : Tensor :=
  {| t_dtype := float32; t_shape := [2; 2; 8]%nat; t_buf := 0 |}.

Definition scenario_data : list Q :=
  [0; 0; 0; 1; 0; 0; 0; 0]%Q ++ replicate 24 0%Q.

Definition scenario_world : World := {| mem := [scenario_data]; grow_calls := 0 |}.

Definition scenario_start : State := initial scenario_mask 10 5 scenario_world.

(** The scenario of the specification on a mask of axes (channel, time):
    two channels of eight positions, with only position 3 revealed in
    each. *)
Definition line_mask : Tensor :=
  {| t_dtype := float32; t_shape := [2; 8]%nat; t_buf := 0 |}.

Definition line_data : list Q :=
  [0; 0; 0; 1; 0; 0; 0; 0; 0; 0; 0; 1; 0; 0; 0; 0]%Q.

Definition line_world : World := {| mem := [line_data]; grow_calls := 0 |}.

Definition line_start : State := initial line_mask 10 5 line_world.

(** The double nearest to [4/5]: the value of [1. - 1. / 5 * 1]. *)
Definition p15 : Q := (3602879701896397 # 4503599627370496)%Q.

(** Uniform draws that keep every sample, and draws that drop every one. *)
Definition keep_all (i : nat) : Q := 0%Q.
Definition drop_all (i : nat) : Q := 1%Q.

(** A mask with a single sample, of shape [(1, 1, 1)]. *)
Definition single_mask : Tensor :=
  {| t_dtype := float32; t_shape := [1; 1; 1]%nat; t_buf := 0 |}.

Definition single_world : World := {| mem := [[1%Q]]; grow_calls := 0 |}.

(** ** Claims in the words of the specification *)

(** C1 as the specification states it: the output of the thinner is a
    subset of [delta], equals [delta] when the rate is 1 and is all-false
    when the rate is 0. *)
Definition thinner_law_as_stated : Prop :=
  forall (delta : Tensor) (p : Q) (u : nat -> Q) (w : World) (d : list Q),
    mem w !! t_buf delta = Some d -> length d = numel (t_shape delta) ->
    Forall binary d -> valid_prob p ->
    exists r w' d',
      thin delta p u w = (Ok r, w') /\ mem w' !! t_buf r = Some d' /\
      subset d' d /\
      (Qeq_bool p 1 = true -> d' = d) /\
      (Qeq_bool p 0 = true -> d' = replicate (length d) 0%Q).


(** C7 as the specification states it: a scheduler built with [step = 0]
    is rejected by the constructor, so that no call of [update] reaches a
    division by zero. *)
Definition construction_rejects_zero_step : Prop :=
  forall (mask : Tensor) (threshold : Z) (w : World),
    (exists e, MaskUpdate_init mask threshold 0 = Raise e) /\
    forall iiter u o s',
      update iiter u (initial mask threshold 0 w) = (o, s') ->
      o <> Raise ZeroDivisionError.

(** C8 as the specification states it: a negative iteration makes
    [update] fail instead of returning a mask. *)
Definition rejects_negative_iteration : Prop :=
  forall (s : State) (iiter : Z) (u : nat -> Q),
    iiter < 0 -> exists e s', update iiter u s = (Raise e, s').

(** C9 as the specification states it: for every mask, [dilate_mask]
    returns a tensor of the same shape and dtype and leaves its argument as
    it was. *)
Definition grower_returns_for_every_mask : Prop :=
  forall (mask : Tensor) (iterations : nat) (w : World) (d : list Q),
    mem w !! t_buf mask = Some d -> length d = numel (t_shape mask) ->
    exists r w',
      dilate_mask mask iterations w = (Ok r, w') /\
      t_shape r = t_shape mask /\ t_dtype r = t_dtype mask /\
      mem w' !! t_buf mask = Some d.

(** * Properties *)

(** ** Binary floating point *)

Lemma pow2_pos (e : Z) : (0 < pow2 e)%Q.
Proof. apply Qpower_0_lt. reflexivity. Qed.

Lemma pow2_add (a b : Z) : (pow2 (a + b) == pow2 a * pow2 b)%Q.
Proof. apply Qpower_plus. discriminate. Qed.

Lemma pow2_le (a b : Z) : a <= b -> (pow2 a <= pow2 b)%Q.
Proof. intros H. apply Qpower_le_compat_l; [exact H|discriminate]. Qed.

Lemma pow2_lt (a b : Z) : a < b -> (pow2 a < pow2 b)%Q.
Proof. intros H. apply Qpower_lt_compat_l; [exact H|reflexivity]. Qed.

Lemma pow2_lt_inv (a b : Z) : (pow2 a < pow2 b)%Q -> a < b.
Proof. intros H. apply (Qpower_lt_compat_l_inv 2); [exact H|reflexivity]. Qed.

Lemma pow2_Z (n : Z) : 0 <= n -> (pow2 n == inject_Z (2 ^ n))%Q.
Proof. intros H. unfold pow2. rewrite Zpower_Qpower by exact H. reflexivity. Qed.

Lemma pow2_div (a b : Z) : (pow2 a / pow2 b == pow2 (a - b))%Q.
Proof.
  pose proof (pow2_pos b) as Hb.
  replace a with ((a - b) + b) at 1 by ring. rewrite pow2_add. field.
  intros E. rewrite E in Hb. discriminate Hb.
Qed.

(** The exponent of a positive number. *)

Lemma Zlog2_Q (a : Z) :
  0 < a -> (pow2 (Z.log2 a) <= inject_Z a)%Q /\ (inject_Z a < pow2 (Z.log2 a + 1))%Q.
Proof.
  intros Ha. destruct (Z.log2_spec a Ha) as [H1 H2].
  pose proof (Z.log2_nonneg a) as Hn.
  rewrite !pow2_Z by lia. split.
  - rewrite <- Zle_Qle. exact H1.
  - rewrite <- Zlt_Qlt. replace (Z.log2 a + 1) with (Z.succ (Z.log2 a)) by ring. exact H2.
Qed.

Lemma Q_as_div (x : Q) : (x == inject_Z (Qnum x) / inject_Z (Zpos (Qden x)))%Q.
Proof.
  destruct x as [a b]. apply Qmake_Qdiv.
Qed.

Lemma ilog2_spec (x : Q) :
  (0 < x)%Q -> (pow2 (ilog2 x) <= x)%Q /\ (x < pow2 (ilog2 x + 1))%Q.
Proof.
  intros Hx.
  assert (Ha : 0 < Qnum x).
  { unfold Qlt in Hx. simpl in Hx. lia. }
  destruct (Zlog2_Q (Qnum x) Ha) as [A1 A2].
  destruct (Zlog2_Q (Zpos (Qden x)) eq_refl) as [B1 B2].
  set (la := Z.log2 (Qnum x)) in *. set (lb := Z.log2 (Zpos (Qden x))) in *.
  assert (Hb : (0 < inject_Z (Zpos (Qden x)))%Q) by reflexivity.
  pose proof (pow2_pos lb) as Plb. pose proof (pow2_pos la) as Pla.
  pose proof (pow2_pos (lb + 1)) as Plb1.
  assert (Hup : (x < pow2 (la - lb + 1))%Q).
  { rewrite (Q_as_div x) at 1. apply Qlt_shift_div_r; [exact Hb|].
    replace (la - lb + 1) with ((la + 1) - lb) by ring. rewrite <- pow2_div.
    apply Qlt_le_trans with (pow2 (la + 1) / pow2 lb * pow2 lb)%Q.
    - assert (E : (pow2 (la + 1) / pow2 lb * pow2 lb == pow2 (la + 1))%Q).
      { field. intros E. rewrite E in Plb. discriminate Plb. }
      rewrite E. exact A2.
    - apply Qmult_le_l; [|exact B1].
      apply Qlt_shift_div_l; [exact Plb|]. rewrite Qmult_0_l. apply pow2_pos. }
  assert (Hlow : (pow2 (la - lb - 1) < x)%Q).
  { rewrite (Q_as_div x). apply Qlt_shift_div_l; [exact Hb|].
    replace (la - lb - 1) with (la - (lb + 1)) by ring. rewrite <- pow2_div.
    apply Qlt_le_trans with (pow2 la / pow2 (lb + 1) * pow2 (lb + 1))%Q.
    - apply Qmult_lt_l; [|exact B2].
      apply Qlt_shift_div_l; [exact Plb1|]. rewrite Qmult_0_l. exact Pla.
    - assert (E : (pow2 la / pow2 (lb + 1) * pow2 (lb + 1) == pow2 la)%Q).
      { field. intros E. rewrite E in Plb1. discriminate Plb1. }
      rewrite E. exact A1. }
  unfold ilog2. fold la lb.
  destruct (Qle_bool (pow2 (la - lb)) x) eqn:E.
  - apply Qle_bool_iff in E. split; [exact E|exact Hup].
  - split; [apply Qlt_le_weak; exact Hlow|].
    replace (la - lb - 1 + 1) with (la - lb) by ring.
    apply Qnot_le_lt. intros H. apply Qle_bool_iff in H. congruence.
Qed.

Lemma ilog2_mono (x y : Q) : (0 < x)%Q -> (x <= y)%Q -> ilog2 x <= ilog2 y.
Proof.
  intros Hx Hxy.
  assert (Hy : (0 < y)%Q) by (eapply Qlt_le_trans; eassumption).
  destruct (ilog2_spec x Hx) as [X1 _]. destruct (ilog2_spec y Hy) as [_ Y2].
  assert (H : (pow2 (ilog2 x) < pow2 (ilog2 y + 1))%Q).
  { eapply Qle_lt_trans; [exact X1|]. eapply Qle_lt_trans; [exact Hxy|exact Y2]. }
  apply pow2_lt_inv in H. lia.
Qed.

Lemma ilog2_ge (x : Q) (e : Z) : (pow2 e <= x)%Q -> e <= ilog2 x.
Proof.
  intros H.
  assert (Hx : (0 < x)%Q) by (eapply Qlt_le_trans; [apply pow2_pos|exact H]).
  destruct (ilog2_spec x Hx) as [_ X2].
  assert (H' : (pow2 e < pow2 (ilog2 x + 1))%Q) by (eapply Qle_lt_trans; eassumption).
  apply pow2_lt_inv in H'. lia.
Qed.

(** Rounding to the nearest integer, ties to even. *)

Lemma rne_cases (q : Q) :
  (rne q = Qfloor q /\ (q - inject_Z (Qfloor q) <= 1 # 2)%Q) \/
  (rne q = Qfloor q + 1 /\ (1 # 2 <= q - inject_Z (Qfloor q))%Q).
Proof.
  unfold rne.
  destruct (Qcompare_spec (q - inject_Z (Qfloor q)) (1 # 2)) as [E|E|E].
  - destruct (Z.even (Qfloor q)); [left|right]; split; try done; lra.
  - left. split; [done|lra].
  - right. split; [done|lra].
Qed.

Lemma rne_upper (q : Q) : (inject_Z (rne q) <= q + (1 # 2))%Q.
Proof.
  pose proof (Qfloor_le q) as Hf.
  destruct (rne_cases q) as [[-> H]|[-> H]]; [lra|].
  rewrite inject_Z_plus. change (inject_Z 1) with 1%Q. lra.
Qed.

Lemma rne_Z (z : Z) : rne (inject_Z z) = z.
Proof.
  destruct (rne_cases (inject_Z z)) as [[-> H]|[-> H]]; rewrite Qfloor_Z in *; [done|].
  exfalso. lra.
Qed.

Lemma rne_mono (q1 q2 : Q) : (q1 <= q2)%Q -> rne q1 <= rne q2.
Proof.
  intros H. pose proof (Qfloor_resp_le q1 q2 H) as Hf.
  unfold rne.
  destruct (Z.eq_dec (Qfloor q1) (Qfloor q2)) as [E|NE].
  - rewrite E.
    destruct (Qcompare_spec (q1 - inject_Z (Qfloor q2)) (1 # 2)) as [E1|E1|E1];
    destruct (Qcompare_spec (q2 - inject_Z (Qfloor q2)) (1 # 2)) as [E2|E2|E2];
      try lia; try (exfalso; lra); destruct (Z.even (Qfloor q2)); lia.
  - destruct (q1 - inject_Z (Qfloor q1) ?= 1 # 2)%Q;
    destruct (q2 - inject_Z (Qfloor q2) ?= 1 # 2)%Q;
      try destruct (Z.even (Qfloor q1)); try destruct (Z.even (Qfloor q2)); lia.
Qed.

(** Rounding to a binary float is monotone, and in the normal range its
    relative error is at most [2^-prec]. *)

Section rounding.
Variables prec emin : Z.
Hypothesis Hprec : 1 <= prec.

Lemma scaled_le (x y : Q) (e : Z) : (x <= y)%Q -> (x / pow2 e <= y / pow2 e)%Q.
Proof.
  intros H. pose proof (pow2_pos e) as He. unfold Qdiv.
  apply Qmult_le_compat_r; [exact H|]. apply Qlt_le_weak, Qinv_lt_0_compat, He.
Qed.

Lemma round_pos_mono (x y : Q) :
  (0 < x)%Q -> (x <= y)%Q -> (round_pos prec emin x <= round_pos prec emin y)%Q.
Proof.
  intros Hx Hxy.
  assert (Hy : (0 < y)%Q) by (eapply Qlt_le_trans; eassumption).
  pose proof (ilog2_mono x y Hx Hxy) as Hl.
  unfold round_pos.
  set (ex := Z.max (ilog2 x - (prec - 1)) emin).
  set (ey := Z.max (ilog2 y - (prec - 1)) emin).
  assert (Hex : ex <= ey) by (unfold ex, ey; lia).
  destruct (Z.eq_dec ex ey) as [E|NE].
  - rewrite E. apply Qmult_le_compat_r; [|apply Qlt_le_weak, pow2_pos].
    rewrite <- Zle_Qle. apply rne_mono, scaled_le, Hxy.
  - assert (Hey : ey = ilog2 y - (prec - 1)) by (unfold ex, ey in *; lia).
    assert (Hlt : ilog2 x + 1 <= ilog2 y) by (unfold ex, ey in *; lia).
    destruct (ilog2_spec x Hx) as [_ X2]. destruct (ilog2_spec y Hy) as [Y1 _].
    apply Qle_trans with (pow2 (ilog2 y)).
    + assert (Hk : 0 <= ilog2 y - ex) by (unfold ex, ey in *; lia).
      assert (Hb : (x / pow2 ex <= inject_Z (2 ^ (ilog2 y - ex)))%Q).
      { rewrite <- pow2_Z by exact Hk. rewrite <- pow2_div. apply scaled_le.
        apply Qlt_le_weak. eapply Qlt_le_trans; [exact X2|]. by apply pow2_le. }
      apply rne_mono in Hb. rewrite rne_Z in Hb. rewrite Zle_Qle in Hb.
      apply Qle_trans with (inject_Z (2 ^ (ilog2 y - ex)) * pow2 ex)%Q.
      * apply Qmult_le_compat_r; [exact Hb|apply Qlt_le_weak, pow2_pos].
      * rewrite <- pow2_Z by exact Hk. rewrite <- pow2_add.
        replace (ilog2 y - ex + ex) with (ilog2 y) by ring. apply Qle_refl.
    + assert (Hk : 0 <= prec - 1) by lia.
      assert (Hb : (inject_Z (2 ^ (prec - 1)) <= y / pow2 ey)%Q).
      { rewrite <- pow2_Z by exact Hk.
        replace (prec - 1) with (ilog2 y - ey) by lia.
        rewrite <- pow2_div. by apply scaled_le. }
      apply rne_mono in Hb. rewrite rne_Z in Hb. rewrite Zle_Qle in Hb.
      apply Qle_trans with (inject_Z (2 ^ (prec - 1)) * pow2 ey)%Q.
      * rewrite <- pow2_Z by exact Hk. rewrite <- pow2_add.
        replace (prec - 1 + ey) with (ilog2 y) by lia. apply Qle_refl.
      * apply Qmult_le_compat_r; [exact Hb|apply Qlt_le_weak, pow2_pos].
Qed.

Lemma round_pos_nonneg (x : Q) : (0 < x)%Q -> (0 <= round_pos prec emin x)%Q.
Proof.
  intros Hx. unfold round_pos.
  set (e := Z.max (ilog2 x - (prec - 1)) emin).
  apply Qmult_le_0_compat; [|apply Qlt_le_weak, pow2_pos].
  change 0%Q with (inject_Z 0). rewrite <- Zle_Qle.
  rewrite <- (rne_Z 0). apply rne_mono.
  apply Qle_shift_div_l; [apply pow2_pos|]. rewrite Qmult_0_l. by apply Qlt_le_weak.
Qed.

Lemma round_float_mono (x y : Q) :
  (x <= y)%Q -> (round_float prec emin x <= round_float prec emin y)%Q.
Proof.
  intros Hxy. unfold round_float.
  destruct (Qcompare_spec x 0) as [Ex|Ex|Ex]; destruct (Qcompare_spec y 0) as [Ey|Ey|Ey];
    try (exfalso; lra).
  - apply Qle_refl.
  - by apply round_pos_nonneg.
  - pose proof (round_pos_nonneg (- x) ltac:(lra)). lra.
  - assert (H : (round_pos prec emin (- y) <= round_pos prec emin (- x))%Q).
    { apply round_pos_mono; lra. }
    lra.
  - pose proof (round_pos_nonneg (- x) ltac:(lra)).
    pose proof (round_pos_nonneg y ltac:(lra)). lra.
  - by apply round_pos_mono.
Qed.

Lemma round_pos_upper (x : Q) :
  (pow2 (emin + prec - 1) <= x)%Q ->
  (round_pos prec emin x <= x * (1 + pow2 (- prec)))%Q.
Proof.
  intros Hx. pose proof (ilog2_ge x _ Hx) as Hl.
  assert (Hpos : (0 < x)%Q) by (eapply Qlt_le_trans; [apply pow2_pos|exact Hx]).
  destruct (ilog2_spec x Hpos) as [X1 _].
  unfold round_pos. rewrite Z.max_l by lia.
  set (e := ilog2 x - (prec - 1)).
  pose proof (pow2_pos e) as He.
  pose proof (rne_upper (x / pow2 e)) as Hr.
  apply Qle_trans with ((x / pow2 e + (1 # 2)) * pow2 e)%Q.
  { apply Qmult_le_compat_r; [exact Hr|by apply Qlt_le_weak]. }
  assert (E : ((x / pow2 e + (1 # 2)) * pow2 e == x + pow2 (ilog2 x) * pow2 (- prec))%Q).
  { rewrite <- pow2_add. replace (ilog2 x + - prec) with (e + -1) by (unfold e; ring).
    rewrite pow2_add. change (pow2 (-1)) with (1 # 2)%Q. field.
    intros E. rewrite E in He. discriminate He. }
  rewrite E.
  assert (H : (pow2 (ilog2 x) * pow2 (- prec) <= x * pow2 (- prec))%Q).
  { apply Qmult_le_compat_r; [exact X1|apply Qlt_le_weak, pow2_pos]. }
  lra.
Qed.

End rounding.

(** ** Doubles *)

Lemma double_mono (x y : Q) : (x <= y)%Q -> (double x <= double y)%Q.
Proof.
  intros H. unfold double. rewrite !Qred_correct. by apply round_float_mono.
Qed.

Lemma double_upper (x : Q) :
  (pow2 (-1022) <= x)%Q -> (double x <= x * (1 + pow2 (-53)))%Q.
Proof.
  intros H. unfold double, round_float. rewrite Qred_correct.
  assert (Hx : (0 < x)%Q) by (eapply Qlt_le_trans; [apply pow2_pos|exact H]).
  destruct (Qcompare_spec x 0) as [E|E|E]; [exfalso; lra..|].
  by apply (round_pos_upper 53 (-1074)).
Qed.

Lemma double_ext (x y : Q) : (x == y)%Q -> double x = double y.
Proof.
  intros H. unfold double. apply Qred_complete.
  apply Qle_antisym; apply round_float_mono; try lia; lra.
Qed.

Lemma double_0 : double 0 = 0%Q.
Proof. reflexivity. Qed.

Lemma double_1 : double 1 = 1%Q.
Proof. by vm_compute. Qed.

Lemma double_nonneg (x : Q) : (0 <= x)%Q -> (0 <= double x)%Q.
Proof. intros H. rewrite <- double_0. by apply double_mono. Qed.

Lemma double_le_1 (x : Q) : (x <= 1 + pow2 (-53))%Q -> (double x <= 1)%Q.
Proof.
  intros H. apply double_mono in H.
  assert (E : double (1 + pow2 (-53)) = 1%Q) by (by vm_compute).
  by rewrite E in H.
Qed.

Lemma double_ge_1 (x : Q) : (1 <= x)%Q -> (1 <= double x)%Q.
Proof. intros H. rewrite <- double_1. by apply double_mono. Qed.

Lemma double_int_bounds (n : Z) :
  1 <= n <= 2 ^ 1022 ->
  (1 <= double (inject_Z n))%Q /\ (double (inject_Z n) <= pow2 1022)%Q.
Proof.
  intros [H1 H2]. split.
  - apply double_ge_1. change 1%Q with (inject_Z 1). by rewrite <- Zle_Qle.
  - assert (E : double (inject_Z (2 ^ 1022)) == pow2 1022) by (by vm_compute).
    rewrite <- E. apply double_mono. by rewrite <- Zle_Qle.
Qed.


(** ** The conversion of integers to doubles *)

Lemma py_float_ok {St : Type} (n : Z) (s : St) :
  converts n -> py_float n s = (Ok (double (inject_Z n)), s).
Proof. unfold converts, py_float, ret. by intros ->. Qed.

Lemma py_float_cases {St : Type} (n : Z) (s : St) :
  (converts n /\ py_float n s = (Ok (double (inject_Z n)), s)) \/
  py_float n s = (Raise OverflowError, s).
Proof.
  unfold converts, py_float, raise, ret.
  destruct (_ || _); [by right|by left].
Qed.

Lemma converts_small (n : Z) : - 2 ^ 1022 <= n <= 2 ^ 1022 -> converts n.
Proof.
  intros [H1 H2]. unfold converts.
  assert (U : (double (inject_Z n) <= pow2 1022)%Q).
  { assert (E : double (inject_Z (2 ^ 1022)) == pow2 1022) by (by vm_compute).
    rewrite <- E. apply double_mono. by rewrite <- Zle_Qle. }
  assert (L : (- pow2 1022 <= double (inject_Z n))%Q).
  { assert (E : double (inject_Z (- 2 ^ 1022)) == - pow2 1022) by (by vm_compute).
    rewrite <- E. apply double_mono. by rewrite <- Zle_Qle. }
  pose proof (pow2_lt 1022 1024 ltac:(lia)) as Hlt.
  apply orb_false_iff. split.
  - destruct (Qle_bool (pow2 1024) _) eqn:E; [|done]. apply Qle_bool_iff in E. lra.
  - destruct (Qle_bool _ (- pow2 1024)) eqn:E; [|done]. apply Qle_bool_iff in E. lra.
Qed.

Lemma double_int_nonzero (n : Z) : n <> 0 -> Qeq_bool (double (inject_Z n)) 0 = false.
Proof.
  intros Hn. destruct (Qeq_bool _ 0) eqn:E; [|done]. apply Qeq_bool_iff in E.
  destruct (Z.lt_total n 0) as [H|[H|H]]; [|done|].
  - assert (N : (double (inject_Z n) <= -1)%Q).
    { change (-1)%Q with (double (inject_Z (-1))). apply double_mono.
      rewrite <- Zle_Qle. lia. }
    lra.
  - assert (N : (1 <= double (inject_Z n))%Q).
    { apply double_ge_1. change 1%Q with (inject_Z 1). rewrite <- Zle_Qle. lia. }
    lra.
Qed.

(** ** Scalars and masks as data *)

Lemma Qred_zero (q : Q) : (q == 0)%Q -> Qred q = 0%Q.
Proof. intros H. apply (Qred_complete q 0) in H. exact H. Qed.

Lemma q_mul_0_l (y : Q) : q_mul 0 y = 0%Q.
Proof. apply Qred_zero. ring. Qed.

Lemma q_mul_0_r (x : Q) : q_mul x 0 = 0%Q.
Proof. apply Qred_zero. ring. Qed.

Lemma nonzero_false (q : Q) : nonzero q = false -> (q == 0)%Q.
Proof.
  unfold nonzero. intros H. apply negb_false_iff in H.
  by apply Qeq_bool_iff.
Qed.

Lemma nonzero_Qred_false (q : Q) : nonzero (Qred q) = false -> Qred q = 0%Q.
Proof.
  intros H. apply nonzero_false in H.
  apply Qred_zero. by rewrite <- (Qred_correct q).
Qed.

Lemma binary_revealed (x : Q) : binary x -> (revealed x <-> x = 1%Q).
Proof. intros [->| ->]; unfold revealed; split; intros H; done. Qed.

Lemma binarize_q_mul_binary (x k : Q) :
  binary x -> binarize (q_mul x k) = 0%Q \/ (binarize (q_mul x k) = 1%Q /\ x = 1%Q).
Proof.
  intros [->| ->].
  - left. by rewrite q_mul_0_l.
  - unfold binarize. destruct (nonzero (q_mul 1 k)) eqn:E; [right; done|].
    left. by apply nonzero_Qred_false.
Qed.

Lemma reveal_sample_between (o n k : Q) :
  binary o -> binary n -> (revealed o -> revealed n) ->
  binary (reveal_sample o n k) /\
  (revealed o -> revealed (reveal_sample o n k)) /\
  (revealed (reveal_sample o n k) -> revealed n).
Proof.
  intros Ho Hn Hsub. unfold reveal_sample.
  assert (Hd : binary (q_sub n o) /\ (q_sub n o = 1%Q -> n = 1%Q /\ o = 0%Q)).
  { destruct Ho as [->| ->], Hn as [->| ->]; try (split; [by (left + right)|done]).
    exfalso. by specialize (Hsub eq_refl). }
  destruct Hd as [Hb H1].
  destruct (binarize_q_mul_binary (q_sub n o) k Hb) as [->|[-> Hx]].
  - destruct Ho as [->| ->]; (split; [by (left + right)|]); split; auto; done.
  - destruct (H1 Hx) as [-> ->]. split; [by right|]. split; done.
Qed.

(** ** The dilation of one plane *)

Lemma foldr_max_bit (l : list Z) : Forall bit l -> bit (foldr Z.max 0 l).
Proof.
  induction 1 as [|x l Hx _ IH]; simpl; [by left|].
  destruct Hx as [->| ->], IH as [->| ->]; by (left + right).
Qed.

Lemma foldr_max_ge (l : list Z) (x : Z) : x ∈ l -> x <= foldr Z.max 0 l.
Proof.
  induction 1 as [|x y l _ IH]; simpl; lia.
Qed.

Lemma pixel_bit (h w : nat) (img : list Z) (y x : Z) :
  Forall bit img -> bit (pixel h w img y x).
Proof.
  intros Himg. unfold pixel. case_match; [|by left].
  destruct (img !! _) as [v|] eqn:E; simpl; [|by left].
  by eapply Forall_lookup_1.
Qed.

Lemma dilate_once_length (h w : nat) (offs : list (Z * Z)) (img : list Z) :
  length (dilate_once h w offs img) = (h * w)%nat.
Proof. unfold dilate_once. by rewrite length_fmap, length_seq. Qed.

Lemma dilate_once_bit (h w : nat) (offs : list (Z * Z)) (img : list Z) :
  Forall bit img -> Forall bit (dilate_once h w offs img).
Proof.
  intros Himg. unfold dilate_once. apply Forall_fmap, Forall_forall.
  intros j _. simpl. unfold dilate_pixel. apply foldr_max_bit.
  apply Forall_fmap, Forall_forall. intros o _. simpl. by apply pixel_bit.
Qed.

Lemma pixel_self (h w : nat) (img : list Z) (j : nat) :
  (j < h * w)%nat ->
  pixel h w img (Z.of_nat j / Z.of_nat w + 0) (Z.of_nat j mod Z.of_nat w + 0)
  = default 0 (img !! j).
Proof.
  intros Hj. assert (Hw : 0 < Z.of_nat w) by nia.
  unfold pixel. rewrite !Z.add_0_r.
  pose proof (Z.mod_pos_bound (Z.of_nat j) (Z.of_nat w) Hw) as Hm.
  pose proof (Z.div_pos (Z.of_nat j) (Z.of_nat w) ltac:(lia) Hw) as Hd.
  assert (Hq : Z.of_nat j / Z.of_nat w < Z.of_nat h).
  { apply Z.div_lt_upper_bound; nia. }
  rewrite (proj2 (Z.leb_le _ _) Hd), (proj2 (Z.ltb_lt _ _) Hq).
  rewrite (proj2 (Z.leb_le _ _) (proj1 Hm)), (proj2 (Z.ltb_lt _ _) (proj2 Hm)).
  simpl. f_equal. f_equal.
  rewrite Z.mul_comm, <- Z.div_mod by lia. apply Nat2Z.id.
Qed.

(** Dilation is extensive as soon as the anchor belongs to the kernel. *)
Lemma dilate_once_extensive (h w : nat) (offs : list (Z * Z)) (img : list Z) :
  (0, 0) ∈ offs -> length img = (h * w)%nat ->
  Forall2 Z.le img (dilate_once h w offs img).
Proof.
  intros Hin Hlen. apply Forall2_same_length_lookup_2.
  { by rewrite dilate_once_length. }
  intros j x y Hx Hy. unfold dilate_once in Hy.
  rewrite list_lookup_fmap in Hy.
  destruct (seq 0 (h * w) !! j) as [j'|] eqn:Hs; [|done].
  apply lookup_seq in Hs as [-> Hj]. simpl in Hy. injection Hy as <-.
  unfold dilate_pixel. apply foldr_max_ge.
  apply list_elem_of_fmap. exists (0, 0). split; [|done]. simpl.
  by rewrite pixel_self, Hx.
Qed.

Lemma cv2_dilate_bit (h w : nat) (img : list Z) (kernel : list (list Z)) (it : nat) :
  Forall bit img -> Forall bit (cv2_dilate h w img kernel it).
Proof.
  intros Himg. unfold cv2_dilate. induction it as [|it IH]; simpl; [done|].
  by apply dilate_once_bit.
Qed.

Lemma cv2_dilate_length (h w : nat) (img : list Z) (kernel : list (list Z)) (it : nat) :
  length img = (h * w)%nat -> length (cv2_dilate h w img kernel it) = (h * w)%nat.
Proof.
  intros Hlen. unfold cv2_dilate. destruct it as [|it]; simpl; [done|].
  apply dilate_once_length.
Qed.

Lemma anchor_in_kernel : (0, 0) ∈ kernel_offsets (np_ones 2 2).
Proof. vm_compute. do 3 apply list_elem_of_further. apply list_elem_of_here. Qed.

Lemma cv2_dilate_extensive (h w : nat) (img : list Z) (it : nat) :
  length img = (h * w)%nat ->
  Forall2 Z.le img (cv2_dilate h w img (np_ones 2 2) it).
Proof.
  intros Hlen. induction it as [|it IH].
  - apply Forall_Forall2_diag, Forall_forall. intros; lia.
  - eapply Forall2_trans; [|exact IH|].
    + intros x y z. apply Z.le_trans.
    + apply dilate_once_extensive; [apply anchor_in_kernel|].
      by apply cv2_dilate_length.
Qed.

Lemma astype_uint8_binary (x : Q) : binary x -> bit (astype_uint8 x) /\ (revealed x -> astype_uint8 x = 1).
Proof. intros [->| ->]; split; first [by left|by right|done]. Qed.

Lemma dilate_plane_length (h w it : nat) (m : list Q) :
  length m = (h * w)%nat -> length (dilate_plane h w it m) = (h * w)%nat.
Proof.
  intros Hlen. unfold dilate_plane. rewrite length_fmap.
  apply cv2_dilate_length. by rewrite length_fmap.
Qed.

Lemma dilate_plane_binary (h w it : nat) (m : list Q) :
  Forall binary m -> Forall binary (dilate_plane h w it m).
Proof.
  intros Hm. unfold dilate_plane. apply Forall_fmap.
  eapply Forall_impl; [apply cv2_dilate_bit|].
  - apply Forall_fmap. eapply Forall_impl; [exact Hm|].
    intros x Hx. by apply astype_uint8_binary.
  - intros z [->| ->]; by (left + right).
Qed.

Lemma dilate_plane_extensive (h w it : nat) (m : list Q) :
  length m = (h * w)%nat -> Forall binary m -> subset m (dilate_plane h w it m).
Proof.
  intros Hlen Hm. unfold subset, dilate_plane.
  apply Forall2_fmap_r.
  assert (Hb : Forall bit (cv2_dilate h w (astype_uint8 <$> m) (np_ones 2 2) it)).
  { apply cv2_dilate_bit, Forall_fmap. eapply Forall_impl; [exact Hm|].
    intros x Hx. by apply astype_uint8_binary. }
  assert (Hle : Forall2 Z.le (astype_uint8 <$> m)
                   (cv2_dilate h w (astype_uint8 <$> m) (np_ones 2 2) it)).
  { apply cv2_dilate_extensive. by rewrite length_fmap. }
  rewrite Forall2_fmap_l in Hle.
  apply Forall2_same_length_lookup_2; [exact (Forall2_length _ _ _ Hle)|].
  intros j x z Hx Hz Hr.
  pose proof (Forall2_lookup_lr _ _ _ _ _ _ Hle Hx Hz) as Hxz. simpl in Hxz.
  pose proof (Forall_lookup_1 _ _ _ _ Hm Hx) as Hbx.
  pose proof (Forall_lookup_1 _ _ _ _ Hb Hz) as Hbz.
  destruct (astype_uint8_binary x Hbx) as [_ H1]. rewrite (H1 Hr) in Hxz.
  destruct Hbz as [->| ->]; [lia|done].
Qed.

Lemma slice_length (sz i n : nat) (d : list Q) :
  length d = (n * sz)%nat -> (i < n)%nat -> length (slice sz i d) = sz.
Proof.
  intros Hd Hi. unfold slice. rewrite length_take, length_drop. nia.
Qed.

Lemma dilate_planes_concat (h w it : nat) (d : list Q) (tot n i : nat) (r : list Q) :
  length d = (tot * (h * w))%nat -> length r = (tot * (h * w))%nat ->
  (i + n = tot)%nat ->
  dilate_planes h w it d i n r
  = take (i * (h * w)) r
    ++ concat ((fun k => dilate_plane h w it (slice (h * w) k d)) <$> seq i n)
    ++ drop (tot * (h * w)) r.
Proof.
  intros Hd. revert i r. induction n as [|n IH]; intros i r Hr Hin; simpl.
  - assert (i = tot) as -> by lia. by rewrite take_drop.
  - set (v := dilate_plane h w it (slice (h * w) i d)).
    assert (Hv : length v = (h * w)%nat).
    { apply dilate_plane_length. eapply slice_length; [exact Hd|lia]. }
    assert (Ht : length (take (i * (h * w)) r) = (i * (h * w))%nat).
    { rewrite length_take. nia. }
    rewrite IH; [|unfold set_slice; rewrite !length_app, Ht, Hv, length_drop; nia|lia].
    unfold set_slice. set (A := take (i * (h * w)) r) in *.
    set (D := drop (i * (h * w) + h * w) r).
    assert (HAv : length (A ++ v) = (S i * (h * w))%nat)
      by (rewrite length_app, Ht, Hv; lia).
    rewrite (app_assoc A v D), <- HAv, take_app_length.
    rewrite drop_app_ge by (rewrite HAv; nia).
    unfold D. rewrite drop_drop, HAv, <- !app_assoc. simpl.
    do 3 f_equal. apply (f_equal (fun k => drop k r)). nia.
Qed.

Lemma concat_slices (sz n : nat) (d : list Q) :
  length d = (n * sz)%nat -> d = concat ((fun k => slice sz k d) <$> seq 0 n).
Proof.
  revert d. induction n as [|n IH]; intros d Hd.
  - by destruct d.
  - rewrite seq_S, fmap_app, concat_app. simpl. rewrite app_nil_r.
    rewrite <- (take_drop (n * sz) d) at 1. f_equal.
    + assert (Hl : length (take (n * sz) d) = (n * sz)%nat) by (rewrite length_take, Hd; lia).
      rewrite (IH (take (n * sz) d)) at 1 by done.
      f_equal. apply list_fmap_ext. intros j k Hk.
      apply lookup_seq in Hk as [-> Hj]. unfold slice. simpl.
      rewrite !take_drop_commute, take_take. do 2 f_equal. apply Nat.min_l. nia.
    + unfold slice. simpl. rewrite take_ge; [done|]. rewrite length_drop, Hd. lia.
Qed.

Lemma dilate_data_concat (n h w it : nat) (d : list Q) :
  length d = (n * (h * w))%nat ->
  dilate_data n h w it d
  = concat ((fun k => dilate_plane h w it (slice (h * w) k d)) <$> seq 0 n).
Proof.
  intros Hd. unfold dilate_data.
  rewrite (dilate_planes_concat h w it d n n 0); [| done | | done].
  - simpl. rewrite drop_ge, app_nil_r; [done|].
    rewrite length_replicate. simpl. lia.
  - rewrite length_replicate. simpl. lia.
Qed.

Lemma dilate_data_spec (n h w it : nat) (d : list Q) :
  length d = (n * (h * w))%nat -> Forall binary d ->
  length (dilate_data n h w it d) = length d /\
  Forall binary (dilate_data n h w it d) /\
  subset d (dilate_data n h w it d).
Proof.
  intros Hd Hb.
  assert (Hsl : forall k, In k (seq 0 n) ->
            length (slice (h * w) k d) = (h * w)%nat /\ Forall binary (slice (h * w) k d)).
  { intros k Hk. apply in_seq in Hk. split.
    - eapply slice_length; [exact Hd|lia].
    - unfold slice. by apply Forall_take, Forall_drop. }
  assert (Hsub : subset d (dilate_data n h w it d)).
  { rewrite dilate_data_concat by done.
    rewrite (concat_slices (h * w) n d) at 1 by done.
    unfold subset.
    induction (seq 0 n) as [|k l IH]; simpl; [constructor|].
    apply Forall2_app.
    - destruct (Hsl k (or_introl eq_refl)). by apply dilate_plane_extensive.
    - apply IH. intros k' Hk'. apply Hsl. by right. }
  split; [symmetry; by eapply Forall2_length|]. split; [|done].
  rewrite dilate_data_concat by done.
  apply Forall_concat, Forall_fmap, Forall_forall. intros k Hk. simpl.
  apply dilate_plane_binary. apply Hsl. by apply list_elem_of_In.
Qed.

(** ** [dilate_mask] on the store *)

Lemma lookup_pair_fst (base : list (list Q)) (d r : list Q) :
  (base ++ [d; r]) !! length base = Some d.
Proof. by rewrite lookup_app_r, Nat.sub_diag. Qed.

Lemma lookup_pair_snd (base : list (list Q)) (d r : list Q) :
  (base ++ [d; r]) !! S (length base) = Some r.
Proof.
  rewrite lookup_app_r by lia.
  by replace (S (length base) - length base)%nat with 1%nat by lia.
Qed.

Lemma insert_pair_snd (base : list (list Q)) (d r x : list Q) :
  <[S (length base) := x]> (base ++ [d; r]) = base ++ [d; x].
Proof.
  rewrite insert_app_r_alt by lia.
  by replace (S (length base) - length base)%nat with 1%nat by lia.
Qed.

Section dilate_loop.
Variables (mask_np mask_res : Tensor) (base : list (list Q)).
Hypothesis Hnp : t_buf mask_np = length base.
Hypothesis Hres : t_buf mask_res = S (length base).

Lemma dilate_body_run (h w it i : nat) (d r : list Q) (g : nat) :
  dilate_body mask_np mask_res h w (np_ones 2 2) it i
    {| mem := base ++ [d; r]; grow_calls := g |}
  = if ((h =? 0) || (w =? 0))%nat
    then (Stuck, {| mem := base ++ [d; r]; grow_calls := g |})
    else (Ok tt, {| mem := base ++ [d; set_slice (h * w) i
                                        (dilate_plane h w it (slice (h * w) i d)) r];
                    grow_calls := g |}).
Proof.
  unfold dilate_body, getitem, setitem, bind, load, store, ret, stuck. simpl.
  rewrite Hnp, lookup_pair_fst.
  destruct ((h =? 0) || (w =? 0))%nat; [done|]. simpl.
  rewrite Hres, lookup_pair_snd. simpl. by rewrite insert_pair_snd.
Qed.

(** Whatever its outcome, the loop only writes to [mask_res]. *)
Lemma dilate_loop_frame (h w it n i : nat) (d r : list Q) (g : nat) :
  exists o r',
    for_range (dilate_body mask_np mask_res h w (np_ones 2 2) it) i n
      {| mem := base ++ [d; r]; grow_calls := g |}
    = (o, {| mem := base ++ [d; r']; grow_calls := g |}).
Proof.
  revert i r. induction n as [|n IH]; intros i r; simpl.
  - by exists (Ok tt), r.
  - unfold bind at 1. rewrite dilate_body_run.
    destruct ((h =? 0) || (w =? 0))%nat; [by exists Stuck, r|].
    apply IH.
Qed.

Lemma dilate_loop_ok (h w it n i : nat) (d r : list Q) (g : nat) :
  n = 0%nat \/ (h <> 0%nat /\ w <> 0%nat) ->
  for_range (dilate_body mask_np mask_res h w (np_ones 2 2) it) i n
    {| mem := base ++ [d; r]; grow_calls := g |}
  = (Ok tt, {| mem := base ++ [d; dilate_planes h w it d i n r]; grow_calls := g |}).
Proof.
  intros [->|[Hh Hw]]; [done|].
  revert i r. induction n as [|n IH]; intros i r; simpl; [done|].
  unfold bind at 1. rewrite dilate_body_run.
  apply Nat.eqb_neq in Hh, Hw. rewrite Hh, Hw. simpl. apply IH.
Qed.

Lemma dilate_loop_stuck (h w it n i : nat) (d r : list Q) (g : nat) :
  ((h =? 0) || (w =? 0))%nat = true ->
  for_range (dilate_body mask_np mask_res h w (np_ones 2 2) it) i (S n)
    {| mem := base ++ [d; r]; grow_calls := g |}
  = (Stuck, {| mem := base ++ [d; r]; grow_calls := g |}).
Proof.
  intros H. simpl. unfold bind at 1. by rewrite dilate_body_run, H.
Qed.
End dilate_loop.

Lemma app_pair_assoc (base : list (list Q)) (d r : list Q) :
  (base ++ [d]) ++ [r] = base ++ [d; r].
Proof. by rewrite <- app_assoc. Qed.

Lemma planes_stack (shape : list nat) (n h w : nat) :
  planes shape n h w -> stack shape n h w.
Proof. intros [Hsq Hnhw]. split; [by left|done]. Qed.

Lemma dilate_mask_ok (mask : Tensor) (it : nat) (w : World) (d : list Q) (n h w' : nat) :
  mem w !! t_buf mask = Some d -> stack (t_shape mask) n h w' ->
  dilate_mask mask it w
  = (Ok {| t_dtype := t_dtype mask; t_shape := t_shape mask;
           t_buf := S (length (mem w)) |},
     {| mem := mem w ++ [d; dilate_data n h w' it d];
        grow_calls := S (grow_calls w) |}).
Proof.
  intros Hd ([Hsq|[Hsq ->]] & Hnhw).
  all: unfold dilate_mask, tick, clone, empty_like, bind, load, alloc, ret; simpl.
  all: rewrite Hd; simpl; rewrite Hsq, app_pair_assoc.
  all: rewrite (dilate_loop_ok _ _ (mem w)); simpl; try done.
  all: try by rewrite length_app, Nat.add_comm.
Qed.

(** Either the mask is one that [dilate_mask] accepts, or the call does not
    return a tensor; in both cases the buffers are only appended to. *)
Lemma dilate_mask_cases (mask : Tensor) (it : nat) (w : World) :
  (exists d n h w', mem w !! t_buf mask = Some d /\ stack (t_shape mask) n h w') \/
  (exists o k,
     dilate_mask mask it w
     = (o, {| mem := mem w ++ k; grow_calls := S (grow_calls w) |}) /\
     forall r, o <> Ok r).
Proof.
  destruct (mem w !! t_buf mask) as [d|] eqn:Hd.
  2:{ right. exists Stuck, [].
      unfold dilate_mask, tick, clone, bind, load. simpl. rewrite Hd, app_nil_r.
      by split. }
  destruct (filter (fun k => k <> 1%nat) (t_shape mask))
    as [|n [|h [|w' [|]]]] eqn:Hsq.
  1,2,5: right; eexists _, [d; _]; split;
    [unfold dilate_mask, tick, clone, empty_like, bind, load, alloc, ret, raise, stuck;
     simpl; rewrite Hd; simpl; rewrite Hsq, app_pair_assoc; reflexivity
    |done].
  - destruct n as [|n].
    { left. exists d, 0%nat, h, 1%nat. split; [done|]. split; [by right|by left]. }
    destruct ((h =? 0) || (1 =? 0))%nat eqn:E.
    + right. eexists Stuck, [d; _]. split; [|done].
      unfold dilate_mask, tick, clone, empty_like, bind, load, alloc, ret.
      simpl. rewrite Hd. simpl. rewrite Hsq, app_pair_assoc.
      rewrite (dilate_loop_stuck _ _ (mem w)); simpl; try done.
      by rewrite length_app, Nat.add_comm.
    + left. exists d, (S n), h, 1%nat. split; [done|]. split; [by right|right].
      apply orb_false_iff in E as [E1 E2].
      by apply Nat.eqb_neq in E1, E2.
  - destruct n as [|n].
    { left. exists d, 0%nat, h, w'. split; [done|]. split; [by left|by left]. }
    destruct ((h =? 0) || (w' =? 0))%nat eqn:E.
    + right. eexists Stuck, [d; _]. split; [|done].
      unfold dilate_mask, tick, clone, empty_like, bind, load, alloc, ret.
      simpl. rewrite Hd. simpl. rewrite Hsq, app_pair_assoc.
      rewrite (dilate_loop_stuck _ _ (mem w)); simpl; try done.
      by rewrite length_app, Nat.add_comm.
    + left. exists d, (S n), h, w'. split; [done|]. split; [by left|right].
      apply orb_false_iff in E as [E1 E2].
      by apply Nat.eqb_neq in E1, E2.
Qed.

(** Whatever the outcome, [dilate_mask] counts one call and leaves every
    buffer that existed before the call as it was; a returned tensor has the
    shape and dtype of the argument and a buffer of its own. *)
Lemma dilate_mask_frame (mask : Tensor) (it : nat) (w : World) :
  exists o k,
    dilate_mask mask it w
    = (o, {| mem := mem w ++ k; grow_calls := S (grow_calls w) |}) /\
    match o with
    | Ok r => t_shape r = t_shape mask /\ t_dtype r = t_dtype mask /\
              t_buf r = S (length (mem w))
    | _ => True
    end.
Proof.
  destruct (dilate_mask_cases mask it w) as [(d & n & h & w' & Hd & Hp)|(o & k & E & Hno)].
  - rewrite (dilate_mask_ok _ _ _ _ _ _ _ Hd Hp). by eexists (Ok _), _.
  - exists o, k. split; [done|]. destruct o; [by destruct (Hno a)|done..].
Qed.

(** ** Frame conditions on the store *)

Lemma keeps_refl (w : World) : keeps w w.
Proof. by split. Qed.

Lemma prefix_insert_ge (base l : list (list Q)) (i : nat) (x : list Q) :
  base `prefix_of` l -> (length base <= i)%nat -> base `prefix_of` <[i := x]> l.
Proof.
  intros [k ->] Hi. rewrite insert_app_r_alt by done. by eexists.
Qed.

Lemma prefix_snoc (base l : list (list Q)) (x : list Q) :
  base `prefix_of` l -> base `prefix_of` l ++ [x].
Proof. intros. by apply prefix_app_r. Qed.

Lemma tensor_binop_ok (f : Q -> Q -> Q) (a b : Tensor) (w : World) (da db : list Q) :
  t_shape a = t_shape b ->
  mem w !! t_buf a = Some da -> mem w !! t_buf b = Some db ->
  tensor_binop f a b w
  = (Ok {| t_dtype := promote (t_dtype a) (t_dtype b); t_shape := t_shape a;
           t_buf := length (mem w) |},
     {| mem := mem w ++ [zip_with f da db]; grow_calls := grow_calls w |}).
Proof.
  intros Hs Ha Hb. unfold tensor_binop, bind, load, alloc, ret.
  rewrite decide_True by done. by rewrite Ha, Hb.
Qed.

Lemma tensor_binop_frame (f : Q -> Q -> Q) (a b : Tensor) (w : World) :
  exists o k,
    tensor_binop f a b w = (o, {| mem := mem w ++ k; grow_calls := grow_calls w |}) /\
    match o with Ok r => t_buf r = length (mem w) /\ length k = 1%nat | _ => k = [] end.
Proof.
  unfold tensor_binop, bind, load, alloc, ret, stuck.
  destruct w as [m g]. simpl.
  case_decide; [|exists Stuck, []; by rewrite app_nil_r].
  destruct (_ !! t_buf a); simpl; [|exists Stuck, []; by rewrite app_nil_r].
  destruct (_ !! t_buf b); simpl; [|exists Stuck, []; by rewrite app_nil_r].
  by eexists (Ok _), [_].
Qed.

Lemma insert_snoc (base : list (list Q)) (x y : list Q) :
  <[length base := y]> (base ++ [x]) = base ++ [y].
Proof. rewrite insert_app_r_alt by lia. by rewrite Nat.sub_diag. Qed.

Lemma lookup_snoc (base : list (list Q)) (x : list Q) :
  (base ++ [x]) !! length base = Some x.
Proof. by rewrite lookup_app_r, Nat.sub_diag. Qed.

Lemma thin_ok (delta : Tensor) (p : Q) (u : nat -> Q) (w : World) (d : list Q) :
  mem w !! t_buf delta = Some d -> length d = numel (t_shape delta) -> valid_prob p ->
  exists r m',
    thin delta p u w = (Ok r, {| mem := m'; grow_calls := grow_calls w |}) /\
    m' !! t_buf r = Some (thin_data p u d) /\
    t_shape r = t_shape delta /\ t_dtype r = t_dtype delta /\
    (t_buf r = t_buf delta \/ t_buf r = length (mem w)) /\
    (length (mem w) <= length m')%nat /\
    (forall l, l <> t_buf delta -> (l < length (mem w))%nat -> m' !! l = mem w !! l).
Proof.
  intros Hd Hlen [Hp0 Hp1].
  unfold thin, F_dropout, setitem_nonzero, bind, load, alloc, store, ret, raise.
  rewrite Hp0, Hp1. simpl.
  unfold thin_data, dropout_data, binarize.
  destruct (Qeq_bool p 0) eqn:E0; simpl.
  { rewrite Hd. eexists delta, _. split; [reflexivity|]. simpl.
    pose proof (lookup_lt_Some _ _ _ Hd) as Hlt.
    rewrite list_lookup_insert_eq by done.
    rewrite length_insert. repeat split; auto.
    intros l Hl _. by rewrite list_lookup_insert_ne. }
  destruct (numel (t_shape delta) =? 0)%nat eqn:En; simpl.
  { apply Nat.eqb_eq in En. rewrite En in Hlen. destruct d; [|done].
    rewrite Hd. eexists delta, _. split; [reflexivity|]. simpl.
    pose proof (lookup_lt_Some _ _ _ Hd) as Hlt.
    rewrite list_lookup_insert_eq by done.
    rewrite length_insert. destruct (Qeq_bool p 1); repeat split; auto.
    all: intros l Hl _; by rewrite list_lookup_insert_ne. }
  rewrite Hd. simpl. rewrite lookup_snoc. simpl. rewrite insert_snoc.
  eexists _, _. split; [reflexivity|]. simpl. rewrite lookup_snoc, length_app. simpl.
  repeat split; auto; try lia.
  intros l _ Hl. by rewrite lookup_app_l.
Qed.

(** Whatever its outcome, [thin] keeps every buffer below its argument's. *)
Lemma thin_frame (delta : Tensor) (p : Q) (u : nat -> Q) (w : World) (base : list (list Q)) :
  base `prefix_of` mem w -> (length base <= t_buf delta)%nat ->
  exists o m',
    thin delta p u w = (o, {| mem := m'; grow_calls := grow_calls w |}) /\
    base `prefix_of` m' /\ (length (mem w) <= length m')%nat /\
    match o with Ok r => (length base <= t_buf r)%nat | _ => True end.
Proof.
  intros Hb Hlt. pose proof (prefix_length _ _ Hb) as Hbl.
  unfold thin, F_dropout, setitem_nonzero, bind, load, alloc, store, ret, raise, stuck.
  destruct w as [m g]. simpl in *.
  destruct (negb (Qle_bool 0 p) || negb (Qle_bool p 1)); [by eexists _, _|].
  destruct (Qeq_bool p 0 || (numel (t_shape delta) =? 0)%nat); simpl.
  { destruct (_ !! t_buf delta); simpl; [|by eexists _, _].
    eexists (Ok _), _. split; [reflexivity|]. rewrite length_insert.
    repeat split; auto. by apply prefix_insert_ge. }
  destruct (_ !! t_buf delta); simpl; [|by eexists _, _].
  rewrite lookup_snoc. simpl. rewrite insert_snoc.
  eexists (Ok _), _. split; [reflexivity|]. simpl. rewrite length_app. simpl.
  repeat split; auto; try lia. by apply prefix_snoc.
Qed.

(** ** The values left by the thinner *)

Lemma revealed_binarize_q_mul (x k : Q) : revealed (binarize (q_mul x k)) -> revealed x.
Proof.
  unfold revealed. intros H. destruct (nonzero x) eqn:E; [done|].
  apply nonzero_false in E.
  assert (Hz : q_mul x k = 0%Q) by (apply Qred_zero; rewrite E; ring).
  by rewrite Hz in H.
Qed.

Lemma revealed_binarize (x : Q) : revealed (binarize x) -> revealed x.
Proof.
  unfold revealed, binarize. destruct (nonzero x) eqn:E; [done|]. by rewrite E.
Qed.

Lemma binarize_binary (x : Q) : binary x -> binarize x = x.
Proof. by intros [->| ->]. Qed.

Lemma dropout_noise_length (p : Q) (u : nat -> Q) (n : nat) :
  length (dropout_noise p u n) = n.
Proof. unfold dropout_noise. by rewrite length_fmap, length_seq. Qed.

Lemma thin_data_length (p : Q) (u : nat -> Q) (d : list Q) :
  length (thin_data p u d) = length d.
Proof.
  unfold thin_data, dropout_data. rewrite length_fmap.
  repeat case_match; rewrite ?length_fmap, ?length_zip_with, ?dropout_noise_length; lia.
Qed.

Lemma thin_data_subset (p : Q) (u : nat -> Q) (d : list Q) :
  subset (thin_data p u d) d.
Proof.
  unfold subset. apply Forall2_same_length_lookup_2; [apply thin_data_length|].
  intros j y x Hy Hx. unfold thin_data, dropout_data in Hy.
  rewrite list_lookup_fmap in Hy.
  destruct (Qeq_bool p 0); [|destruct (Qeq_bool p 1)].
  - rewrite Hx in Hy. injection Hy as <-. apply revealed_binarize.
  - rewrite list_lookup_fmap, Hx in Hy. injection Hy as <-.
    apply revealed_binarize_q_mul.
  - rewrite lookup_zip_with, Hx in Hy. simpl in Hy.
    destruct (dropout_noise p u (length d) !! j) as [k|]; [|done].
    injection Hy as <-. apply revealed_binarize_q_mul.
Qed.

Lemma thin_data_binary (p : Q) (u : nat -> Q) (d : list Q) :
  Forall binary d -> Forall binary (thin_data p u d).
Proof.
  intros Hd. apply Forall_lookup_2. intros j y Hy.
  unfold thin_data, dropout_data in Hy. rewrite list_lookup_fmap in Hy.
  assert (Hk : forall x k, binary x -> binary (binarize (q_mul x k))).
  { intros x k Hx. destruct (binarize_q_mul_binary x k Hx) as [->|[-> _]];
      by (left + right). }
  destruct (Qeq_bool p 0); [|destruct (Qeq_bool p 1)].
  - destruct (d !! j) as [x|] eqn:Hx; [|done]. injection Hy as <-.
    rewrite binarize_binary; by eapply Forall_lookup_1.
  - rewrite list_lookup_fmap in Hy.
    destruct (d !! j) as [x|] eqn:Hx; [|done]. injection Hy as <-.
    apply Hk. by eapply Forall_lookup_1.
  - rewrite lookup_zip_with in Hy.
    destruct (d !! j) as [x|] eqn:Hx; [|done]. simpl in Hy.
    destruct (dropout_noise p u (length d) !! j) as [k|]; [|done].
    injection Hy as <-. apply Hk. by eapply Forall_lookup_1.
Qed.

Lemma thin_data_keep_all (p : Q) (u : nat -> Q) (d : list Q) :
  Qeq_bool p 0 = true -> Forall binary d -> thin_data p u d = d.
Proof.
  intros Hp Hd. unfold thin_data, dropout_data. rewrite Hp.
  induction Hd as [|x l Hx _ IH]; simpl; [done|].
  rewrite binarize_binary by done. f_equal. apply IH.
Qed.

Lemma thin_data_drop_all (p : Q) (u : nat -> Q) (d : list Q) :
  Qeq_bool p 1 = true -> thin_data p u d = replicate (length d) 0%Q.
Proof.
  intros Hp. unfold thin_data, dropout_data.
  assert (Qeq_bool p 0 = false) as ->.
  { apply Qeq_bool_iff in Hp. destruct (Qeq_bool p 0) eqn:E; [|done].
    apply Qeq_bool_iff in E. rewrite E in Hp. done. }
  rewrite Hp. induction d as [|x l IH]; simpl; [done|].
  rewrite q_mul_0_r. by f_equal.
Qed.

(** ** [reveal], [grow] and [update] step by step *)

Lemma reveal_frame (p : Q) (u : nat -> Q) (s : State) :
  exists o w',
    reveal p u s = (o, {| self := self s; world := w' |}) /\
    keeps (world s) w' /\
    match o with Ok r => (length (mem (world s)) <= t_buf r)%nat | _ => True end.
Proof.
  unfold reveal, bind, getattr, lift, tensor_sub, tensor_add. simpl.
  destruct (tensor_binop_frame q_sub (new_mask (self s)) (old_mask (self s)) (world s))
    as (o1 & k1 & E1 & H1).
  rewrite E1. destruct o1 as [delta| |]; simpl.
  2,3: eexists _, _; split; [reflexivity|]; split; [|done];
       split; [by apply prefix_app_r|done].
  destruct H1 as [Hbuf Hlen].
  destruct (thin_frame delta p u
              {| mem := mem (world s) ++ k1; grow_calls := grow_calls (world s) |}
              (mem (world s))) as (o2 & m2 & E2 & Hpre & Hl & H2).
  { by apply prefix_app_r. }
  { lia. }
  simpl in *. rewrite E2. destruct o2 as [mask_add| |]; simpl.
  2,3: eexists _, _; split; [reflexivity|]; by split.
  destruct (tensor_binop_frame q_add (old_mask (self s)) mask_add
              {| mem := m2; grow_calls := grow_calls (world s) |})
    as (o3 & k3 & E3 & H3).
  simpl in *. rewrite E3.
  eexists _, _. split; [reflexivity|]. split.
  - split; [by apply prefix_app_r|done].
  - destruct o3 as [r| |]; [|done..]. destruct H3 as [-> _].
    rewrite length_app in Hl. lia.
Qed.

Lemma reveal_ok (p : Q) (u : nat -> Q) (s : State) (d_old d_new : list Q) :
  mem (world s) !! t_buf (old_mask (self s)) = Some d_old ->
  mem (world s) !! t_buf (new_mask (self s)) = Some d_new ->
  t_shape (old_mask (self s)) = t_shape (new_mask (self s)) ->
  length d_old = numel (t_shape (new_mask (self s))) ->
  length d_new = numel (t_shape (new_mask (self s))) ->
  valid_prob p ->
  exists r w',
    reveal p u s = (Ok r, {| self := self s; world := w' |}) /\
    mem w' !! t_buf r
      = Some (zip_with q_add d_old (thin_data p u (zip_with q_sub d_new d_old))) /\
    t_shape r = t_shape (old_mask (self s)).
Proof.
  intros Ho Hn Hsh Hlo Hln Hp.
  unfold reveal, bind, getattr, lift, tensor_sub, tensor_add. simpl.
  rewrite (tensor_binop_ok q_sub _ _ _ d_new d_old) by done. simpl.
  set (delta := {| t_dtype := _; t_shape := t_shape (new_mask (self s));
                   t_buf := length (mem (world s)) |}).
  set (w1 := {| mem := mem (world s) ++ [zip_with q_sub d_new d_old];
                grow_calls := grow_calls (world s) |}).
  destruct (thin_ok delta p u w1 (zip_with q_sub d_new d_old))
    as (r2 & m2 & E2 & Hr2 & Hs2 & _ & _ & _ & Hkeep); [| |done|].
  { apply lookup_snoc. }
  { simpl. rewrite length_zip_with. lia. }
  rewrite E2. simpl.
  pose proof (lookup_lt_Some _ _ _ Ho) as Hlt.
  rewrite (tensor_binop_ok q_add _ _ _ d_old
             (thin_data p u (zip_with q_sub d_new d_old))); simpl.
  - eexists _, _. split; [reflexivity|]. simpl. split; [|done].
    apply lookup_snoc.
  - by rewrite Hs2.
  - rewrite Hkeep; simpl; [by rewrite lookup_app_l|lia|rewrite length_app; simpl; lia].
  - done.
Qed.

Lemma reveal_invalid (p : Q) (u : nat -> Q) (s : State) :
  negb (Qle_bool 0 p) || negb (Qle_bool p 1) = true ->
  forall r s', reveal p u s <> (Ok r, s').
Proof.
  intros Hp r s'.
  unfold reveal, bind, getattr, lift, tensor_sub. simpl.
  destruct (tensor_binop q_sub _ _ _) as [[delta| |] w1]; simpl; [|done..].
  unfold thin, F_dropout, bind, raise. by rewrite Hp.
Qed.

(** The two ways the growth step can end. *)
Lemma grow_cases (t : Z) (s : State) :
  (exists d n h w',
     mem (world s) !! t_buf (new_mask (self s)) = Some d /\
     stack (t_shape (new_mask (self s))) n h w' /\
     grow t s
     = (Ok tt,
        {| self := {| threshold := threshold (self s); step := step (self s);
                      iter := t;
                      new_mask := {| t_dtype := t_dtype (new_mask (self s));
                                     t_shape := t_shape (new_mask (self s));
                                     t_buf := S (length (mem (world s))) |};
                      old_mask := new_mask (self s) |};
           world := {| mem := mem (world s) ++ [d; dilate_data n h w' 1 d];
                       grow_calls := S (grow_calls (world s)) |} |})) \/
  (exists o k,
     grow t s
     = (o, {| self := set_old_mask (new_mask (self s)) (self s);
              world := {| mem := mem (world s) ++ k;
                          grow_calls := S (grow_calls (world s)) |} |}) /\
     o <> Ok tt).
Proof.
  unfold grow, bind, getattr, setattr, lift. simpl.
  destruct (dilate_mask_cases (new_mask (self s)) 1 (world s))
    as [(d & n & h & w' & Hd & Hp)|(o & k & E & Hno)].
  - left. exists d, n, h, w'. split; [done|]. split; [done|].
    by rewrite (dilate_mask_ok _ _ _ _ _ _ _ Hd Hp).
  - right. rewrite E. destruct o as [r| |]; [by destruct (Hno r)| |].
    + by eexists (Raise _), k.
    + by eexists Stuck, k.
Qed.

Lemma update_warmup (iiter : Z) (u : nat -> Q) (s : State) :
  iiter <= threshold (self s) -> update iiter u s = (Ok (old_mask (self s)), s).
Proof.
  intros H. unfold update, bind, getattr, ret. simpl.
  rewrite Z.gtb_ltb. by destruct (Z.ltb_spec (threshold (self s)) iiter); [lia|].
Qed.

Lemma update_div0 (iiter : Z) (u : nat -> Q) (s : State) :
  threshold (self s) < iiter -> step (self s) = 0 ->
  update iiter u s = (Raise ZeroDivisionError, s).
Proof.
  intros H H0. unfold update, bind, getattr, ret, py_floordiv, raise. simpl.
  rewrite Z.gtb_ltb. destruct (Z.ltb_spec (threshold (self s)) iiter); [|lia].
  by rewrite H0.
Qed.

(** The statements after the growth step either raise, leaving the state
    as it was, or reach the thinner with the probability [drop_prob]. *)
Lemma drop_and_add_cases (iiter : Z) (u : nat -> Q) (s : State) :
  (step (self s) <> 0 /\ converts (step (self s)) /\
   converts (iter_drop (threshold (self s)) (step (self s)) iiter + 1) /\
   drop_and_add iiter u s
   = reveal (drop_prob (step (self s))
               (iter_drop (threshold (self s)) (step (self s)) iiter)) u s) \/
  (exists e, drop_and_add iiter u s = (Raise e, s)).
Proof.
  unfold drop_and_add, bind, getattr, py_mod, py_truediv, ret, raise. simpl.
  destruct (Z.eqb_spec (step (self s)) 0) as [H0|H0]; [right; by eexists|].
  destruct (py_float_cases (step (self s)) s) as [[C1 E1]|E1]; rewrite E1;
    [|right; by eexists].
  rewrite double_int_nonzero by done.
  destruct (py_float_cases ((iiter - threshold (self s)) mod step (self s) + 1) s)
    as [[C2 E2]|E2]; rewrite E2; [|right; by eexists].
  left. by repeat split.
Qed.

Lemma drop_and_add_run (iiter : Z) (u : nat -> Q) (s : State) :
  step (self s) <> 0 -> converts (step (self s)) ->
  converts (iter_drop (threshold (self s)) (step (self s)) iiter + 1) ->
  drop_and_add iiter u s
  = reveal (drop_prob (step (self s)) (iter_drop (threshold (self s)) (step (self s)) iiter))
      u s.
Proof.
  intros H0 C1 C2.
  unfold drop_and_add, bind, getattr, py_mod, py_truediv, ret, raise. simpl.
  apply Z.eqb_neq in H0 as H0'. rewrite H0'.
  rewrite (py_float_ok _ s C1), double_int_nonzero by done.
  unfold iter_drop in C2. by rewrite (py_float_ok _ s C2).
Qed.

Lemma drop_and_add_frame (iiter : Z) (u : nat -> Q) (s : State) :
  exists o w',
    drop_and_add iiter u s = (o, {| self := self s; world := w' |}) /\
    keeps (world s) w' /\
    match o with Ok r => (length (mem (world s)) <= t_buf r)%nat | _ => True end.
Proof.
  destruct (drop_and_add_cases iiter u s) as [(_ & _ & _ & ->)|[e ->]];
    [apply reveal_frame|].
  exists (Raise e), (world s). destruct s. simpl. split; [done|]. split; [apply keeps_refl|done].
Qed.

Lemma update_hot (iiter : Z) (u : nat -> Q) (s : State) :
  threshold (self s) < iiter -> step (self s) <> 0 ->
  update iiter u s
  = match (if target_epoch (threshold (self s)) (step (self s)) iiter >? iter (self s)
           then grow (target_epoch (threshold (self s)) (step (self s)) iiter)
           else ret tt) s with
    | (Ok _, s1) => drop_and_add iiter u s1
    | (Raise e, s1) => (Raise e, s1)
    | (Stuck, s1) => (Stuck, s1)
    end.
Proof.
  intros H H0. unfold update, bind, getattr, ret, py_floordiv. simpl.
  rewrite Z.gtb_ltb. destruct (Z.ltb_spec (threshold (self s)) iiter); [|lia].
  apply Z.eqb_neq in H0. by rewrite H0.
Qed.

(** ** The invariant of the two masks *)

Lemma subset_refl (d : list Q) : subset d d.
Proof. apply Forall_Forall2_diag, Forall_forall. auto. Qed.

Lemma numel_squeeze (shape : list nat) :
  numel (filter (fun k => k <> 1%nat) shape) = numel shape.
Proof.
  induction shape as [|k l IH]; [done|].
  rewrite filter_cons. case_decide; simpl; [by rewrite IH|].
  assert (k = 1%nat) as -> by (destruct (decide (k = 1%nat)); done).
  simpl. lia.
Qed.

Lemma stack_numel (shape : list nat) (n h w : nat) :
  stack shape n h w -> numel shape = (n * (h * w))%nat.
Proof.
  intros [[Hsq|[Hsq ->]] _]; rewrite <- numel_squeeze, Hsq; simpl; lia.
Qed.

Lemma planes_numel (shape : list nat) (n h w : nat) :
  planes shape n h w -> numel shape = (n * (h * w))%nat.
Proof. intros H. by apply stack_numel, planes_stack. Qed.

Lemma mask_inv_keeps (s : State) (o' : MaskUpdate) (w' : World) :
  mask_inv s -> keeps (world s) w' ->
  old_mask o' = old_mask (self s) -> new_mask o' = new_mask (self s) ->
  mask_inv {| self := o'; world := w' |}.
Proof.
  intros (d_old & d_new & Ho & Hn & Hrest) [Hpre _] Eo En.
  exists d_old, d_new. simpl. rewrite Eo, En.
  split; [by eapply prefix_lookup_Some|]. split; [by eapply prefix_lookup_Some|].
  done.
Qed.

Lemma grow_inv (t : Z) (s : State) : mask_inv s -> mask_inv (snd (grow t s)).
Proof.
  intros (d_old & d_new & Ho & Hn & Hsh & Hlen & Hbo & Hbn & Hsub).
  destruct (grow_cases t s) as [(d & n & h & w' & Hd & Hp & ->)|(o & k & -> & _)]; simpl.
  - rewrite Hn in Hd. injection Hd as <-.
    rewrite (stack_numel _ _ _ _ Hp) in Hlen.
    destruct (dilate_data_spec n h w' 1 d_new Hlen Hbn) as (Hl & Hb & Hs).
    exists d_new, (dilate_data n h w' 1 d_new). simpl.
    split; [by apply lookup_app_l_Some|]. split; [apply lookup_pair_snd|].
    split; [done|]. split; [by rewrite Hl, (stack_numel _ _ _ _ Hp)|]. done.
  - exists d_new, d_new. simpl.
    split; [by apply lookup_app_l_Some|]. split; [by apply lookup_app_l_Some|].
    split; [done|]. split; [done|]. split; [done|]. split; [done|].
    apply subset_refl.
Qed.

(** What the guarded growth step of [update] does to the state. *)
Lemma epoch_step_facts (t : Z) (s : State) :
  exists o1 s1,
    (if t >? iter (self s) then grow t else ret tt) s = (o1, s1) /\
    threshold (self s1) = threshold (self s) /\
    step (self s1) = step (self s) /\
    iter (self s) <= iter (self s1) /\
    (iter (self s1) = iter (self s) \/ iter (self s1) = t) /\
    (o1 = Ok tt -> iter (self s1) = Z.max (iter (self s)) t) /\
    mem (world s) `prefix_of` mem (world s1) /\
    (grow_calls (world s1) <= S (grow_calls (world s)))%nat /\
    (t <= iter (self s) -> o1 = Ok tt /\ s1 = s) /\
    (mask_inv s -> mask_inv s1) /\
    t_shape (new_mask (self s1)) = t_shape (new_mask (self s)) /\
    (o1 = Ok tt -> iter (self s) < t ->
     grow_calls (world s1) = S (grow_calls (world s))).
Proof.
  rewrite Z.gtb_ltb. destruct (Z.ltb_spec (iter (self s)) t) as [Hlt|Hge].
  - destruct (grow_cases t s) as [(d & n & h & w' & Hd & Hp & E)|(o & k & E & Hno)].
    + eexists _, _. split; [exact E|]. simpl.
      repeat split; try done; try lia; auto.
      * by apply prefix_app_r.
      * intros Hi. pose proof (grow_inv t s Hi) as H. by rewrite E in H.
    + eexists _, _. split; [exact E|]. simpl.
      repeat split; try done; try lia; auto.
      * by apply prefix_app_r.
      * intros Hi. pose proof (grow_inv t s Hi) as H. by rewrite E in H.
  - exists (Ok tt), s. unfold ret. repeat split; try done; try lia; auto.
Qed.

Lemma update_inv (iiter : Z) (u : nat -> Q) (s : State) :
  mask_inv s -> mask_inv (snd (update iiter u s)).
Proof.
  intros Hinv.
  destruct (Z.le_gt_cases iiter (threshold (self s))) as [Hle|Hgt].
  { by rewrite update_warmup. }
  destruct (Z.eq_dec (step (self s)) 0) as [H0|H0].
  { by rewrite update_div0. }
  rewrite update_hot by done.
  destruct (epoch_step_facts
              (target_epoch (threshold (self s)) (step (self s)) iiter) s)
    as (o1 & s1 & -> & _ & Hst & _ & _ & _ & _ & _ & _ & Hs1 & _).
  destruct o1 as [[]| |]; simpl; [|by apply Hs1..].
  destruct (drop_and_add_frame iiter u s1) as (o & w' & -> & Hk & _).
  simpl. apply (mask_inv_keeps s1 (self s1) w'); auto.
Qed.

Lemma run_inv (calls : list (Z * (nat -> Q))) (s : State) :
  mask_inv s -> mask_inv (run calls s).
Proof.
  revert s. induction calls as [|c calls IH]; intros s Hs; [done|].
  apply IH. by apply update_inv.
Qed.

(** What one call can do to the schedule fields and to the counters. *)
Lemma update_fields (iiter : Z) (u : nat -> Q) (s : State) :
  exists o s',
    update iiter u s = (o, s') /\
    threshold (self s') = threshold (self s) /\
    step (self s') = step (self s) /\
    iter (self s) <= iter (self s') /\
    (iter (self s') = iter (self s) \/
     (threshold (self s) < iiter /\
      iter (self s') = target_epoch (threshold (self s)) (step (self s)) iiter)) /\
    (threshold (self s) < iiter -> (exists r, o = Ok r) ->
     iter (self s')
     = Z.max (iter (self s)) (target_epoch (threshold (self s)) (step (self s)) iiter)) /\
    mem (world s) `prefix_of` mem (world s') /\
    (grow_calls (world s') <= S (grow_calls (world s)))%nat /\
    t_shape (new_mask (self s')) = t_shape (new_mask (self s)) /\
    (threshold (self s) < iiter -> (exists r, o = Ok r) ->
     iter (self s) < target_epoch (threshold (self s)) (step (self s)) iiter ->
     grow_calls (world s') = S (grow_calls (world s))).
Proof.
  destruct (Z.le_gt_cases iiter (threshold (self s))) as [Hle|Hgt].
  { rewrite update_warmup by done. eexists _, _. split; [reflexivity|].
    repeat split; try done; try lia; auto. }
  destruct (Z.eq_dec (step (self s)) 0) as [H0|H0].
  { rewrite update_div0 by done. eexists _, _. split; [reflexivity|].
    repeat split; try done; try lia; auto; by intros _ [r Hr]. }
  rewrite update_hot by done.
  set (t := target_epoch (threshold (self s)) (step (self s)) iiter).
  destruct (epoch_step_facts t s)
    as (o1 & s1 & -> & Hthr & Hst & Hle & Hit & Hmax & Hpre & Hg & _ & _ & Hsh & Hgrow).
  destruct o1 as [[]| |].
  2,3: eexists _, _; split; [reflexivity|]; repeat split; try done;
       [destruct Hit; auto|by intros _ [r Hr]|by intros _ [r Hr]].
  destruct (drop_and_add_frame iiter u s1) as (o & w' & -> & [Hk Hgc] & _).
  eexists _, _. split; [reflexivity|]. simpl.
  repeat split; try done.
  - destruct Hit; auto.
  - intros _ _. by apply Hmax.
  - by etrans.
  - lia.
  - intros _ _ Hlt. rewrite Hgc. by apply Hgrow.
Qed.

(** ** The returned mask as data *)

Lemma q_sub_binary (o n : Q) :
  binary o -> binary n -> (revealed o -> revealed n) -> binary (q_sub n o).
Proof.
  intros [->| ->] [->| ->] Hsub; try by (left + right).
  exfalso. by specialize (Hsub eq_refl).
Qed.

Lemma thin_data_lookup (p : Q) (u : nat -> Q) (d : list Q) (j : nat) (e : Q) :
  thin_data p u d !! j = Some e ->
  exists x k, d !! j = Some x /\ (binary x -> e = binarize (q_mul x k)).
Proof.
  unfold thin_data, dropout_data. rewrite list_lookup_fmap. intros He.
  destruct (Qeq_bool p 0); [|destruct (Qeq_bool p 1)].
  - destruct (d !! j) as [x|]; [|done]. injection He as <-.
    exists x, 1%Q. split; [done|]. by intros [->| ->].
  - rewrite list_lookup_fmap in He. destruct (d !! j) as [x|]; [|done].
    injection He as <-. by exists x, 0%Q.
  - rewrite lookup_zip_with in He. destruct (d !! j) as [x|]; [|done]. simpl in He.
    destruct (dropout_noise p u (length d) !! j) as [k|]; [|done].
    injection He as <-. by exists x, k.
Qed.

Lemma reveal_data_lookup (p : Q) (u : nat -> Q) (d_old d_new : list Q) (j : nat) (y : Q) :
  Forall binary d_old -> Forall binary d_new -> subset d_old d_new ->
  zip_with q_add d_old (thin_data p u (zip_with q_sub d_new d_old)) !! j = Some y ->
  exists o n k,
    d_old !! j = Some o /\ d_new !! j = Some n /\ y = reveal_sample o n k /\
    binary o /\ binary n /\ (revealed o -> revealed n).
Proof.
  intros Hbo Hbn Hsub Hy. rewrite lookup_zip_with in Hy.
  destruct (d_old !! j) as [o|] eqn:Ho; [|done]. simpl in Hy.
  destruct (thin_data _ _ _ !! j) as [e|] eqn:He; [|done]. injection Hy as <-.
  destruct (thin_data_lookup _ _ _ _ _ He) as (x & k & Hx & Hek).
  rewrite lookup_zip_with in Hx.
  destruct (d_new !! j) as [n|] eqn:Hn; [|done]. simpl in Hx. rewrite Ho in Hx.
  injection Hx as <-.
  pose proof (Forall_lookup_1 _ _ _ _ Hbo Ho) as Bo.
  pose proof (Forall_lookup_1 _ _ _ _ Hbn Hn) as Bn.
  pose proof (Forall2_lookup_lr _ _ _ _ _ _ Hsub Ho Hn) as Hon.
  exists o, n, k. repeat split; try done.
  unfold reveal_sample. f_equal. apply Hek. by apply q_sub_binary.
Qed.

Lemma reveal_data_length (p : Q) (u : nat -> Q) (d_old d_new : list Q) :
  length d_old = length d_new ->
  length (zip_with q_add d_old (thin_data p u (zip_with q_sub d_new d_old))) = length d_old.
Proof.
  intros H. rewrite length_zip_with, thin_data_length, length_zip_with. lia.
Qed.

Lemma reveal_data_between (p : Q) (u : nat -> Q) (d_old d_new : list Q) :
  Forall binary d_old -> Forall binary d_new -> subset d_old d_new ->
  let d := zip_with q_add d_old (thin_data p u (zip_with q_sub d_new d_old)) in
  Forall binary d /\ subset d_old d /\ subset d d_new.
Proof.
  intros Hbo Hbn Hsub d.
  pose proof (Forall2_length _ _ _ Hsub) as Hlen.
  pose proof (reveal_data_length p u d_old d_new Hlen) as Hd.
  split; [|split].
  - apply Forall_lookup_2. intros j y Hy.
    destruct (reveal_data_lookup _ _ _ _ _ _ Hbo Hbn Hsub Hy)
      as (o & n & k & _ & _ & -> & Bo & Bn & Hon).
    by apply reveal_sample_between.
  - apply Forall2_same_length_lookup_2; [done|]. intros j o y Ho Hy.
    destruct (reveal_data_lookup _ _ _ _ _ _ Hbo Hbn Hsub Hy)
      as (o' & n & k & Ho' & _ & -> & Bo & Bn & Hon).
    rewrite Ho in Ho'. injection Ho' as <-.
    by apply reveal_sample_between.
  - apply Forall2_same_length_lookup_2; [unfold d; lia|]. intros j y n Hy Hn.
    destruct (reveal_data_lookup _ _ _ _ _ _ Hbo Hbn Hsub Hy)
      as (o & n' & k & _ & Hn' & -> & Bo & Bn & Hon).
    rewrite Hn in Hn'. injection Hn' as <-.
    by apply reveal_sample_between.
Qed.

(** With a dropout probability of 0 every newly grown sample survives. *)
Lemma reveal_data_full (p : Q) (u : nat -> Q) (d_old d_new : list Q) :
  Qeq_bool p 0 = true ->
  Forall binary d_old -> Forall binary d_new -> subset d_old d_new ->
  zip_with q_add d_old (thin_data p u (zip_with q_sub d_new d_old)) = d_new.
Proof.
  intros Hp Hbo Hbn Hsub.
  rewrite thin_data_keep_all; [|done|].
  - revert Hbo Hbn. induction Hsub as [|o n lo ln Hon _ IH]; intros Hbo Hbn; [done|].
    apply Forall_cons in Hbo as [Bo Hbo]. apply Forall_cons in Hbn as [Bn Hbn].
    simpl. f_equal; [|by apply IH].
    by destruct Bo as [->| ->], Bn as [->| ->].
  - revert Hbo Hbn. induction Hsub as [|o n lo ln Hon _ IH]; intros Hbo Hbn;
      [constructor|].
    apply Forall_cons in Hbo as [Bo Hbo]. apply Forall_cons in Hbn as [Bn Hbn].
    simpl. constructor; [by apply q_sub_binary|by apply IH].
Qed.

(** ** The dropout probability of a positive step *)

(** The reciprocal of a positive step, as a double. *)
Lemma recip_bounds (n : Q) :
  (1 <= n)%Q -> (n <= pow2 1022)%Q ->
  (0 <= f64_div 1 n)%Q /\ (f64_div 1 n * n <= 1 + pow2 (-53))%Q.
Proof.
  intros H1 H2. unfold f64_div.
  assert (Hn : (0 < n)%Q) by lra.
  assert (Hinv : (0 < 1 / n)%Q).
  { apply Qlt_shift_div_l; [exact Hn|]. lra. }
  split; [apply double_nonneg; lra|].
  assert (Hlow : (pow2 (-1022) <= 1 / n)%Q).
  { apply Qle_shift_div_l; [exact Hn|].
    apply Qle_trans with (pow2 (-1022) * pow2 1022)%Q.
    - apply Qmult_le_l; [apply pow2_pos|exact H2].
    - rewrite <- pow2_add. by vm_compute. }
  pose proof (double_upper (1 / n) Hlow) as Hu.
  apply Qle_trans with (1 / n * (1 + pow2 (-53)) * n)%Q.
  - apply Qmult_le_compat_r; [exact Hu|lra].
  - assert (E : (1 / n * (1 + pow2 (-53)) * n == 1 + pow2 (-53))%Q).
    { field. intros E. rewrite E in Hn. discriminate Hn. }
    rewrite E. apply Qle_refl.
Qed.

Lemma drop_prob_valid (st k : Z) :
  0 < st <= 2 ^ 1022 -> 0 <= k < st -> valid_prob (drop_prob st k).
Proof.
  intros Hst Hk. unfold drop_prob, f64_sub, f64_mul.
  destruct (double_int_bounds st ltac:(lia)) as [N1 N2].
  set (n := double (inject_Z st)) in *.
  destruct (recip_bounds n N1 N2) as [R0 R1].
  set (r := f64_div 1 n) in *.
  assert (K1 : (1 <= double (inject_Z (k + 1)))%Q).
  { apply double_ge_1. change 1%Q with (inject_Z 1). rewrite <- Zle_Qle. lia. }
  assert (K2 : (double (inject_Z (k + 1)) <= n)%Q).
  { apply double_mono. rewrite <- Zle_Qle. lia. }
  set (k' := double (inject_Z (k + 1))) in *.
  assert (Q0 : (0 <= double (r * k'))%Q).
  { apply double_nonneg. apply Qmult_le_0_compat; lra. }
  assert (Q1 : (double (r * k') <= 1)%Q).
  { apply double_le_1. apply Qle_trans with (r * n)%Q; [|exact R1].
    rewrite (Qmult_comm r k'), (Qmult_comm r n).
    by apply Qmult_le_compat_r. }
  split; apply Qle_bool_iff.
  - apply double_nonneg. lra.
  - apply Qle_trans with (double 1); [apply double_mono; lra|].
    rewrite double_1. apply Qle_refl.
Qed.

Lemma drop_prob_mono (st k : Z) :
  0 < st -> (drop_prob st (k + 1) <= drop_prob st k)%Q.
Proof.
  intros Hst. unfold drop_prob, f64_sub, f64_mul.
  assert (N1 : (1 <= double (inject_Z st))%Q).
  { apply double_ge_1. change 1%Q with (inject_Z 1). rewrite <- Zle_Qle. lia. }
  set (n := double (inject_Z st)) in *.
  assert (R0 : (0 <= f64_div 1 n)%Q).
  { apply double_nonneg. apply Qle_shift_div_l; lra. }
  set (r := f64_div 1 n) in *.
  assert (K : (double (inject_Z (k + 1)) <= double (inject_Z (k + 1 + 1)))%Q).
  { apply double_mono. rewrite <- Zle_Qle. lia. }
  assert (M : (double (r * double (inject_Z (k + 1)))
               <= double (r * double (inject_Z (k + 1 + 1))))%Q).
  { apply double_mono.
    rewrite (Qmult_comm r (double (inject_Z (k + 1)))),
            (Qmult_comm r (double (inject_Z (k + 1 + 1)))).
    by apply Qmult_le_compat_r. }
  apply double_mono. lra.
Qed.

Lemma double_opp (x : Q) : (double (- x) == - double x)%Q.
Proof.
  unfold double, round_float. rewrite !Qred_correct.
  destruct (Qcompare_spec x 0) as [E|E|E]; destruct (Qcompare_spec (- x) 0) as [E'|E'|E'];
    try (exfalso; lra).
  - reflexivity.
  - lra.
  - assert (H1 : (round_pos 53 (-1074) (- - x) <= round_pos 53 (-1074) x)%Q).
    { apply round_pos_mono; [lia|lra|lra]. }
    assert (H2 : (round_pos 53 (-1074) x <= round_pos 53 (-1074) (- - x))%Q).
    { apply round_pos_mono; [lia|lra|lra]. }
    lra.
Qed.

(** For a negative step of moderate size the first probability of an
    epoch is above 1. *)
Lemma drop_prob_negative_step (st : Z) :
  - 2 ^ 52 <= st < 0 -> (1 < drop_prob st 0)%Q.
Proof.
  intros Hst. unfold drop_prob, f64_sub, f64_mul, f64_div.
  change (double (inject_Z (0 + 1))) with (double 1). rewrite double_1.
  rewrite (double_ext (double (1 / double (inject_Z st)) * 1)
             (double (1 / double (inject_Z st)))) by ring.
  assert (N1 : (double (inject_Z st) <= -1)%Q).
  { change (-1)%Q with (double (inject_Z (-1))). apply double_mono.
    rewrite <- Zle_Qle. lia. }
  assert (N2 : (- pow2 52 <= double (inject_Z st))%Q).
  { assert (E : double (inject_Z (- 2 ^ 52)) == - pow2 52) by (by vm_compute).
    rewrite <- E. apply double_mono. rewrite <- Zle_Qle. lia. }
  set (n := double (inject_Z st)) in *.
  assert (Hinv : (1 / n <= - pow2 (-52))%Q).
  { assert (Hn : (0 < - n)%Q) by lra.
    assert (H : (pow2 (-52) <= 1 / - n)%Q).
    { apply Qle_shift_div_l; [exact Hn|].
      apply Qle_trans with (pow2 (-52) * pow2 52)%Q.
      - apply Qmult_le_l; [apply pow2_pos|lra].
      - rewrite <- pow2_add. by vm_compute. }
    assert (E : (1 / n == - (1 / - n))%Q).
    { field. intros E. rewrite E in Hn. discriminate Hn. }
    rewrite E. lra. }
  assert (R : (double (1 / n) <= - pow2 (-52))%Q).
  { assert (E : double (- pow2 (-52)) == - pow2 (-52)) by (by vm_compute).
    rewrite <- E. by apply double_mono. }
  assert (R' : (double (double (1 / n)) <= - pow2 (-52))%Q).
  { assert (E : double (- pow2 (-52)) == - pow2 (-52)) by (by vm_compute).
    rewrite <- E. by apply double_mono. }
  assert (P : (double (1 + pow2 (-52)) <= double (1 - double (double (1 / n))))%Q).
  { apply double_mono. lra. }
  assert (E : double (1 + pow2 (-52)) == 1 + pow2 (-52)) by (by vm_compute).
  rewrite E in P. pose proof (pow2_pos (-52)). lra.
Qed.

(** ** A call past the warm-up, followed to its result *)

Lemma update_ok_content (iiter : Z) (u : nat -> Q) (s : State) (r : Tensor) (s' : State) :
  mask_inv s -> threshold (self s) < iiter ->
  update iiter u s = (Ok r, s') ->
  exists d_old d_new,
    mem (world s') !! t_buf (old_mask (self s')) = Some d_old /\
    mem (world s') !! t_buf (new_mask (self s')) = Some d_new /\
    Forall binary d_old /\ Forall binary d_new /\ subset d_old d_new /\
    mem (world s') !! t_buf r
    = Some (zip_with q_add d_old
              (thin_data
                 (drop_prob (step (self s))
                    (iter_drop (threshold (self s)) (step (self s)) iiter))
                 u (zip_with q_sub d_new d_old))) /\
    t_shape r = t_shape (old_mask (self s')).
Proof.
  intros Hinv Hgt E.
  destruct (Z.eq_dec (step (self s)) 0) as [H0|H0].
  { rewrite update_div0 in E by done. discriminate E. }
  rewrite update_hot in E by done.
  destruct (epoch_step_facts
              (target_epoch (threshold (self s)) (step (self s)) iiter) s)
    as (o1 & s1 & E1 & Hthr & Hst & _ & _ & _ & _ & _ & _ & Hs1 & _).
  rewrite E1 in E. destruct o1 as [[]| |]; [|discriminate E..].
  destruct (drop_and_add_cases iiter u s1) as [(_ & _ & _ & Er)|[e Er]];
    rewrite Er in E; [|discriminate E].
  rewrite Hthr, Hst in E.
  set (p := drop_prob (step (self s))
              (iter_drop (threshold (self s)) (step (self s)) iiter)) in *.
  destruct (negb (Qle_bool 0 p) || negb (Qle_bool p 1)) eqn:Ev.
  { by destruct (reveal_invalid p u s1 Ev r s'). }
  apply orb_false_iff in Ev as [Ev0 Ev1]. apply negb_false_iff in Ev0, Ev1.
  destruct (Hs1 Hinv) as (d_old & d_new & Ho & Hn & Hsh & Hlen & Hbo & Hbn & Hsub).
  pose proof (Forall2_length _ _ _ Hsub) as Hl.
  destruct (reveal_ok p u s1 d_old d_new Ho Hn Hsh ltac:(lia) Hlen (conj Ev0 Ev1))
    as (r0 & w' & E0 & Hr0 & Hs0).
  destruct (reveal_frame p u s1) as (o & w'' & E' & [Hk _] & _).
  rewrite E0 in E, E'. injection E as <- <-. injection E' as _ <-.
  exists d_old, d_new. simpl.
  split; [by eapply prefix_lookup_Some|]. split; [by eapply prefix_lookup_Some|].
  done.
Qed.

Lemma grow_ok (t : Z) (s : State) (d : list Q) (n h w1 : nat) :
  mem (world s) !! t_buf (new_mask (self s)) = Some d ->
  stack (t_shape (new_mask (self s))) n h w1 ->
  exists s1, grow t s = (Ok tt, s1).
Proof.
  intros Hd Hp. unfold grow, bind, getattr, setattr, lift. simpl.
  rewrite (dilate_mask_ok _ _ _ _ _ _ _ Hd Hp). by eexists.
Qed.

Lemma drop_and_add_total (iiter : Z) (u : nat -> Q) (s : State) :
  mask_inv s -> 0 < step (self s) <= 2 ^ 1022 ->
  exists r s', drop_and_add iiter u s = (Ok r, s').
Proof.
  intros (d_old & d_new & Ho & Hn & Hsh & Hlen & Hbo & Hbn & Hsub) Hst.
  pose proof (Z.mod_pos_bound (iiter - threshold (self s)) (step (self s)) ltac:(lia))
    as Hmod.
  rewrite drop_and_add_run; [|lia|apply converts_small; lia
                             |apply converts_small; unfold iter_drop; lia].
  pose proof (Forall2_length _ _ _ Hsub) as Hl.
  destruct (reveal_ok
              (drop_prob (step (self s))
                 (iter_drop (threshold (self s)) (step (self s)) iiter))
              u s d_old d_new Ho Hn Hsh ltac:(lia) Hlen)
    as (r & w' & E & _).
  { by apply drop_prob_valid. }
  by eexists _, _.
Qed.

Lemma update_total (iiter : Z) (u : nat -> Q) (s : State) (n h w1 : nat) :
  mask_inv s -> stack (t_shape (new_mask (self s))) n h w1 ->
  0 < step (self s) <= 2 ^ 1022 -> threshold (self s) < iiter ->
  exists r s', update iiter u s = (Ok r, s').
Proof.
  intros Hinv Hp Hst Hgt. rewrite update_hot by lia.
  set (t := target_epoch (threshold (self s)) (step (self s)) iiter).
  destruct (epoch_step_facts t s)
    as (o1 & s1 & E1 & _ & Hst1 & _ & _ & _ & _ & _ & _ & Hs1 & _).
  assert (o1 = Ok tt) as ->.
  { destruct (Z.gtb_spec t (iter (self s))) as [Hlt|Hge].
    - destruct Hinv as (d_old & d_new & _ & Hn & _).
      destruct (grow_ok t s d_new n h w1 Hn Hp) as [s2 E2].
      rewrite E2 in E1. by injection E1 as <- _.
    - by injection E1 as <- _. }
  rewrite E1. apply drop_and_add_total; [by apply Hs1|lia].
Qed.

Lemma update_inside (s : State) (iiter : Z) (u : nat -> Q) :
  iiter <= threshold (self s) \/
  target_epoch (threshold (self s)) (step (self s)) iiter <= iter (self s) ->
  exists o s',
    update iiter u s = (o, s') /\ self s' = self s /\
    grow_calls (world s') = grow_calls (world s) /\
    mem (world s) `prefix_of` mem (world s') /\
    match o with
    | Ok r => (iiter <= threshold (self s) /\ r = old_mask (self s)) \/
              (threshold (self s) < iiter /\ (length (mem (world s)) <= t_buf r)%nat)
    | _ => True
    end.
Proof.
  intros Hin.
  destruct (Z.le_gt_cases iiter (threshold (self s))) as [Hle|Hgt].
  { rewrite update_warmup by done. eexists _, _. split; [reflexivity|].
    repeat split; try done. by left. }
  destruct Hin as [Hle|Hin]; [lia|].
  destruct (Z.eq_dec (step (self s)) 0) as [H0|H0].
  { rewrite update_div0 by done. eexists _, _. split; [reflexivity|]. by repeat split. }
  rewrite update_hot by done.
  destruct (epoch_step_facts
              (target_epoch (threshold (self s)) (step (self s)) iiter) s)
    as (o1 & s1 & -> & _ & _ & _ & _ & _ & _ & _ & Hsame & _).
  destruct (Hsame Hin) as [-> ->].
  destruct (drop_and_add_frame iiter u s) as (o & w' & -> & [Hk Hgc] & Hfresh).
  eexists _, _. split; [reflexivity|]. simpl. repeat split; try done.
  destruct o; [|done..]. right. by split.
Qed.

Lemma reveal_value_error (p : Q) (u : nat -> Q) (s : State) (d_old d_new : list Q) :
  mem (world s) !! t_buf (old_mask (self s)) = Some d_old ->
  mem (world s) !! t_buf (new_mask (self s)) = Some d_new ->
  t_shape (old_mask (self s)) = t_shape (new_mask (self s)) ->
  negb (Qle_bool 0 p) || negb (Qle_bool p 1) = true ->
  exists w', reveal p u s = (Raise ValueError, {| self := self s; world := w' |}).
Proof.
  intros Ho Hn Hsh Hp.
  unfold reveal, bind, getattr, lift, tensor_sub. simpl.
  rewrite (tensor_binop_ok q_sub _ _ _ d_new d_old) by done. simpl.
  unfold thin, F_dropout, bind, raise. rewrite Hp. by eexists.
Qed.

(** ** Every call on a stack of planes or of lines is covered *)

Lemma reveal_not_stuck (p : Q) (u : nat -> Q) (s : State) :
  mask_inv s -> fst (reveal p u s) <> Stuck.
Proof.
  intros (d_old & d_new & Ho & Hn & Hsh & Hlen & Hbo & Hbn & Hsub).
  pose proof (Forall2_length _ _ _ Hsub) as Hl.
  destruct (negb (Qle_bool 0 p) || negb (Qle_bool p 1)) eqn:Ev.
  - destruct (reveal_value_error p u s d_old d_new Ho Hn Hsh Ev) as (w' & ->). done.
  - apply orb_false_iff in Ev as [Ev0 Ev1]. apply negb_false_iff in Ev0, Ev1.
    destruct (reveal_ok p u s d_old d_new Ho Hn Hsh ltac:(lia) Hlen (conj Ev0 Ev1))
      as (r & w' & -> & _). done.
Qed.

Lemma grow_step_ok (t : Z) (s : State) (n h w1 : nat) :
  mask_inv s -> stack (t_shape (new_mask (self s))) n h w1 ->
  exists s1,
    (if t >? iter (self s) then grow t else ret tt) s = (Ok tt, s1) /\
    threshold (self s1) = threshold (self s) /\
    step (self s1) = step (self s) /\
    iter (self s1) = Z.max (iter (self s)) t /\
    mask_inv s1.
Proof.
  intros Hinv Hp.
  destruct (epoch_step_facts t s)
    as (o1 & s1 & E1 & Hthr & Hst & _ & _ & Hmax & _ & _ & _ & Hs1 & _).
  assert (o1 = Ok tt) as ->.
  { destruct (Z.gtb_spec t (iter (self s))) as [Hlt|Hge].
    - destruct Hinv as (d_old & d_new & _ & Hn & _).
      destruct (grow_ok t s d_new n h w1 Hn Hp) as [s2 E2].
      rewrite E2 in E1. by injection E1 as <- _.
    - by injection E1 as <- _. }
  exists s1. repeat split; auto.
Qed.

Lemma update_not_stuck (iiter : Z) (u : nat -> Q) (s : State) (n h w1 : nat) :
  mask_inv s -> stack (t_shape (new_mask (self s))) n h w1 ->
  fst (update iiter u s) <> Stuck.
Proof.
  intros Hinv Hp.
  destruct (Z.le_gt_cases iiter (threshold (self s))) as [Hle|Hgt].
  { by rewrite update_warmup. }
  destruct (Z.eq_dec (step (self s)) 0) as [H0|H0].
  { by rewrite update_div0. }
  rewrite update_hot by done.
  destruct (grow_step_ok (target_epoch (threshold (self s)) (step (self s)) iiter)
              s n h w1 Hinv Hp) as (s1 & -> & _ & _ & _ & Hinv1).
  destruct (drop_and_add_cases iiter u s1) as [(_ & _ & _ & ->)|[e ->]]; [|done].
  by apply reveal_not_stuck.
Qed.


Lemma update_shape (iiter : Z) (u : nat -> Q) (s : State) :
  t_shape (new_mask (self (snd (update iiter u s)))) = t_shape (new_mask (self s)).
Proof.
  destruct (update_fields iiter u s)
    as (o & s' & -> & _ & _ & _ & _ & _ & _ & _ & Hsh & _). exact Hsh.
Qed.


Lemma outcomes_covered (calls : list (Z * (nat -> Q))) (s : State) (n h w1 : nat) :
  mask_inv s -> stack (t_shape (new_mask (self s))) n h w1 ->
  Forall (fun o => o <> Stuck) (outcomes calls s).
Proof.
  revert s. induction calls as [|c calls IH]; intros s Hinv Hp; [constructor|].
  cbn [outcomes].
  pose proof (update_not_stuck (fst c) (snd c) s n h w1 Hinv Hp) as Hns.
  pose proof (update_inv (fst c) (snd c) s Hinv) as Hinv'.
  pose proof (update_shape (fst c) (snd c) s) as Hsh.
  destruct (update (fst c) (snd c) s) as [o s']. simpl in *.
  constructor; [exact Hns|]. apply IH; [exact Hinv'|by rewrite Hsh].
Qed.

Lemma initial_inv (mask : Tensor) (thr st : Z) (w : World) (d : list Q) :
  mem w !! t_buf mask = Some d -> length d = numel (t_shape mask) ->
  Forall binary d -> mask_inv (initial mask thr st w).
Proof.
  intros Hd Hlen Hb. exists d, d. simpl. repeat split; try done. apply subset_refl.
Qed.

(** ** The claims *)

(** C3 (warm-up identity): for every iteration with [iiter <= threshold],
    [update] returns [old_mask] itself and leaves the whole state as it was:
    the two masks, the epoch counter, every buffer and the count of
    dilations; the random draws play no part in the result. *)
Theorem warm_up_identity (s : State) (iiter : Z) (u : nat -> Q) :
  iiter <= threshold (self s) ->
  update iiter u s = (Ok (old_mask (self s)), s) /\
  forall u', update iiter u' s = update iiter u s.
Proof.
  intros H. split; [by apply update_warmup|].
  intros u'. by rewrite !update_warmup.
Qed.

Lemma warm_up_identity_witness :
  10 <= threshold (self scenario_start) /\
  (update 10 keep_all scenario_start = (Ok (old_mask (self scenario_start)), scenario_start) /\
   forall u', update 10 u' scenario_start = update 10 keep_all scenario_start).
Proof.
  split; [simpl; lia|].
  apply (warm_up_identity scenario_start 10 keep_all). simpl. lia.
Defined.

(** C1, counterexample: on the one-sample mask [[1]] the rate 1 yields
    [[0]], not the input. *)
Lemma thinner_law_as_stated_fails : ~ thinner_law_as_stated.
Proof.
  intros H.
  destruct (H single_mask 1%Q keep_all single_world [1%Q])
    as (r & w' & d' & E & Hd' & _ & H1 & _).
  - reflexivity.
  - reflexivity.
  - constructor; [by right|constructor].
  - by split.
  - vm_compute in E. injection E as <- <-. vm_compute in Hd'.
    injection Hd' as <-. specialize (H1 eq_refl). discriminate H1.
Qed.

(** C1 (thinner subset law, amended): for every binary [delta] and every
    dropout rate [p] in [0,1], the thinner returns a tensor of the shape and
    dtype of [delta] whose samples are a subset of those of [delta]; with
    [p = 0] the output equals [delta], and with [p = 1] it is all zero. *)
Theorem thinner_drop_law (delta : Tensor) (p : Q) (u : nat -> Q) (w : World) (d : list Q) :
  mem w !! t_buf delta = Some d -> length d = numel (t_shape delta) ->
  Forall binary d -> valid_prob p ->
  exists r w' d',
    thin delta p u w = (Ok r, w') /\ mem w' !! t_buf r = Some d' /\
    t_shape r = t_shape delta /\ t_dtype r = t_dtype delta /\
    length d' = length d /\ subset d' d /\
    (Qeq_bool p 0 = true -> d' = d) /\
    (Qeq_bool p 1 = true -> d' = replicate (length d) 0%Q).
Proof.
  intros Hd Hlen Hb Hp.
  destruct (thin_ok delta p u w d Hd Hlen Hp)
    as (r & m' & E & Hr & Hs & Ht & _).
  exists r, {| mem := m'; grow_calls := grow_calls w |}, (thin_data p u d).
  split; [done|]. split; [done|]. split; [done|]. split; [done|].
  split; [apply thin_data_length|]. split; [apply thin_data_subset|].
  split; intros E0.
  - by apply thin_data_keep_all.
  - by apply thin_data_drop_all.
Qed.

Lemma thinner_drop_law_witness :
  exists r w' d',
    thin scenario_mask 1 drop_all scenario_world = (Ok r, w') /\
    mem w' !! t_buf r = Some d' /\
    t_shape r = t_shape scenario_mask /\ t_dtype r = t_dtype scenario_mask /\
    length d' = length scenario_data /\ subset d' scenario_data /\
    (Qeq_bool 1 0 = true -> d' = scenario_data) /\
    (Qeq_bool 1 1 = true -> d' = replicate (length scenario_data) 0%Q).
Proof.
  apply (thinner_drop_law scenario_mask 1%Q drop_all scenario_world scenario_data).
  - reflexivity.
  - reflexivity.
  - unfold scenario_data. apply Forall_app. split.
    + repeat (constructor; [by (left + right)|]). constructor.
    + apply Forall_replicate. by left.
  - by split.
Defined.

Lemma scenario_data_binary : Forall binary scenario_data.
Proof.
  unfold scenario_data. apply Forall_app. split.
  - repeat (constructor; [by (left + right)|]). constructor.
  - apply Forall_replicate. by left.
Qed.

Lemma line_data_binary : Forall binary line_data.
Proof. repeat (constructor; [by (left + right)|]). constructor. Qed.

Lemma line_stack : stack (t_shape line_mask) 2 8 1.
Proof. split; [by right|]. right. split; discriminate. Qed.

Lemma line_start_inv : mask_inv line_start.
Proof. by apply (initial_inv _ _ _ _ line_data), line_data_binary. Qed.

(** C4 (invariant I1): from the state built by the constructor on a binary
    mask that, without its axes of size one, is a stack of planes or a
    stack of lines (a mask of axes (channel, time, space) or (channel,
    time)), after every sequence of calls of [update], whatever their
    iteration numbers, their random draws and their outcomes, [old_mask] is
    a sample-wise subset of [new_mask]; and each call of the sequence
    returns or raises a Python exception, none falls outside the masks
    covered here. *)
Theorem subset_invariant (mask : Tensor) (threshold step : Z) (w : World)
    (d : list Q) (n h w1 : nat) (calls : list (Z * (nat -> Q))) :
  mem w !! t_buf mask = Some d -> length d = numel (t_shape mask) ->
  Forall binary d -> stack (t_shape mask) n h w1 ->
  (exists d_old d_new,
     let s := run calls (initial mask threshold step w) in
     mem (world s) !! t_buf (old_mask (self s)) = Some d_old /\
     mem (world s) !! t_buf (new_mask (self s)) = Some d_new /\
     subset d_old d_new) /\
  Forall (fun o => o <> Stuck) (outcomes calls (initial mask threshold step w)).
Proof.
  intros Hd Hlen Hb Hp.
  pose proof (initial_inv mask threshold step w d Hd Hlen Hb) as Hinit.
  split.
  - destruct (run_inv calls _ Hinit) as (d_old & d_new & Ho & Hn & _ & _ & _ & _ & Hsub).
    by exists d_old, d_new.
  - by apply (outcomes_covered calls _ n h w1).
Qed.

Lemma subset_invariant_witness :
  (exists d_old d_new,
     let s := run [(11, keep_all); (14, drop_all); (16, keep_all)] line_start in
     mem (world s) !! t_buf (old_mask (self s)) = Some d_old /\
     mem (world s) !! t_buf (new_mask (self s)) = Some d_new /\
     subset d_old d_new) /\
  Forall (fun o => o <> Stuck)
    (outcomes [(11, keep_all); (14, drop_all); (16, keep_all)] line_start).
Proof.
  apply (subset_invariant line_mask 10 5 line_world line_data 2 8 1).
  - reflexivity.
  - reflexivity.
  - apply line_data_binary.
  - apply line_stack.
Defined.

(** C6 (invariant I4, no store-back): every call of [update] invokes
    [dilate_mask] at most once; and on a call whose iteration lies inside the
    current epoch (in the warm-up, or with a target epoch not above the
    stored counter) [dilate_mask] is not invoked at all, the fields
    [old_mask], [new_mask], [iter] and the schedule are left as they were,
    every buffer that existed keeps its contents, and the mask returned
    past the warm-up lives in a buffer of its own, which the scheduler does
    not hold. *)
Theorem inside_epoch_frame (s : State) (iiter : Z) (u : nat -> Q) :
  (grow_calls (world (snd (update iiter u s))) <= S (grow_calls (world s)))%nat /\
  (iiter <= threshold (self s) \/
   target_epoch (threshold (self s)) (step (self s)) iiter <= iter (self s) ->
   exists o s',
     update iiter u s = (o, s') /\ self s' = self s /\
     grow_calls (world s') = grow_calls (world s) /\
     mem (world s) `prefix_of` mem (world s') /\
     match o with
     | Ok r => (iiter <= threshold (self s) /\ r = old_mask (self s)) \/
               (threshold (self s) < iiter /\ (length (mem (world s)) <= t_buf r)%nat)
     | _ => True
     end).
Proof.
  split.
  - destruct (update_fields iiter u s) as (o & s' & -> & _ & _ & _ & _ & _ & _ & Hg & _).
    exact Hg.
  - apply update_inside.
Qed.

Lemma inside_epoch_frame_witness :
  let s := run [(11, keep_all)] scenario_start in
  target_epoch (threshold (self s)) (step (self s)) 13 <= iter (self s) /\
  exists o s',
    update 13 drop_all s = (o, s') /\ self s' = self s /\
    grow_calls (world s') = grow_calls (world s) /\
    mem (world s) `prefix_of` mem (world s') /\
    match o with
    | Ok r => (13 <= threshold (self s) /\ r = old_mask (self s)) \/
              (threshold (self s) < 13 /\ (length (mem (world s)) <= t_buf r)%nat)
    | _ => True
    end.
Proof.
  split; [by vm_compute|].
  apply (proj2 (inside_epoch_frame (run [(11, keep_all)] scenario_start) 13 drop_all)).
  right. by vm_compute.
Defined.

(** C7, counterexample: called with [step = 0] on the scenario mask, the
    constructor returns a scheduler and raises nothing. *)
Lemma construction_rejects_zero_step_fails : ~ construction_rejects_zero_step.
Proof.
  intros H. destruct (H scenario_mask 10 scenario_world) as [[e He] _].
  discriminate He.
Qed.

(** C7 (amended): the constructor checks nothing: every mask, threshold
    and step, [step = 0] and negative thresholds included, yields a
    scheduler whose two masks are the given one and whose epoch counter is
    0; on a scheduler with [step = 0], [update] raises [ZeroDivisionError]
    for every iteration above the threshold, before changing any state, and
    returns [old_mask] for the others. *)
Theorem construction_accepts_any_schedule (mask : Tensor) (thr st : Z) (w : World) :
  MaskUpdate_init mask thr st
  = Ok {| threshold := thr; step := st; iter := 0; new_mask := mask; old_mask := mask |} /\
  self (initial mask thr st w)
  = {| threshold := thr; step := st; iter := 0; new_mask := mask; old_mask := mask |} /\
  (st = 0 ->
   forall iiter u,
     (thr < iiter ->
      update iiter u (initial mask thr st w)
      = (Raise ZeroDivisionError, initial mask thr st w)) /\
     (iiter <= thr ->
      update iiter u (initial mask thr st w) = (Ok mask, initial mask thr st w))).
Proof.
  split; [done|]. split; [done|]. intros -> iiter u. split; intros Hi.
  - by apply update_div0.
  - by apply update_warmup.
Qed.

Lemma construction_accepts_any_schedule_witness :
  update 11 keep_all (initial scenario_mask 10 0 scenario_world)
  = (Raise ZeroDivisionError, initial scenario_mask 10 0 scenario_world).
Proof.
  apply (proj2 (proj2 (construction_accepts_any_schedule scenario_mask 10 0 scenario_world))
           eq_refl 11 keep_all).
  lia.
Defined.

(** C8, counterexample: [update(-1)] on the scenario scheduler returns a
    mask. *)
Lemma rejects_negative_iteration_fails : ~ rejects_negative_iteration.
Proof.
  intros H. destruct (H scenario_start (-1) keep_all) as (e & s' & E); [lia|].
  discriminate E.
Qed.

(** C8 (amended): [update] does not inspect the sign of the iteration; on
    a scheduler whose threshold is not negative, a negative iteration falls
    in the warm-up, so the call returns [old_mask] and changes nothing. *)
Theorem negative_iteration_accepted (s : State) (iiter : Z) (u : nat -> Q) :
  iiter < 0 -> 0 <= threshold (self s) ->
  update iiter u s = (Ok (old_mask (self s)), s).
Proof. intros Hi Ht. apply update_warmup. lia. Qed.

Lemma negative_iteration_accepted_witness :
  -1 < 0 /\ 0 <= threshold (self scenario_start) /\
  update (-1) keep_all scenario_start = (Ok (old_mask (self scenario_start)), scenario_start).
Proof.
  split; [lia|]. split; [simpl; lia|].
  apply (negative_iteration_accepted scenario_start (-1) keep_all); simpl; lia.
Defined.

(** C9, counterexample: a mask of shape [(1, 1, 1)] is squeezed to a 0-d
    array, and [mask_np.shape[0]] raises [IndexError]. *)
Lemma grower_returns_for_every_mask_fails : ~ grower_returns_for_every_mask.
Proof.
  intros H. destruct (H single_mask 1%nat single_world [1%Q]) as (r & w' & E & _).
  - reflexivity.
  - reflexivity.
  - discriminate E.
Qed.

(** C9 (amended): [dilate_mask] never mutates its argument: whatever the
    mask and whatever the outcome, every buffer that existed before the
    call, that of the argument included, keeps the contents it had, and a
    tensor that is returned has the shape and the dtype of the argument and
    a buffer that did not exist before. The call does return such a tensor
    for every mask that, without its axes of size one, is a stack of
    non-empty planes or a stack of non-empty lines: a mask of axes
    (channel, time, space) or (channel, time). *)
Theorem grower_frame (mask : Tensor) (iterations : nat) (w : World) :
  (exists o w',
     dilate_mask mask iterations w = (o, w') /\
     mem w `prefix_of` mem w' /\
     match o with
     | Ok r => t_shape r = t_shape mask /\ t_dtype r = t_dtype mask /\
               (length (mem w) <= t_buf r)%nat
     | _ => True
     end) /\
  (forall d n h w1,
     mem w !! t_buf mask = Some d -> stack (t_shape mask) n h w1 ->
     exists r w',
       dilate_mask mask iterations w = (Ok r, w') /\
       t_shape r = t_shape mask /\ t_dtype r = t_dtype mask /\
       (length (mem w) <= t_buf r)%nat /\
       mem w' !! t_buf mask = Some d).
Proof.
  split.
  - destruct (dilate_mask_frame mask iterations w) as (o & k & E & Ho).
    eexists _, _. split; [exact E|]. simpl. split; [by apply prefix_app_r|].
    destruct o as [r| |]; [|done..]. destruct Ho as (? & ? & ->). repeat split; try done. lia.
  - intros d n h w1 Hd Hp. rewrite (dilate_mask_ok _ _ _ _ _ _ _ Hd Hp).
    eexists _, _. split; [reflexivity|]. simpl. repeat split; try lia.
    by apply lookup_app_l_Some.
Qed.

Lemma grower_frame_witness :
  (exists r w',
     dilate_mask line_mask 1 line_world = (Ok r, w') /\
     t_shape r = t_shape line_mask /\ t_dtype r = t_dtype line_mask /\
     (length (mem line_world) <= t_buf r)%nat /\
     mem w' !! t_buf line_mask = Some line_data) /\
  (exists r w',
     dilate_mask scenario_mask 1 scenario_world = (Ok r, w') /\
     t_shape r = t_shape scenario_mask /\ t_dtype r = t_dtype scenario_mask /\
     (length (mem scenario_world) <= t_buf r)%nat /\
     mem w' !! t_buf scenario_mask = Some scenario_data).
Proof.
  split.
  - apply (proj2 (grower_frame line_mask 1 line_world) line_data 2 8 1)%nat.
    + reflexivity.
    + apply line_stack.
  - apply (proj2 (grower_frame scenario_mask 1 scenario_world) scenario_data 2 2 8)%nat.
    + reflexivity.
    + split; [by left|]. right. split; discriminate.
Defined.








Lemma scenario_planes : planes (t_shape scenario_mask) 2 2 8.
Proof. split; [reflexivity|]. right. split; discriminate. Qed.

(** C10: on every call of [update] past the warm-up that starts from
    binary masks with [old_mask] a subset of [new_mask], the returned mask
    is binary and lies between the [old_mask] and the [new_mask] of the
    scheduler after the call; the factor [1/(1-p)] of the dropout never
    reaches the caller. When the masks are stacks of planes or of lines the
    call is covered, and it does return when moreover the step is positive
    and at most [2^1022], as the dropout probability computed in doubles is
    then in [0,1]. *)
Theorem returned_mask_between (s : State) (iiter : Z) (u : nat -> Q) :
  mask_inv s -> threshold (self s) < iiter ->
  (forall r s',
     update iiter u s = (Ok r, s') ->
     exists d_ret d_old d_new,
       mem (world s') !! t_buf r = Some d_ret /\
       mem (world s') !! t_buf (old_mask (self s')) = Some d_old /\
       mem (world s') !! t_buf (new_mask (self s')) = Some d_new /\
       Forall binary d_ret /\ subset d_old d_ret /\ subset d_ret d_new) /\
  (forall n h w1,
     stack (t_shape (new_mask (self s))) n h w1 ->
     fst (update iiter u s) <> Stuck /\
     (0 < step (self s) <= 2 ^ 1022 -> exists r s', update iiter u s = (Ok r, s'))).
Proof.
  intros Hinv Hgt. split.
  - intros r s' E.
    destruct (update_ok_content iiter u s r s' Hinv Hgt E)
      as (d_old & d_new & Ho & Hn & Hbo & Hbn & Hsub & Hr & _).
    destruct (reveal_data_between
                (drop_prob (step (self s))
                   (iter_drop (threshold (self s)) (step (self s)) iiter))
                u d_old d_new Hbo Hbn Hsub) as (Hb & Hlo & Hhi).
    eexists _, d_old, d_new. by repeat split.
  - intros n h w1 Hp. split; [by eapply update_not_stuck|].
    intros Hst. by eapply update_total.
Qed.

Lemma returned_mask_between_witness :
  exists r s' d_ret d_old d_new,
    update 11 keep_all line_start = (Ok r, s') /\
    mem (world s') !! t_buf r = Some d_ret /\
    mem (world s') !! t_buf (old_mask (self s')) = Some d_old /\
    mem (world s') !! t_buf (new_mask (self s')) = Some d_new /\
    Forall binary d_ret /\ subset d_old d_ret /\ subset d_ret d_new.
Proof.
  destruct (returned_mask_between line_start 11 keep_all line_start_inv eq_refl)
    as [HA HT].
  destruct (HT 2%nat 8%nat 1%nat line_stack) as [_ HT'].
  destruct (HT' ltac:(simpl; lia)) as (r & s' & E).
  destruct (HA r s' E) as (d_ret & d_old & d_new & H).
  exists r, s', d_ret, d_old, d_new. exact (conj E H).
Defined.

Lemma drop_prob_15 : drop_prob 5 (iter_drop 10 5 15) = p15.
Proof. by vm_compute. Qed.

Lemma drop_prob_14 : drop_prob 5 (iter_drop 10 5 14) = 0%Q.
Proof. by vm_compute. Qed.

(** A sample that the dilation has just added is returned by a call with
    dropout probability [p15] exactly when its uniform draw is below
    [1 - p15]. *)
Lemma reveal_data_fresh (u : nat -> Q) (d_old d_new : list Q) (j : nat) :
  d_old !! j = Some 0%Q -> d_new !! j = Some 1%Q ->
  zip_with q_add d_old (thin_data p15 u (zip_with q_sub d_new d_old)) !! j
  = Some (if Qle_bool (1 - p15) (u j) then 0%Q else 1%Q).
Proof.
  intros Ho Hn.
  pose proof (lookup_lt_Some _ _ _ Ho) as Lo. pose proof (lookup_lt_Some _ _ _ Hn) as Ln.
  rewrite lookup_zip_with, Ho. simpl.
  unfold thin_data, dropout_data.
  change (Qeq_bool p15 0) with false. change (Qeq_bool p15 1) with false. cbv iota.
  rewrite list_lookup_fmap, lookup_zip_with, lookup_zip_with, Hn. simpl. rewrite Ho. simpl.
  unfold dropout_noise. rewrite list_lookup_fmap, lookup_seq_lt; [|rewrite length_zip_with; lia].
  simpl. by destruct (Qle_bool (1 - p15) (u j)).
Qed.

(** C2, counterexample: in the scenario [threshold = 10], [step = 5], on
    two channels of eight positions with position 3 revealed,
    [update(15)] computes the offset [(15 - 10) % 5 = 0], not 4, and a
    dropout probability that is not 0; and with draws that keep every
    sample the mask it returns differs from [old_mask]. *)
Lemma update_15_not_as_stated :
  iter_drop 10 5 15 <> 4 /\
  drop_prob 5 (iter_drop 10 5 15) <> 0%Q /\
  exists r s' d_ret d_old,
    update 15 keep_all (run [(10, keep_all); (11, keep_all)] line_start) = (Ok r, s') /\
    mem (world s') !! t_buf r = Some d_ret /\
    mem (world s') !! t_buf (old_mask (self s')) = Some d_old /\
    d_ret <> d_old.
Proof.
  split; [by vm_compute|]. split; [by vm_compute|].
  eexists _, _, _, _. split; [vm_compute; reflexivity|].
  split; [vm_compute; reflexivity|]. split; [vm_compute; reflexivity|].
  discriminate.
Qed.

(** C2 (amended): in the scenario [threshold = 10], [step = 5], on a binary
    mask of axes (channel, time) or (channel, time, space), after
    [update(11)] has opened epoch 1, [update(15)] returns: it opens epoch 2
    with one more dilation and thins the newly grown samples with the
    offset 0 and the dropout probability [p15], the double nearest to
    [4/5]; the mask it returns is [old_mask] plus the samples of
    [new_mask - old_mask] whose uniform draw is below [1 - p15], so it lies
    between [old_mask] and [new_mask]. The offset 4 and the probability 0
    are those of [update(14)], which changes no field of the scheduler and
    returns a mask equal to [new_mask]. *)
Theorem scenario_updates (mask : Tensor) (w : World) (d : list Q) (n h w1 : nat)
    (u11 u : nat -> Q) :
  mem w !! t_buf mask = Some d -> length d = numel (t_shape mask) ->
  Forall binary d -> stack (t_shape mask) n h w1 ->
  let s1 := snd (update 11 u11 (initial mask 10 5 w)) in
  iter (self s1) = 1 /\
  (exists r s' d_ret d_old d_new,
     update 15 u s1 = (Ok r, s') /\ iter (self s') = 2 /\
     grow_calls (world s') = S (grow_calls (world s1)) /\
     mem (world s') !! t_buf r = Some d_ret /\
     mem (world s') !! t_buf (old_mask (self s')) = Some d_old /\
     mem (world s') !! t_buf (new_mask (self s')) = Some d_new /\
     iter_drop (threshold (self s1)) (step (self s1)) 15 = 0 /\
     drop_prob (step (self s1)) 0 = p15 /\
     d_ret = zip_with q_add d_old (thin_data p15 u (zip_with q_sub d_new d_old)) /\
     (forall j, d_old !! j = Some 0%Q -> d_new !! j = Some 1%Q ->
                d_ret !! j = Some (if Qle_bool (1 - p15) (u j) then 0%Q else 1%Q)) /\
     subset d_old d_ret /\ subset d_ret d_new) /\
  (exists r s' d_new,
     update 14 u s1 = (Ok r, s') /\ self s' = self s1 /\
     iter_drop (threshold (self s1)) (step (self s1)) 14 = 4 /\
     drop_prob (step (self s1)) 4 = 0%Q /\
     mem (world s') !! t_buf r = Some d_new /\
     mem (world s') !! t_buf (new_mask (self s')) = Some d_new).
Proof.
  intros Hd Hlen Hb Hp s1.
  pose proof (initial_inv mask 10 5 w d Hd Hlen Hb) as Hinv0.
  assert (H5 : 0 < 5 <= 2 ^ 1022) by (split; [lia|by vm_compute]).
  destruct (update_total 11 u11 (initial mask 10 5 w) n h w1 Hinv0 Hp H5 eq_refl)
    as (r1 & s1' & E1).
  destruct (update_fields 11 u11 (initial mask 10 5 w))
    as (o & s'' & E' & Hthr & Hst & _ & _ & Hmax & _ & _ & Hsh & _).
  rewrite E1 in E'. injection E' as <- <-.
  pose proof (update_inv 11 u11 (initial mask 10 5 w) Hinv0) as Hinv1.
  subst s1. rewrite E1 in *. simpl in Hthr, Hst, Hmax, Hsh, Hinv1 |- *.
  assert (Hit : iter (self s1') = 1).
  { rewrite Hmax; [reflexivity|lia|by eexists]. }
  assert (Hp1 : stack (t_shape (new_mask (self s1'))) n h w1) by (by rewrite Hsh).
  assert (Hst5 : 0 < step (self s1') <= 2 ^ 1022) by (by rewrite Hst).
  split; [done|]. split.
  - destruct (update_total 15 u s1' n h w1 Hinv1 Hp1 Hst5) as (r & s' & E); [lia|].
    destruct (update_fields 15 u s1')
      as (o & s'' & E' & _ & _ & _ & _ & Hmax' & _ & _ & _ & Hgrow).
    rewrite E in E'. injection E' as <- <-.
    rewrite Hthr, Hst, Hit in Hmax', Hgrow.
    destruct (update_ok_content 15 u s1' r s' Hinv1 ltac:(lia) E)
      as (d_old & d_new & Ho & Hn & Hbo & Hbn & Hsub & Hr & _).
    rewrite Hthr, Hst, drop_prob_15 in Hr.
    destruct (reveal_data_between p15 u d_old d_new Hbo Hbn Hsub) as (_ & Hlo & Hhi).
    eexists r, s', _, d_old, d_new. split; [done|].
    split; [rewrite Hmax'; [reflexivity|lia|by eexists]|].
    split; [apply Hgrow; [lia|by eexists|by vm_compute]|].
    rewrite Hthr, Hst.
    split; [exact Hr|]. split; [exact Ho|]. split; [exact Hn|].
    split; [by vm_compute|]. split; [exact drop_prob_15|]. split; [reflexivity|].
    split; [intros j; apply reveal_data_fresh|]. by split.
  - destruct (update_total 14 u s1' n h w1 Hinv1 Hp1 Hst5) as (r & s' & E); [lia|].
    destruct (update_inside s1' 14 u) as (o & s'' & E' & Hself & _).
    { right. rewrite Hthr, Hst, Hit. by vm_compute. }
    rewrite E in E'. injection E' as <- <-.
    destruct (update_ok_content 14 u s1' r s' Hinv1 ltac:(lia) E)
      as (d_old & d_new & Ho & Hn & Hbo & Hbn & Hsub & Hr & _).
    rewrite Hthr, Hst, drop_prob_14 in Hr.
    rewrite (reveal_data_full _ u d_old d_new) in Hr by done.
    exists r, s', d_new. rewrite Hthr, Hst.
    split; [done|]. split; [done|]. split; [by vm_compute|].
    split; [exact drop_prob_14|]. by split.
Qed.

Lemma scenario_updates_witness :
  let s1 := snd (update 11 keep_all line_start) in
  iter (self s1) = 1 /\
  (exists r s' d_ret d_old d_new,
     update 15 drop_all s1 = (Ok r, s') /\ iter (self s') = 2 /\
     grow_calls (world s') = S (grow_calls (world s1)) /\
     mem (world s') !! t_buf r = Some d_ret /\
     mem (world s') !! t_buf (old_mask (self s')) = Some d_old /\
     mem (world s') !! t_buf (new_mask (self s')) = Some d_new /\
     iter_drop (threshold (self s1)) (step (self s1)) 15 = 0 /\
     drop_prob (step (self s1)) 0 = p15 /\
     d_ret = zip_with q_add d_old (thin_data p15 drop_all (zip_with q_sub d_new d_old)) /\
     (forall j, d_old !! j = Some 0%Q -> d_new !! j = Some 1%Q ->
                d_ret !! j = Some (if Qle_bool (1 - p15) (drop_all j) then 0%Q else 1%Q)) /\
     subset d_old d_ret /\ subset d_ret d_new) /\
  (exists r s' d_new,
     update 14 drop_all s1 = (Ok r, s') /\ self s' = self s1 /\
     iter_drop (threshold (self s1)) (step (self s1)) 14 = 4 /\
     drop_prob (step (self s1)) 4 = 0%Q /\
     mem (world s') !! t_buf r = Some d_new /\
     mem (world s') !! t_buf (new_mask (self s')) = Some d_new).
Proof.
  exact (scenario_updates line_mask line_world line_data 2 8 1
           keep_all drop_all eq_refl eq_refl line_data_binary line_stack).
Defined.

(** * Further properties of the scheduler and of the grower *)

(** ** The dropout schedule inside an epoch *)

(** X2: for a step between 1 and [2^1022], the dropout probability that
    [update] computes in doubles at each offset [k] of an epoch,
    [0 <= k < step], is one that [F.dropout] accepts, and it does not
    increase from one offset to the next. *)
Theorem drop_prob_schedule (st k : Z) :
  0 < st <= 2 ^ 1022 -> 0 <= k < st ->
  valid_prob (drop_prob st k) /\ (drop_prob st (k + 1) <= drop_prob st k)%Q.
Proof.
  intros Hst Hk. split; [by apply drop_prob_valid|apply drop_prob_mono; lia].
Qed.

Lemma drop_prob_schedule_witness :
  valid_prob (drop_prob 5 2) /\ (drop_prob 5 (2 + 1) <= drop_prob 5 2)%Q.
Proof. apply (drop_prob_schedule 5 2); [split; [lia|by vm_compute]|lia]. Defined.

(** The last dropout probability of an epoch is 0 when the step is 5, but
    [2^-53] when the step is 49: the rounded [1. / 49 * 49] is below 1. *)
Lemma drop_prob_last_examples :
  drop_prob 5 (5 - 1) = 0%Q /\ drop_prob 49 (49 - 1) = (1 # 9007199254740992)%Q.
Proof. split; by vm_compute. Qed.

(** X1: on a scheduler whose masks are binary, with [old_mask] a subset of
    [new_mask], and are stacks of planes or of lines, with a step between 1
    and [2^1022]: at the last iteration of an epoch (offset [step - 1]),
    when the dropout probability computed in doubles for that offset is 0
    (as it is for step 5, and is not for step 49), [update] returns a mask
    equal to [new_mask]: the revealed set has reached the grown mask before
    the next growth. *)
Theorem end_of_epoch_returns_new_mask (s : State) (iiter : Z) (u : nat -> Q)
    (n h w1 : nat) :
  mask_inv s -> stack (t_shape (new_mask (self s))) n h w1 ->
  0 < step (self s) <= 2 ^ 1022 -> threshold (self s) < iiter ->
  iter_drop (threshold (self s)) (step (self s)) iiter = step (self s) - 1 ->
  Qeq_bool (drop_prob (step (self s)) (step (self s) - 1)) 0 = true ->
  exists r s' d_new,
    update iiter u s = (Ok r, s') /\
    mem (world s') !! t_buf r = Some d_new /\
    mem (world s') !! t_buf (new_mask (self s')) = Some d_new.
Proof.
  intros Hinv Hp Hst Hgt Hlast Hzero.
  destruct (update_total iiter u s n h w1 Hinv Hp Hst Hgt) as (r & s' & E).
  destruct (update_ok_content iiter u s r s' Hinv Hgt E)
    as (d_old & d_new & Ho & Hn & Hbo & Hbn & Hsub & Hr & _).
  rewrite Hlast in Hr.
  rewrite (reveal_data_full _ u d_old d_new) in Hr; try done.
  by exists r, s', d_new.
Qed.

Lemma end_of_epoch_returns_new_mask_witness :
  exists r s' d_new,
    update 14 drop_all line_start = (Ok r, s') /\
    mem (world s') !! t_buf r = Some d_new /\
    mem (world s') !! t_buf (new_mask (self s')) = Some d_new.
Proof.
  apply (end_of_epoch_returns_new_mask line_start 14 drop_all 2 8 1).
  - apply line_start_inv.
  - apply line_stack.
  - split; [reflexivity|by vm_compute].
  - reflexivity.
  - reflexivity.
  - by vm_compute.
Defined.

(** ** The masks of the scheduler only grow *)

Lemma epoch_step_masks (t : Z) (s : State) :
  mask_inv s ->
  exists o1 s1 d_old d_new d_old' d_new',
    (if t >? iter (self s) then grow t else ret tt) s = (o1, s1) /\
    mem (world s) !! t_buf (old_mask (self s)) = Some d_old /\
    mem (world s) !! t_buf (new_mask (self s)) = Some d_new /\
    mem (world s1) !! t_buf (old_mask (self s1)) = Some d_old' /\
    mem (world s1) !! t_buf (new_mask (self s1)) = Some d_new' /\
    subset d_old d_old' /\ subset d_new d_new' /\
    step (self s1) = step (self s).
Proof.
  intros (d_old & d_new & Ho & Hn & Hsh & Hlen & Hbo & Hbn & Hsub).
  rewrite Z.gtb_ltb. destruct (Z.ltb_spec (iter (self s)) t) as [Hlt|Hge].
  - destruct (grow_cases t s) as [(d & n & h & w' & Hd & Hp & E)|(o & k & E & Hno)].
    + rewrite Hn in Hd. injection Hd as <-.
      rewrite (stack_numel _ _ _ _ Hp) in Hlen.
      destruct (dilate_data_spec n h w' 1 d_new Hlen Hbn) as (_ & _ & Hs).
      eexists _, _, d_old, d_new, d_new, _. split; [exact E|]. simpl.
      split; [done|]. split; [done|]. split; [by apply lookup_app_l_Some|].
      split; [apply lookup_pair_snd|]. done.
    + eexists _, _, d_old, d_new, d_new, d_new. split; [exact E|]. simpl.
      split; [done|]. split; [done|]. split; [by apply lookup_app_l_Some|].
      split; [by apply lookup_app_l_Some|]. split; [done|]. split; [|done].
      apply subset_refl.
  - exists (Ok tt), s, d_old, d_new, d_old, d_new. unfold ret.
    repeat split; try done; apply subset_refl.
Qed.

(** X3: on a scheduler whose masks are binary, with [old_mask] a subset of
    [new_mask], and are stacks of planes or of lines, a call of [update],
    whatever its outcome, never takes a sample out of [old_mask] or of
    [new_mask]: each mask of the scheduler after the call contains the mask
    it was before. *)
Theorem masks_never_shrink (s : State) (iiter : Z) (u : nat -> Q) (n h w1 : nat) :
  mask_inv s -> stack (t_shape (new_mask (self s))) n h w1 ->
  fst (update iiter u s) <> Stuck /\
  exists d_old d_new d_old' d_new',
    let s' := snd (update iiter u s) in
    mem (world s) !! t_buf (old_mask (self s)) = Some d_old /\
    mem (world s) !! t_buf (new_mask (self s)) = Some d_new /\
    mem (world s') !! t_buf (old_mask (self s')) = Some d_old' /\
    mem (world s') !! t_buf (new_mask (self s')) = Some d_new' /\
    subset d_old d_old' /\ subset d_new d_new'.
Proof.
  intros Hinv Hp. split; [by eapply update_not_stuck|].
  destruct (Z.le_gt_cases iiter (threshold (self s))) as [Hle|Hgt];
    [|destruct (Z.eq_dec (step (self s)) 0) as [H0|H0]].
  1,2: destruct Hinv as (d_old & d_new & Ho & Hn & _);
       exists d_old, d_new, d_old, d_new;
       rewrite ?update_warmup, ?update_div0 by done; simpl;
       repeat split; try done; apply subset_refl.
  rewrite update_hot by done.
  destruct (epoch_step_masks
              (target_epoch (threshold (self s)) (step (self s)) iiter) s Hinv)
    as (o1 & s1 & d_old & d_new & d_old' & d_new' & -> & Ho & Hn & Ho' & Hn'
        & Hso & Hsn & Hst).
  exists d_old, d_new, d_old', d_new'.
  destruct o1 as [[]| |]; simpl; [|done..].
  destruct (drop_and_add_frame iiter u s1) as (o & w' & -> & [Hk _] & _).
  simpl. split; [done|]. split; [done|].
  split; [by eapply prefix_lookup_Some|]. split; [by eapply prefix_lookup_Some|].
  done.
Qed.

Lemma masks_never_shrink_witness :
  fst (update 11 keep_all line_start) <> Stuck /\
  exists d_old d_new d_old' d_new',
    let s' := snd (update 11 keep_all line_start) in
    mem (world line_start) !! t_buf (old_mask (self line_start)) = Some d_old /\
    mem (world line_start) !! t_buf (new_mask (self line_start)) = Some d_new /\
    mem (world s') !! t_buf (old_mask (self s')) = Some d_old' /\
    mem (world s') !! t_buf (new_mask (self s')) = Some d_new' /\
    subset d_old d_old' /\ subset d_new d_new'.
Proof.
  apply (masks_never_shrink line_start 11 keep_all 2 8 1).
  - apply line_start_inv.
  - apply line_stack.
Defined.

(** ** A scheduler with a negative step *)

Lemma target_epoch_negative_step (thr st iiter : Z) :
  st < 0 -> thr < iiter -> target_epoch thr st iiter <= 0.
Proof.
  intros Hst Hgt. unfold target_epoch.
  pose proof (Z.div_mod (iiter - thr) st ltac:(lia)) as Hdm.
  pose proof (Z.mod_neg_bound (iiter - thr) st Hst) as Hm. nia.
Qed.

Lemma update_negative_step (s : State) (iiter : Z) (u : nat -> Q) :
  step (self s) < 0 -> 0 <= iter (self s) ->
  self (snd (update iiter u s)) = self s /\
  grow_calls (world (snd (update iiter u s))) = grow_calls (world s).
Proof.
  intros Hst Hit.
  destruct (update_inside s iiter u) as (o & s' & -> & Hself & Hg & _); [|done].
  destruct (Z.le_gt_cases iiter (threshold (self s))) as [Hle|Hgt]; [by left|].
  right. pose proof (target_epoch_negative_step (threshold (self s)) (step (self s)) iiter).
  lia.
Qed.

(** X4: a scheduler built with a negative step never grows: after every
    sequence of calls of [update] its fields are those the constructor set
    (both masks are the initial mask, the epoch counter is 0) and
    [dilate_mask] has not been called. *)
Theorem negative_step_never_grows (mask : Tensor) (thr st : Z) (w : World)
    (calls : list (Z * (nat -> Q))) :
  st < 0 ->
  self (run calls (initial mask thr st w)) = self (initial mask thr st w) /\
  grow_calls (world (run calls (initial mask thr st w))) = grow_calls w.
Proof.
  intros Hst.
  assert (H : forall s,
             step (self s) < 0 -> 0 <= iter (self s) ->
             self (run calls s) = self s /\
             grow_calls (world (run calls s)) = grow_calls (world s)).
  { induction calls as [|c calls IH]; intros s Hs Hi; [done|].
    change (run (c :: calls) s) with (run calls (snd (update (fst c) (snd c) s))).
    destruct (update_negative_step s (fst c) (snd c) Hs Hi) as [E1 E2].
    destruct (IH (snd (update (fst c) (snd c) s))) as [E3 E4];
      [by rewrite E1..|].
    by rewrite E3, E4, E1, E2. }
  apply (H (initial mask thr st w)); simpl; lia.
Qed.

Lemma negative_step_never_grows_witness :
  self (run [(11, keep_all); (12, drop_all); (40, keep_all)]
          (initial scenario_mask 10 (-5) scenario_world))
  = self (initial scenario_mask 10 (-5) scenario_world) /\
  grow_calls (world (run [(11, keep_all); (12, drop_all); (40, keep_all)]
                       (initial scenario_mask 10 (-5) scenario_world)))
  = grow_calls scenario_world.
Proof.
  apply (negative_step_never_grows scenario_mask 10 (-5) scenario_world). lia.
Defined.

(** X5: on a scheduler with a negative step, not below [-2^52], a call of
    [update] whose iteration is past the threshold by a multiple of the
    step computes, in doubles, a dropout probability above 1, and
    [F.dropout] raises [ValueError]; the fields of the scheduler are left
    as they were. *)
Theorem negative_step_value_error (s : State) (iiter : Z) (u : nat -> Q) :
  mask_inv s -> - 2 ^ 52 <= step (self s) < 0 -> 0 <= iter (self s) ->
  threshold (self s) < iiter ->
  iter_drop (threshold (self s)) (step (self s)) iiter = 0 ->
  exists s', update iiter u s = (Raise ValueError, s') /\ self s' = self s.
Proof.
  intros (d_old & d_new & Ho & Hn & Hsh & _) Hst Hit Hgt Hk.
  rewrite update_hot by lia.
  destruct (epoch_step_facts
              (target_epoch (threshold (self s)) (step (self s)) iiter) s)
    as (o1 & s1 & -> & _ & _ & _ & _ & _ & _ & _ & Hsame & _).
  destruct Hsame as [-> ->].
  { pose proof (target_epoch_negative_step (threshold (self s)) (step (self s)) iiter).
    lia. }
  assert (H52 : 2 ^ 52 <= 2 ^ 1022) by (by vm_compute).
  rewrite drop_and_add_run;
    [|lia|apply converts_small; lia|rewrite Hk; by apply converts_small].
  rewrite Hk.
  destruct (reveal_value_error (drop_prob (step (self s)) 0) u s d_old d_new Ho Hn Hsh)
    as (w' & ->).
  { pose proof (drop_prob_negative_step (step (self s)) Hst) as Hp.
    destruct (Qle_bool (drop_prob (step (self s)) 0) 1) eqn:E; [|apply orb_true_r].
    apply Qle_bool_iff in E. lra. }
  by eexists.
Qed.

Lemma negative_step_value_error_witness :
  exists s',
    update 15 keep_all (initial line_mask 10 (-5) line_world)
    = (Raise ValueError, s') /\
    self s' = self (initial line_mask 10 (-5) line_world).
Proof.
  apply (negative_step_value_error (initial line_mask 10 (-5) line_world) 15 keep_all).
  - by apply (initial_inv _ _ _ _ line_data), line_data_binary.
  - split; [by vm_compute|reflexivity].
  - simpl. lia.
  - simpl. lia.
  - reflexivity.
Defined.

(** ** Edge cases of the grower *)

Lemma pixel_zero (h w : nat) (img : list Z) (y x : Z) :
  Forall (fun z => z = 0) img -> pixel h w img y x = 0.
Proof.
  intros Himg. unfold pixel. case_match; [|done].
  destruct (img !! _) as [v|] eqn:E; simpl; [|done].
  by eapply (Forall_lookup_1 _ _ _ _ Himg).
Qed.

Lemma foldr_max_zero (l : list Z) : Forall (fun z => z = 0) l -> foldr Z.max 0 l = 0.
Proof. induction 1 as [|x l -> _ IH]; simpl; [done|]. by rewrite IH. Qed.

Lemma dilate_once_zero (h w : nat) (offs : list (Z * Z)) (img : list Z) :
  Forall (fun z => z = 0) img -> Forall (fun z => z = 0) (dilate_once h w offs img).
Proof.
  intros Himg. unfold dilate_once. apply Forall_fmap, Forall_forall.
  intros j _. simpl. unfold dilate_pixel. apply foldr_max_zero.
  apply Forall_fmap, Forall_forall. intros o _. simpl. by apply pixel_zero.
Qed.

Lemma dilate_plane_zero (h w it : nat) (m : list Q) :
  Forall (fun x => x = 0%Q) m -> Forall (fun x => x = 0%Q) (dilate_plane h w it m).
Proof.
  intros Hm. unfold dilate_plane. apply Forall_fmap.
  assert (H : Forall (fun z => z = 0)
                (cv2_dilate h w (astype_uint8 <$> m) (np_ones 2 2) it)).
  { unfold cv2_dilate. induction it as [|it IH]; simpl.
    - apply Forall_fmap. eapply Forall_impl; [exact Hm|]. by intros x ->.
    - by apply dilate_once_zero. }
  eapply Forall_impl; [exact H|]. by intros z ->.
Qed.

(** X6: the grower creates nothing out of nothing: on an all-zero mask
    that is a stack of planes, [dilate_mask], with any number of iterations,
    returns an all-zero mask of the same size. *)
Theorem dilate_mask_of_empty_mask (mask : Tensor) (iterations : nat) (w : World)
    (d : list Q) (n h w1 : nat) :
  mem w !! t_buf mask = Some d -> planes (t_shape mask) n h w1 ->
  length d = numel (t_shape mask) -> Forall (fun x => x = 0%Q) d ->
  exists r w' d',
    dilate_mask mask iterations w = (Ok r, w') /\
    mem w' !! t_buf r = Some d' /\
    length d' = length d /\ Forall (fun x => x = 0%Q) d'.
Proof.
  intros Hd Hp Hlen Hz. rewrite (dilate_mask_ok _ _ _ _ _ _ _ Hd (planes_stack _ _ _ _ Hp)).
  rewrite (planes_numel _ _ _ _ Hp) in Hlen.
  eexists _, _, _. split; [reflexivity|]. simpl.
  split; [apply lookup_pair_snd|].
  assert (Hb : Forall binary d) by (eapply Forall_impl; [exact Hz|]; by left).
  split; [by apply dilate_data_spec|].
  rewrite dilate_data_concat by done.
  apply Forall_concat, Forall_fmap, Forall_forall. intros k _. simpl.
  apply dilate_plane_zero. unfold slice. by apply Forall_take, Forall_drop.
Qed.

Lemma dilate_mask_of_empty_mask_witness :
  exists r w' d',
    dilate_mask scenario_mask 3 {| mem := [replicate 32 0%Q]; grow_calls := 0 |} = (Ok r, w') /\
    mem w' !! t_buf r = Some d' /\
    length d' = length (replicate 32 0%Q) /\ Forall (fun x => x = 0%Q) d'.
Proof.
  apply (dilate_mask_of_empty_mask scenario_mask 3 _ (replicate 32 0%Q) 2 2 8).
  - reflexivity.
  - apply scenario_planes.
  - reflexivity.
  - by apply Forall_replicate.
Defined.

Lemma dilate_plane_no_iteration (h w : nat) (m : list Q) :
  Forall binary m -> dilate_plane h w 0 m = m.
Proof.
  intros Hm. unfold dilate_plane, cv2_dilate. simpl.
  induction Hm as [|x l Hx _ IH]; [done|].
  rewrite !fmap_cons, IH. f_equal. by destruct Hx as [->| ->].
Qed.

(** X7: with [iterations = 0] the grower does not grow: on a binary mask
    that is a stack of planes, [dilate_mask(mask, 0)] returns a copy of the
    mask, in a buffer of its own and with the same samples. *)
Theorem dilate_mask_no_iteration (mask : Tensor) (w : World) (d : list Q) (n h w1 : nat) :
  mem w !! t_buf mask = Some d -> planes (t_shape mask) n h w1 ->
  length d = numel (t_shape mask) -> Forall binary d ->
  exists r w',
    dilate_mask mask 0 w = (Ok r, w') /\
    t_buf r <> t_buf mask /\ mem w' !! t_buf r = Some d /\
    mem w' !! t_buf mask = Some d.
Proof.
  intros Hd Hp Hlen Hb. rewrite (dilate_mask_ok _ _ _ _ _ _ _ Hd (planes_stack _ _ _ _ Hp)).
  rewrite (planes_numel _ _ _ _ Hp) in Hlen.
  eexists _, _. split; [reflexivity|]. simpl.
  pose proof (lookup_lt_Some _ _ _ Hd) as Hlt.
  split; [lia|]. split; [|by apply lookup_app_l_Some].
  rewrite lookup_pair_snd. f_equal.
  rewrite dilate_data_concat by done.
  etrans; [|symmetry; apply (concat_slices (h * w1) n d Hlen)].
  f_equal. apply list_fmap_ext. intros j k Hk. simpl.
  apply dilate_plane_no_iteration. unfold slice. by apply Forall_take, Forall_drop.
Qed.

Lemma dilate_mask_no_iteration_witness :
  exists r w',
    dilate_mask scenario_mask 0 scenario_world = (Ok r, w') /\
    t_buf r <> t_buf scenario_mask /\ mem w' !! t_buf r = Some scenario_data /\
    mem w' !! t_buf scenario_mask = Some scenario_data.
Proof.
  apply (dilate_mask_no_iteration scenario_mask scenario_world scenario_data 2 2 8).
  - reflexivity.
  - apply scenario_planes.
  - reflexivity.
  - apply scenario_data_binary.
Defined.

(** ** The shape of what [update] returns *)

(** X8: on a scheduler whose masks are binary, with [old_mask] a subset of
    [new_mask], and are stacks of planes or of lines, a call of [update]
    returns or raises a Python exception, and a mask it returns has the
    shape of the masks of the scheduler, and as many samples as that shape
    holds; the shape of the scheduler's masks is not changed by the call. *)
Theorem update_returns_mask_shape (s : State) (iiter : Z) (u : nat -> Q) (n h w1 : nat) :
  mask_inv s -> stack (t_shape (new_mask (self s))) n h w1 ->
  fst (update iiter u s) <> Stuck /\
  t_shape (new_mask (self (snd (update iiter u s)))) = t_shape (new_mask (self s)) /\
  forall r s',
    update iiter u s = (Ok r, s') ->
    t_shape r = t_shape (new_mask (self s)) /\
    t_shape (old_mask (self s')) = t_shape (new_mask (self s)) /\
    exists d, mem (world s') !! t_buf r = Some d /\
              length d = numel (t_shape (new_mask (self s))).
Proof.
  intros Hinv Hp. split; [by eapply update_not_stuck|]. split; [apply update_shape|].
  intros r s' E.
  pose proof (update_inv iiter u s Hinv) as Hinv'. rewrite E in Hinv'. simpl in Hinv'.
  destruct (update_fields iiter u s)
    as (o & s'' & E' & _ & _ & _ & _ & _ & _ & _ & Hsh & _).
  rewrite E in E'. injection E' as <- <-.
  destruct Hinv' as (d_old' & d_new' & Ho' & Hn' & Hsh' & Hlen' & _ & _ & Hsub').
  pose proof (Forall2_length _ _ _ Hsub') as Hl.
  destruct (Z.le_gt_cases iiter (threshold (self s))) as [Hle|Hgt].
  - rewrite update_warmup in E by done. injection E as <- <-.
    repeat split; try congruence. exists d_old'. split; [done|]. congruence.
  - destruct (update_ok_content iiter u s r s' Hinv Hgt E)
      as (d_old & d_new & Ho & Hn & _ & _ & _ & Hr & Hshr).
    rewrite Ho' in Ho. injection Ho as <-. rewrite Hn' in Hn. injection Hn as <-.
    repeat split; try congruence.
    eexists. split; [exact Hr|]. rewrite reveal_data_length by done. congruence.
Qed.

Lemma update_returns_mask_shape_witness :
  exists r s',
    update 12 keep_all line_start = (Ok r, s') /\
    t_shape r = [2; 8]%nat /\
    exists d, mem (world s') !! t_buf r = Some d /\ length d = 16%nat.
Proof.
  eexists _, _. split; [vm_compute; reflexivity|].
  destruct (update_returns_mask_shape line_start 12 keep_all 2 8 1
              line_start_inv line_stack) as (_ & _ & H).
  destruct (H _ _ ltac:(vm_compute; reflexivity)) as (H1 & _ & d & H2 & H3).
  split; [exact H1|]. by exists d.
Defined.

(** * Properties of [EarlyStopping] *)

Lemma f_lt_nan_r (a : np_float) : f_lt a NaN = false.
Proof. by destruct a. Qed.

Lemma f_lt_nan_l (a : np_float) : f_lt NaN a = false.
Proof. done. Qed.

Lemma is_better_nan_best (self : EarlyStopping.t) (a : np_float) :
  EarlyStopping.patience self <> 0 -> EarlyStopping.is_better self a NaN = false.
Proof.
  intros Hp. unfold EarlyStopping.is_better.
  apply Z.eqb_neq in Hp. rewrite Hp.
  destruct (EarlyStopping.percentage self), (EarlyStopping.mode self); simpl;
    by destruct a.
Qed.

(** X9: an object built with [patience = 0] never asks to stop: every
    call of [step] answers [False] and leaves the object as it was, so
    [best] is never recorded. *)
Theorem patience_zero_never_stops (self : EarlyStopping.t) (ms : list np_float) :
  EarlyStopping.patience self = 0 ->
  EarlyStopping.steps self ms = (replicate (length ms) false, self).
Proof.
  intros Hp. induction ms as [|m ms IH]; [done|].
  simpl. unfold EarlyStopping.step at 1. rewrite Hp. simpl. by rewrite IH.
Qed.

Lemma patience_zero_never_stops_witness :
  EarlyStopping.steps (EarlyStopping.init 0 false 0 false) [Fin 3; NaN; Fin 1]
  = (replicate 3 false, EarlyStopping.init 0 false 0 false).
Proof.
  apply (patience_zero_never_stops (EarlyStopping.init 0 false 0 false) [Fin 3; NaN; Fin 1]).
  reflexivity.
Defined.

(** X10: once a first metric has been recorded, a NaN metric makes [step]
    answer [True] at once, without touching [best] or the counter of bad
    epochs (for a non-zero patience). *)
Theorem nan_metric_stops (self : EarlyStopping.t) (b : np_float) :
  EarlyStopping.patience self <> 0 -> EarlyStopping.best self = Some b ->
  EarlyStopping.step self NaN = (true, self).
Proof.
  intros Hp Hb. unfold EarlyStopping.step.
  apply Z.eqb_neq in Hp. by rewrite Hp, Hb.
Qed.

Lemma nan_metric_stops_witness :
  let self := snd (EarlyStopping.step (EarlyStopping.init 10 false 0 false) (Fin 3)) in
  EarlyStopping.step self NaN = (true, self).
Proof.
  apply (nan_metric_stops _ (Fin 3)); [discriminate|reflexivity].
Defined.

Lemma step_not_better (self : EarlyStopping.t) (b m : np_float) :
  EarlyStopping.patience self <> 0 -> EarlyStopping.best self = Some b ->
  isnan m = false -> EarlyStopping.is_better self m b = false ->
  EarlyStopping.step self m
  = (EarlyStopping.patience self <=? EarlyStopping.num_bad_epochs self + 1,
     EarlyStopping.set_num_bad_epochs (EarlyStopping.num_bad_epochs self + 1) self).
Proof.
  intros Hp Hb Hm Hnb. unfold EarlyStopping.step.
  apply Z.eqb_neq in Hp. rewrite Hp, Hb, Hm, Hnb. simpl.
  rewrite Z.geb_leb. by destruct (_ <=? _).
Qed.

Lemma steps_bad_epochs (self : EarlyStopping.t) (b : np_float) (ms : list np_float) :
  EarlyStopping.patience self <> 0 -> EarlyStopping.best self = Some b ->
  Forall (fun m => isnan m = false /\ EarlyStopping.is_better self m b = false) ms ->
  EarlyStopping.steps self ms
  = ((fun i : nat => EarlyStopping.patience self
                     <=? EarlyStopping.num_bad_epochs self + Z.of_nat i + 1)
       <$> seq 0 (length ms),
     EarlyStopping.set_num_bad_epochs
       (EarlyStopping.num_bad_epochs self + Z.of_nat (length ms)) self).
Proof.
  intros Hp Hb Hms. revert self Hp Hb Hms.
  induction ms as [|m ms IH]; intros self Hp Hb Hms.
  - simpl. rewrite Z.add_0_r. by destruct self.
  - apply Forall_cons in Hms as [[Hm Hnb] Hms].
    cbn [EarlyStopping.steps]. rewrite (step_not_better self b m) by done.
    rewrite IH; [| done | done |].
    + cbn [length seq fmap list_fmap]. f_equal.
      * f_equal; [f_equal; simpl; lia|].
        rewrite <- fmap_S_seq, <- list_fmap_compose.
        apply list_fmap_ext. intros i j _. simpl. f_equal. lia.
      * unfold EarlyStopping.set_num_bad_epochs. simpl. f_equal. lia.
    + eapply Forall_impl; [exact Hms|]. intros x [? ?]. split; [done|].
      by destruct self.
Qed.

(** X11: the counting of bad epochs: from an object with best metric [b]
    and [c] bad epochs, a sequence of metrics none of which is NaN or better
    than [b] gets the answer [True] exactly at the calls that bring the
    counter to [patience] or more (call number [i], counted from 0, answers
    [patience <= c + i + 1]); [best] is unchanged and the counter has grown
    by the number of calls. *)
Theorem bad_epochs_are_counted (self : EarlyStopping.t) (b : np_float) (ms : list np_float) :
  EarlyStopping.patience self <> 0 -> EarlyStopping.best self = Some b ->
  Forall (fun m => isnan m = false /\ EarlyStopping.is_better self m b = false) ms ->
  EarlyStopping.steps self ms
  = ((fun i : nat => EarlyStopping.patience self
                     <=? EarlyStopping.num_bad_epochs self + Z.of_nat i + 1)
       <$> seq 0 (length ms),
     EarlyStopping.set_num_bad_epochs
       (EarlyStopping.num_bad_epochs self + Z.of_nat (length ms)) self).
Proof. apply steps_bad_epochs. Qed.

Lemma bad_epochs_are_counted_witness :
  let self := snd (EarlyStopping.step (EarlyStopping.init 3 false 0 false) (Fin 1)) in
  EarlyStopping.steps self [Fin 2; Fin 1; Fin 5; Fin 4]
  = ([false; false; true; true],
     EarlyStopping.set_num_bad_epochs 4 self).
Proof.
  apply (bad_epochs_are_counted
           (snd (EarlyStopping.step (EarlyStopping.init 3 false 0 false) (Fin 1)))
           (Fin 1) [Fin 2; Fin 1; Fin 5; Fin 4]).
  - discriminate.
  - reflexivity.
  - repeat (constructor; [by split|]). constructor.
Defined.

Lemma step_snd_finite (self : EarlyStopping.t) (b : np_float) (m : Q) :
  EarlyStopping.patience self <> 0 -> EarlyStopping.best self = Some b ->
  snd (EarlyStopping.step self (Fin m))
  = if EarlyStopping.is_better self (Fin m) b
    then EarlyStopping.set_best (Fin m) (EarlyStopping.set_num_bad_epochs 0 self)
    else EarlyStopping.set_num_bad_epochs (EarlyStopping.num_bad_epochs self + 1) self.
Proof.
  intros Hp Hb. unfold EarlyStopping.step.
  apply Z.eqb_neq in Hp. rewrite Hp, Hb. simpl.
  by destruct (EarlyStopping.is_better self (Fin m) b); simpl; destruct (_ >=? _).
Qed.

Lemma Qle_bool_proper_l (x x' y : Q) : (x == x')%Q -> Qle_bool x y = Qle_bool x' y.
Proof.
  intros E. destruct (Qle_bool x y) eqn:E1, (Qle_bool x' y) eqn:E2; try done.
  - apply Qle_bool_iff in E1. rewrite E in E1. apply Qle_bool_iff in E1. congruence.
  - apply Qle_bool_iff in E2. rewrite <- E in E2. apply Qle_bool_iff in E2. congruence.
Qed.

Lemma is_better_min_zero_delta (self : EarlyStopping.t) (m b : Q) :
  EarlyStopping.patience self <> 0 ->
  EarlyStopping.mode self = EarlyStopping.mode_min ->
  (EarlyStopping.min_delta self == 0)%Q ->
  EarlyStopping.is_better self (Fin m) (Fin b) = negb (Qle_bool b m).
Proof.
  intros Hp Hm Hd. unfold EarlyStopping.is_better.
  apply Z.eqb_neq in Hp. rewrite Hp, Hm.
  destruct (EarlyStopping.percentage self); simpl; f_equal;
    apply Qle_bool_proper_l; unfold q_sub, q_div, q_mul;
    rewrite !Qred_correct, Hd; field.
Qed.

Lemma steps_snd_app (self : EarlyStopping.t) (m : np_float) (ms : list np_float) :
  snd (EarlyStopping.steps self (m :: ms))
  = snd (EarlyStopping.steps (snd (EarlyStopping.step self m)) ms).
Proof.
  simpl. destruct (EarlyStopping.step self m) as [b self1]. simpl.
  by destruct (EarlyStopping.steps self1 ms).
Qed.

Lemma running_minimum_inv (qs seen : list Q) (self : EarlyStopping.t) (b : Q) :
  EarlyStopping.patience self <> 0 ->
  EarlyStopping.mode self = EarlyStopping.mode_min ->
  (EarlyStopping.min_delta self == 0)%Q ->
  EarlyStopping.best self = Some (Fin b) ->
  In b seen -> Forall (Qle b) seen ->
  exists b',
    EarlyStopping.best (snd (EarlyStopping.steps self (Fin <$> qs))) = Some (Fin b') /\
    In b' (seen ++ qs) /\ Forall (Qle b') (seen ++ qs).
Proof.
  revert seen self b. induction qs as [|m qs IH]; intros seen self b Hp Hm Hd Hb Hin Hall.
  - exists b. simpl. by rewrite app_nil_r.
  - rewrite fmap_cons, steps_snd_app, (step_snd_finite self (Fin b) m Hp Hb).
    rewrite (is_better_min_zero_delta self m b Hp Hm Hd).
    replace (seen ++ m :: qs) with ((seen ++ [m]) ++ qs) by (by rewrite <- app_assoc).
    destruct (Qle_bool b m) eqn:E; simpl.
    + apply Qle_bool_iff in E.
      apply (IH (seen ++ [m]) _ b); try done.
      * apply in_or_app. by left.
      * apply Forall_app. split; [done|]. by constructor.
    + assert (Hlt : (m < b)%Q).
      { apply Qnot_le_lt. intros H. apply Qle_bool_iff in H. congruence. }
      apply (IH (seen ++ [m]) _ m); try done.
      * apply in_or_app. right. by left.
      * apply Forall_app. split.
        -- eapply Forall_impl; [exact Hall|]. intros x Hx. simpl in Hx.
           apply Qlt_le_weak. by eapply Qlt_le_trans.
        -- constructor; [apply Qle_refl|constructor].
Qed.

(** X12: in [min] mode with [min_delta = 0], with or without
    [percentage], [best] is the running minimum: after a sequence of finite
    metrics fed to a new object, [best] is one of them and no metric of the
    sequence is below it. *)
Theorem best_is_running_minimum (p : Z) (delta : Q) (pc : bool) (m0 : Q) (qs : list Q) :
  p <> 0 -> (delta == 0)%Q ->
  exists b,
    EarlyStopping.best
      (snd (EarlyStopping.steps (EarlyStopping.init p false delta pc) (Fin <$> m0 :: qs)))
    = Some (Fin b) /\
    In b (m0 :: qs) /\ Forall (Qle b) (m0 :: qs).
Proof.
  intros Hp Hd. rewrite fmap_cons, steps_snd_app.
  assert (E : snd (EarlyStopping.step (EarlyStopping.init p false delta pc) (Fin m0))
              = EarlyStopping.set_best (Fin m0) (EarlyStopping.init p false delta pc)).
  { unfold EarlyStopping.step. simpl. apply Z.eqb_neq in Hp. by rewrite Hp. }
  rewrite E.
  apply (running_minimum_inv qs [m0] _ m0); try done.
  - by left.
  - constructor; [apply Qle_refl|constructor].
Qed.

Lemma best_is_running_minimum_witness :
  exists b,
    EarlyStopping.best
      (snd (EarlyStopping.steps (EarlyStopping.init 10 false 0 true)
              (Fin <$> 3%Q :: [5%Q; 2%Q; 4%Q])))
    = Some (Fin b) /\
    In b (3%Q :: [5%Q; 2%Q; 4%Q]) /\ Forall (Qle b) (3%Q :: [5%Q; 2%Q; 4%Q]).
Proof.
  apply (best_is_running_minimum 10 0 true 3 [5%Q; 2%Q; 4%Q]); [discriminate|reflexivity].
Defined.

(** X13: a NaN first metric is recorded as [best] and poisons it: no later
    metric compares as better, so whatever finite metrics follow, [best]
    stays NaN and the stop is asked for exactly from the call that brings
    the count of later calls to [patience]. *)
Theorem nan_first_metric_poisons (p : Z) (mx : bool) (delta : Q) (pc : bool)
    (ms : list np_float) :
  p <> 0 -> Forall (fun m => isnan m = false) ms ->
  EarlyStopping.steps (EarlyStopping.init p mx delta pc) (NaN :: ms)
  = (false :: ((fun i : nat => p <=? Z.of_nat i + 1) <$> seq 0 (length ms)),
     EarlyStopping.set_num_bad_epochs (Z.of_nat (length ms))
       (EarlyStopping.set_best NaN (EarlyStopping.init p mx delta pc))).
Proof.
  intros Hp Hms. cbn [EarlyStopping.steps].
  assert (E : EarlyStopping.step (EarlyStopping.init p mx delta pc) NaN
              = (false, EarlyStopping.set_best NaN (EarlyStopping.init p mx delta pc))).
  { unfold EarlyStopping.step. simpl. apply Z.eqb_neq in Hp. by rewrite Hp. }
  rewrite E.
  rewrite (steps_bad_epochs _ NaN ms); [done|done|done|].
  eapply Forall_impl; [exact Hms|]. intros m Hm. split; [done|].
  by apply is_better_nan_best.
Qed.

Lemma nan_first_metric_poisons_witness :
  EarlyStopping.steps (EarlyStopping.init 2 false 0 false) (NaN :: [Fin 1; Fin 0; Fin (-1)])
  = (false :: ((fun i : nat => 2 <=? Z.of_nat i + 1) <$> seq 0 3),
     EarlyStopping.set_num_bad_epochs 3
       (EarlyStopping.set_best NaN (EarlyStopping.init 2 false 0 false))).
Proof.
  apply (nan_first_metric_poisons 2 false 0 false [Fin 1; Fin 0; Fin (-1)]).
  - discriminate.
  - by repeat constructor.
Defined.

(** * Properties of [bool2bin] *)

Lemma bool2bin_pointwise (in_content : list np_float) (logic : bool) :
  bool2bin in_content logic
  = (fun x => if isnan x then (if logic then Fin 0 else Fin 1)
              else (if logic then Fin 1 else Fin 0)) <$> in_content.
Proof.
  unfold bool2bin, setitem_mask.
  induction in_content as [|x l IH]; [done|].
  rewrite !fmap_cons. cbn [zip_with]. rewrite !fmap_cons. cbn [zip_with].
  f_equal; [|exact IH].
  by destruct x, logic.
Qed.

(** X15: [bool2bin] marks the NaN positions and nothing else: the
    output has the length of the input, holds no NaN, and at every position
    it is, with [logic = True], 1 where the input is a number and 0 where it
    is NaN, and with [logic = False] the opposite. The second assignment
    never undoes the first one. *)
Theorem bool2bin_marks_nan (in_content : list np_float) (logic : bool) :
  length (bool2bin in_content logic) = length in_content /\
  Forall (fun y => isnan y = false) (bool2bin in_content logic) /\
  forall (i : nat) (x : np_float), in_content !! i = Some x ->
    bool2bin in_content logic !! i
    = Some (Fin (if Bool.eqb (isnan x) logic then 0 else 1)).
Proof.
  rewrite bool2bin_pointwise. split; [by rewrite length_fmap|]. split.
  - apply Forall_fmap, Forall_true. intros x. simpl. by destruct (isnan x), logic.
  - intros i x Hx. rewrite list_lookup_fmap, Hx. simpl.
    by destruct (isnan x), logic.
Qed.

(** X16: [bool2bin] is not idempotent: as its output holds no NaN, a
    second application sees only numbers and returns the constant array
    (all 1 with [logic = True], all 0 with [logic = False]), whatever the
    input was. *)
Theorem bool2bin_twice_is_constant (in_content : list np_float) (logic : bool) :
  bool2bin (bool2bin in_content logic) logic
  = replicate (length in_content) (if logic then Fin 1 else Fin 0).
Proof.
  rewrite !bool2bin_pointwise.
  induction in_content as [|x l IH]; [done|].
  rewrite !fmap_cons. cbn [length replicate]. f_equal; [|exact IH].
  by destruct (isnan x), logic.
Qed.

Lemma bool2bin_marks_nan_witness :
  bool2bin [Fin 3; NaN; Fin 0] true !! 1%nat = Some (Fin 0).
Proof.
  exact (proj2 (proj2 (bool2bin_marks_nan [Fin 3; NaN; Fin 0] true)) 1%nat NaN eq_refl).
Defined.

(** * Properties of [get_params] *)

Lemma str_split_nonempty (sep : Ascii.ascii) (s : string) : str_split sep s <> [].
Proof.
  destruct s as [|c s]; simpl; [done|].
  destruct (Ascii.eqb c sep); [done|]. by destruct (str_split sep s).
Qed.

Lemma str_split_app (sep : Ascii.ascii) (s1 s2 : string) :
  str_split sep (s1 +:+ String sep s2) = str_split sep s1 ++ str_split sep s2.
Proof.
  induction s1 as [|c s1 IH]; simpl.
  - by rewrite Ascii.eqb_refl.
  - rewrite IH. destruct (Ascii.eqb c sep); [done|].
    pose proof (str_split_nonempty sep s1) as Hne.
    by destruct (str_split sep s1).
Qed.

Lemma get_params_loop_app {P : Type} (net : list P) (net_input : P)
    (downsampler : option (list P)) (l1 l2 : list string) (params : list P) (rg : bool) :
  get_params_loop net net_input downsampler (l1 ++ l2) params rg
  = match get_params_loop net net_input downsampler l1 params rg with
    | (Returns params1, rg1) => get_params_loop net net_input downsampler l2 params1 rg1
    | (Raises e, rg1) => (Raises e, rg1)
    end.
Proof.
  revert params rg. induction l1 as [|opt l1 IH]; intros params rg; [done|].
  cbn [app get_params_loop].
  destruct (String.eqb opt "net"); [apply IH|].
  destruct (String.eqb opt "down"); [destruct downsampler; [apply IH|done]|].
  destruct (String.eqb opt "input"); [apply IH|done].
Qed.

Lemma get_params_loop_returns {P : Type} (net : list P) (net_input : P)
    (downsampler : option (list P)) (l : list string) (params : list P) (rg : bool) :
  Forall (known_option downsampler) l ->
  exists params', fst (get_params_loop net net_input downsampler l params rg) = Returns params'.
Proof.
  intros Hl. revert params rg. induction Hl as [|opt l Hopt _ IH]; intros params rg.
  - by exists params.
  - cbn [get_params_loop].
    destruct Hopt as [->|[->|[-> Hd]]]; simpl.
    + apply IH.
    + apply IH.
    + destruct downsampler; [apply IH|done].
Qed.

Lemma get_params_loop_raises {P : Type} (net : list P) (net_input : P)
    (downsampler : option (list P)) (l : list string) (params : list P) (rg : bool) :
  ~ Forall (known_option downsampler) l ->
  fst (get_params_loop net net_input downsampler l params rg) = Raises AssertionError.
Proof.
  revert params rg. induction l as [|opt l IH]; intros params rg Hl.
  - by destruct Hl.
  - cbn [get_params_loop].
    destruct (String.eqb_spec opt "net") as [->|Hn].
    { apply IH. intros H. apply Hl. constructor; [by left|done]. }
    destruct (String.eqb_spec opt "down") as [->|Hdn].
    { destruct downsampler as [d|]; [|done].
      apply IH. intros H. apply Hl. constructor; [|done]. right; right. by split. }
    destruct (String.eqb_spec opt "input") as [->|Hi].
    { apply IH. intros H. apply Hl. constructor; [|done]. right; by left. }
    done.
Qed.

(** X17: [get_params] returns exactly when every piece of
    [opt_over.split(',')] is ['net'], ['input'] or, with a downsampler
    given, ['down']; in every other case it raises [AssertionError], and it
    raises nothing else. So the empty string, a trailing comma and a blank
    after a comma are all refused. *)
Theorem get_params_accepts_known_options {P : Type} (opt_over : string) (net : list P)
    (net_input : P) (downsampler : option (list P)) (rg : bool) :
  (Forall (known_option downsampler) (str_split "," opt_over) ->
   exists params, fst (get_params opt_over net net_input downsampler rg) = Returns params) /\
  (~ Forall (known_option downsampler) (str_split "," opt_over) ->
   fst (get_params opt_over net net_input downsampler rg) = Raises AssertionError).
Proof.
  split; intros H.
  - by apply get_params_loop_returns.
  - by apply get_params_loop_raises.
Qed.

Lemma known_option_chars {P : Type} (downsampler : option (list P)) (opt : string) :
  known_option downsampler opt -> opt <> "" /\ opt <> " input" /\ opt <> "Net".
Proof. by intros [->|[->|[-> _]]]. Qed.

Lemma get_params_accepts_known_options_witness :
  (exists params, fst (get_params "net,input" [1%nat; 2%nat] 7%nat None false) = Returns params) /\
  fst (get_params "" [1%nat; 2%nat] 7%nat None false) = Raises AssertionError /\
  fst (get_params "net," [1%nat; 2%nat] 7%nat None false) = Raises AssertionError /\
  fst (get_params "net, input" [1%nat; 2%nat] 7%nat None false) = Raises AssertionError /\
  fst (get_params "net,down" [1%nat; 2%nat] 7%nat None false) = Raises AssertionError.
Proof.
  split; [|split; [|split; [|split]]].
  - apply (get_params_accepts_known_options "net,input" [1%nat; 2%nat] 7%nat None false).
    simpl. constructor; [by left|]. constructor; [right; by left|]. constructor.
  - apply (get_params_accepts_known_options "" [1%nat; 2%nat] 7%nat None false).
    simpl. intros H. inversion_clear H as [|? ? H1 _].
    by destruct (known_option_chars _ _ H1).
  - apply (get_params_accepts_known_options "net," [1%nat; 2%nat] 7%nat None false).
    simpl. intros H. inversion_clear H as [|? ? _ H2]. inversion_clear H2 as [|? ? H1 _].
    by destruct (known_option_chars _ _ H1).
  - apply (get_params_accepts_known_options "net, input" [1%nat; 2%nat] 7%nat None false).
    simpl. intros H. inversion_clear H as [|? ? _ H2]. inversion_clear H2 as [|? ? H1 _].
    by destruct (known_option_chars _ _ H1) as (_ & ? & _).
  - apply (get_params_accepts_known_options "net,down" [1%nat; 2%nat] 7%nat None false).
    simpl. intros H. inversion_clear H as [|? ? _ H2]. inversion_clear H2 as [|? ? H1 _].
    by destruct H1 as [?|[?|[_ ?]]].
Defined.

Lemma get_params_loop_down {P : Type} (net : list P) (net_input : P) (d : list P)
    (s : string) (params1 params2 : list P) (rg : bool) :
  get_params_loop net net_input (Some d) (str_split "," ("down" +:+ s)) params1 rg
  = get_params_loop net net_input (Some d) (str_split "," ("down" +:+ s)) params2 rg.
Proof.
  change ("down" +:+ s) with (String "d" (String "o" (String "w" (String "n" s)))).
  cbn [str_split]. simpl.
  pose proof (str_split_nonempty "," s) as Hne.
  destruct (str_split "," s) as [|t ts]; [done|].
  cbn [get_params_loop]. simpl. by destruct t.
Qed.

Lemma get_params_loop_flag {P : Type} (net : list P) (net_input : P)
    (downsampler : option (list P)) (l : list string) (params : list P) :
  snd (get_params_loop net net_input downsampler l params true) = true.
Proof.
  revert params. induction l as [|opt l IH]; intros params; [done|].
  cbn [get_params_loop].
  destruct (String.eqb opt "net"); [apply IH|].
  destruct (String.eqb opt "down"); [destruct downsampler; [apply IH|done]|].
  destruct (String.eqb opt "input"); [apply IH|done].
Qed.

(** X18: the option ['down'] replaces the list instead of extending
    it: whatever was selected before it is dropped from the result. For an
    accepted [s1], [get_params(s1 + ',down' + s2)] gives the outcome of
    [get_params('down' + s2)]; only the attribute [requires_grad] written
    by an ['input'] of [s1] remains. *)
Theorem down_discards_earlier_options {P : Type} (s1 s2 : string) (net : list P)
    (net_input : P) (d : list P) (rg : bool) :
  (exists params, fst (get_params s1 net net_input (Some d) rg) = Returns params) ->
  get_params (s1 +:+ ",down" +:+ s2) net net_input (Some d) rg
  = get_params ("down" +:+ s2) net net_input (Some d)
      (snd (get_params s1 net net_input (Some d) rg)).
Proof.
  intros [params Hs1]. unfold get_params in *.
  change (",down" +:+ s2) with (String "," ("down" +:+ s2)).
  rewrite str_split_app, get_params_loop_app.
  destruct (get_params_loop net net_input (Some d) (str_split "," s1) [] rg)
    as [[params1|e] rg1]; [|done].
  simpl snd. apply get_params_loop_down.
Qed.

Lemma down_discards_earlier_options_witness :
  get_params "net,input,down,net" [1%nat; 2%nat] 7%nat (Some [5%nat]) false
  = (Returns [5%nat; 1%nat; 2%nat], true).
Proof.
  change "net,input,down,net" with ("net,input" +:+ ",down" +:+ ",net").
  rewrite (down_discards_earlier_options "net,input" ",net" [1%nat; 2%nat] 7%nat
             [5%nat] false).
  - reflexivity.
  - by eexists.
Defined.

(** X19: the option ['input'] sets [net_input.requires_grad] before
    the remaining options are looked at, and nothing clears it: when the
    pieces before an ['input'] are accepted, the attribute is [True] after
    the call whatever follows, also when a later piece makes the call raise
    [AssertionError]. *)
Theorem input_option_persists {P : Type} (opt_over : string) (pre post : list string)
    (net : list P) (net_input : P) (downsampler : option (list P)) (rg : bool) :
  str_split "," opt_over = pre ++ "input" :: post ->
  Forall (known_option downsampler) pre ->
  snd (get_params opt_over net net_input downsampler rg) = true.
Proof.
  intros Hs Hpre. unfold get_params. rewrite Hs, get_params_loop_app.
  destruct (get_params_loop_returns net net_input downsampler pre [] rg Hpre) as [ps Hps].
  destruct (get_params_loop net net_input downsampler pre [] rg) as [[params1|e] rg1];
    [|done].
  cbn [get_params_loop]. simpl. apply get_params_loop_flag.
Qed.

Lemma input_option_persists_witness :
  get_params "net,input,oops" [1%nat; 2%nat] 7%nat None false
  = (Raises AssertionError, true) /\
  snd (get_params "net,input,oops" [1%nat; 2%nat] 7%nat None false) = true.
Proof.
  split; [reflexivity|].
  apply (input_option_persists "net,input,oops" ["net"] ["oops"] [1%nat; 2%nat] 7%nat None false).
  - reflexivity.
  - constructor; [by left|constructor].
Defined.

(** * Properties of [build_noise_tensor] *)

Lemma get_noise_returns (shape : list Z) (noise_type : string) (rnd : nat -> Q)
    (x : noise_tensor) :
  get_noise shape noise_type rnd = Returns x ->
  n_shape x = shape /\ Forall (fun d => 0 <= d) shape /\
  length (n_data x) = numel (Z.to_nat <$> shape) /\
  (noise_type = "u" \/ noise_type = "n" \/ noise_type = "c").
Proof.
  unfold get_noise. destruct (forallb _ shape) eqn:Hs; [|done].
  assert (Hshape : Forall (fun d => 0 <= d) shape).
  { apply Forall_forall. intros d Hd. apply list_elem_of_In in Hd.
    rewrite forallb_forall in Hs. specialize (Hs d Hd). lia. }
  intros H.
  assert (Hx : x = mkNoise shape
                 (imap (fun i _ => Qred (rnd i)) (replicate (numel (Z.to_nat <$> shape)) 0%Q))
               /\ (noise_type = "u" \/ noise_type = "n" \/ noise_type = "c")).
  { simpl in H.
    destruct (String.eqb_spec noise_type "u"); [split; [congruence|by left]|].
    destruct (String.eqb_spec noise_type "n"); [split; [congruence|right; by left]|].
    destruct (String.eqb_spec noise_type "c"); [split; [congruence|right; by right]|].
    done. }
  destruct Hx as [-> Ht]. simpl. repeat split; auto.
  by rewrite length_imap, length_replicate.
Qed.

Lemma get_noise_negative (shape : list Z) (noise_type : string) (rnd : nat -> Q) (d : Z) :
  d ∈ shape -> d < 0 -> get_noise shape noise_type rnd = Raises RuntimeError.
Proof.
  intros Hd Hneg. unfold get_noise.
  destruct (forallb _ shape) eqn:Hs; [|done].
  rewrite forallb_forall in Hs. apply list_elem_of_In in Hd. specialize (Hs d Hd). lia.
Qed.

Lemma get_noise_unknown_type (shape : list Z) (noise_type : string) (rnd : nat -> Q) :
  Forall (fun d => 0 <= d) shape ->
  noise_type <> "u" -> noise_type <> "n" -> noise_type <> "c" ->
  get_noise shape noise_type rnd = Raises (Builtin ValueError).
Proof.
  intros Hs Hu Hn Hc. unfold get_noise.
  assert (E : forallb (fun d => 0 <=? d) shape = true).
  { apply forallb_forall. intros d Hd. apply list_elem_of_In in Hd.
    rewrite Forall_forall in Hs. specialize (Hs d Hd). lia. }
  rewrite E. simpl.
  apply String.eqb_neq in Hu, Hn, Hc. by rewrite Hu, Hn, Hc.
Qed.

(** X20: with the default method ['noise'], a call of
    [build_noise_tensor] that returns gives a tensor of shape
    [(1, input_depth, s0, s1)], where [s0 = s1 = spatial_size] for an [int]
    and [s0, s1] are the first two entries of a sequence (further entries
    are ignored); no dimension is negative and the tensor holds
    [input_depth * s0 * s1] elements. *)
Theorem build_noise_tensor_noise_shape (input_depth : Z) (spatial_size : spatial)
    (noise_type : string) (var : Q) (rnd : nat -> Q) (x : noise_tensor) :
  build_noise_tensor input_depth spatial_size "noise" noise_type var rnd = Returns x ->
  exists s0 s1,
    (spatial_size = SizeInt s0 /\ s1 = s0 \/ exists t, spatial_size = SizeSeq (s0 :: s1 :: t)) /\
    n_shape x = [1; input_depth; s0; s1] /\
    0 <= input_depth /\ 0 <= s0 /\ 0 <= s1 /\
    Z.of_nat (length (n_data x)) = input_depth * s0 * s1.
Proof.
  unfold build_noise_tensor. simpl String.eqb. cbv iota.
  set (ss := match spatial_size with SizeInt n => [n; n] | SizeSeq t => t end).
  intros H.
  assert (Hss : exists s0 s1 t, ss = s0 :: s1 :: t).
  { destruct ss as [|s0 [|s1 t]]; [done|done|]. by exists s0, s1, t. }
  destruct Hss as (s0 & s1 & t & Hss). rewrite Hss in H. simpl in H.
  destruct (get_noise [1; input_depth; s0; s1] noise_type rnd) as [y|e] eqn:Hy; [|done].
  simpl in H. injection H as <-.
  apply get_noise_returns in Hy as (Hshape & Hpos & Hlen & _).
  exists s0, s1. simpl. rewrite length_fmap, Hlen.
  inversion_clear Hpos as [|? ? _ Hpos1]. inversion_clear Hpos1 as [|? ? Hd Hpos2].
  inversion_clear Hpos2 as [|? ? H0 Hpos3]. inversion_clear Hpos3 as [|? ? H1 _].
  repeat split; auto.
  - subst ss. destruct spatial_size as [n|l]; [left|right].
    + by injection Hss as -> -> _.
    + exists t. by rewrite Hss.
  - unfold numel. simpl. rewrite !Nat2Z.inj_add, !Nat2Z.inj_mul, !Z2Nat.id by done. lia.
Qed.

Lemma build_noise_tensor_noise_shape_witness :
  exists s0 s1,
    (SizeInt 3 = SizeInt s0 /\ s1 = s0 \/ exists t, SizeInt 3 = SizeSeq (s0 :: s1 :: t)) /\
    n_shape (mkNoise [1; 2; 3; 3] (replicate 18 0%Q)) = [1; 2; s0; s1] /\
    0 <= 2 /\ 0 <= s0 /\ 0 <= s1 /\
    Z.of_nat (length (n_data (mkNoise [1; 2; 3; 3] (replicate 18 0%Q)))) = 2 * s0 * s1.
Proof.
  apply (build_noise_tensor_noise_shape 2 (SizeInt 3) "u" (1 # 10) (fun _ => 0%Q)).
  reflexivity.
Defined.

(** X21: the method ['noise3d'] needs a sequence of exactly three
    sizes. An [int] size is first turned into a pair, so that with it the
    call raises [AssertionError] whatever the other arguments are; a call
    that returns was given the sizes [(s0, s1, s2)] and gives a tensor of
    shape [(1, input_depth, s0, s1, s2)]. *)
Theorem build_noise_tensor_noise3d (input_depth : Z) (spatial_size : spatial)
    (noise_type : string) (var : Q) (rnd : nat -> Q) :
  (forall n, spatial_size = SizeInt n ->
     build_noise_tensor input_depth spatial_size "noise3d" noise_type var rnd
     = Raises AssertionError) /\
  (forall x,
     build_noise_tensor input_depth spatial_size "noise3d" noise_type var rnd = Returns x ->
     exists s0 s1 s2,
       spatial_size = SizeSeq [s0; s1; s2] /\
       n_shape x = [1; input_depth; s0; s1; s2] /\
       Z.of_nat (length (n_data x)) = input_depth * s0 * s1 * s2).
Proof.
  split.
  - by intros n ->.
  - intros x. unfold build_noise_tensor. simpl String.eqb. cbv iota.
    destruct spatial_size as [n|t]; [done|].
    destruct t as [|s0 [|s1 [|s2 [|s3 t]]]]; try done.
    simpl. destruct (get_noise _ noise_type rnd) as [y|e] eqn:Hy; [|done].
    simpl. intros H. injection H as <-.
    apply get_noise_returns in Hy as (Hshape & Hpos & Hlen & _).
    exists s0, s1, s2. simpl. rewrite length_fmap, Hlen.
    inversion_clear Hpos as [|? ? _ Hpos1]. inversion_clear Hpos1 as [|? ? Hd Hpos2].
    inversion_clear Hpos2 as [|? ? H0 Hpos3]. inversion_clear Hpos3 as [|? ? H1 Hpos4].
    inversion_clear Hpos4 as [|? ? H2 _].
    repeat split; auto.
    unfold numel. simpl. rewrite !Nat2Z.inj_add, !Nat2Z.inj_mul, !Z2Nat.id by done. lia.
Qed.

Lemma build_noise_tensor_noise3d_witness :
  build_noise_tensor 2 (SizeInt 4) "noise3d" "u" (1 # 10) (fun _ => 0%Q)
  = Raises AssertionError /\
  exists s0 s1 s2,
    SizeSeq [2; 1; 3] = SizeSeq [s0; s1; s2] /\
    n_shape (mkNoise [1; 2; 2; 1; 3] (replicate 12 0%Q)) = [1; 2; s0; s1; s2] /\
    Z.of_nat (length (n_data (mkNoise [1; 2; 2; 1; 3] (replicate 12 0%Q)))) = 2 * s0 * s1 * s2.
Proof.
  split.
  - exact (proj1 (build_noise_tensor_noise3d 2 (SizeInt 4) "u" (1 # 10) (fun _ => 0%Q))
             4 eq_refl).
  - exact (proj2 (build_noise_tensor_noise3d 2 (SizeSeq [2; 1; 3]) "u" (1 # 10)
                    (fun _ => 0%Q))
             (mkNoise [1; 2; 2; 1; 3] (replicate 12 0%Q)) eq_refl).
Defined.

(** X22: the order in which [build_noise_tensor] reports errors.
    A method other than ['noise'] and ['noise3d'] raises [AssertionError]
    before anything else is looked at. With the method ['noise'] and at least
    two sizes, a negative dimension raises the [RuntimeError] of
    [torch.zeros], also when the noise type is unknown; the [ValueError] for
    an unknown noise type is raised only once the zero tensor has been
    built. *)
Theorem build_noise_tensor_error_order (input_depth : Z) (noise_type : string)
    (var : Q) (rnd : nat -> Q) :
  (forall spatial_size method, method <> "noise" -> method <> "noise3d" ->
     build_noise_tensor input_depth spatial_size method noise_type var rnd
     = Raises AssertionError) /\
  (forall s0 s1 t, input_depth < 0 \/ s0 < 0 \/ s1 < 0 ->
     build_noise_tensor input_depth (SizeSeq (s0 :: s1 :: t)) "noise" noise_type var rnd
     = Raises RuntimeError) /\
  (forall s0 s1 t, 0 <= input_depth -> 0 <= s0 -> 0 <= s1 ->
     noise_type <> "u" -> noise_type <> "n" -> noise_type <> "c" ->
     build_noise_tensor input_depth (SizeSeq (s0 :: s1 :: t)) "noise" noise_type var rnd
     = Raises (Builtin ValueError)).
Proof.
  split; [|split].
  - intros spatial_size method Hn H3. unfold build_noise_tensor.
    apply String.eqb_neq in Hn, H3. by rewrite Hn, H3.
  - intros s0 s1 t Hneg. unfold build_noise_tensor. simpl.
    assert (E : get_noise [1; input_depth; s0; s1] noise_type rnd = Raises RuntimeError).
    { destruct Hneg as [H|[H|H]].
      - apply (get_noise_negative _ _ _ input_depth); [|done].
        apply list_elem_of_further, list_elem_of_here.
      - apply (get_noise_negative _ _ _ s0); [|done].
        do 2 apply list_elem_of_further. apply list_elem_of_here.
      - apply (get_noise_negative _ _ _ s1); [|done].
        do 3 apply list_elem_of_further. apply list_elem_of_here. }
    by rewrite E.
  - intros s0 s1 t Hd H0 H1 Hu Hn Hc. unfold build_noise_tensor. simpl.
    assert (E : get_noise [1; input_depth; s0; s1] noise_type rnd
                = Raises (Builtin ValueError)).
    { apply get_noise_unknown_type; auto.
      constructor; [lia|]. constructor; [done|]. constructor; [done|].
      constructor; [done|]. constructor. }
    by rewrite E.
Qed.

Lemma build_noise_tensor_error_order_witness :
  build_noise_tensor 2 (SizeInt (-1)) "noise2d" "x" (1 # 10) (fun _ => 0%Q)
  = Raises AssertionError /\
  build_noise_tensor 2 (SizeSeq [3; -1]) "noise" "x" (1 # 10) (fun _ => 0%Q)
  = Raises RuntimeError /\
  build_noise_tensor 2 (SizeSeq [3; 4]) "noise" "x" (1 # 10) (fun _ => 0%Q)
  = Raises (Builtin ValueError).
Proof.
  pose proof (build_noise_tensor_error_order 2 "x" (1 # 10) (fun _ => 0%Q)) as (H1 & H2 & H3).
  split; [|split].
  - by apply H1.
  - apply H2. lia.
  - apply H3; (lia || done).
Defined.

(** * Properties of [add_rand_mask] *)

Lemma Forall2_concat_rel {A B : Type} (R : A -> B -> Prop) (ls1 : list (list A))
    (ls2 : list (list B)) :
  Forall2 (Forall2 R) ls1 ls2 -> Forall2 R (concat ls1) (concat ls2).
Proof. induction 1; simpl; [constructor|by apply Forall2_app]. Qed.

Lemma insert_zero_rel (row : list Q) (j : nat) :
  Forall2 (fun x x' => x' = x \/ x' = 0%Q) row (<[j := 0%Q]> row).
Proof.
  apply Forall2_same_length_lookup_2; [by rewrite length_insert|].
  intros i x x' Hx Hx'. destruct (decide (i = j)) as [->|Hne].
  - rewrite list_lookup_insert_eq in Hx' by (by eapply lookup_lt_Some). right. congruence.
  - rewrite list_lookup_insert_ne in Hx' by done. left. congruence.
Qed.

Lemma erase_trace_rel (m : ndarray) (p : list nat) :
  Forall2 (fun x x' => x' = x \/ x' = 0%Q) (elements m) (elements (erase_trace m p)).
Proof.
  assert (Hrefl : forall l : list Q, Forall2 (fun x x' => x' = x \/ x' = 0%Q) l l).
  { intros l. apply Forall_Forall2_diag, Forall_true. by left. }
  destruct m as [a|a]; destruct p as [|j [|k p]]; simpl; try apply Hrefl.
  - apply Forall2_concat_rel, Forall2_fmap_r, Forall_Forall2_diag, Forall_true.
    intros row. apply insert_zero_rel.
  - apply Forall2_concat_rel, Forall2_fmap_r, Forall_Forall2_diag, Forall_true.
    intros row. apply insert_zero_rel.
  - apply Forall2_concat_rel, Forall2_concat_rel, Forall2_fmap_r, Forall_Forall2_diag,
      Forall_true.
    intros plane. apply Forall2_alter_r.
    + apply Forall_Forall2_diag, Forall_true. intros row. apply Hrefl.
    + intros x y Hx Hy _. assert (x = y) as -> by congruence. apply insert_zero_rel.
Qed.

Lemma foldl_erase_rel (qs : list (list nat)) (m : ndarray) :
  Forall2 (fun x x' => x' = x \/ x' = 0%Q) (elements m) (elements (foldl erase_trace m qs)).
Proof.
  revert m. induction qs as [|q qs IH]; intros m; simpl.
  - apply Forall_Forall2_diag, Forall_true. by left.
  - eapply Forall2_trans; [|apply (erase_trace_rel m q)|apply IH].
    intros x y z [-> | ->] [-> | ->]; auto.
Qed.

Lemma add_rand_mask_ok (mask : ndarray) (perc : Q) (perm : list nat) (m' : ndarray) :
  add_rand_mask mask perc perm = Ok m' ->
  exists points qs, first_points mask = Some points /\
    Forall (fun q => q ∈ points) qs /\ m' = foldl erase_trace mask qs.
Proof.
  unfold add_rand_mask. destruct (first_points mask) as [points|]; [|done].
  destruct (_ <? 0); [done|]. destruct (_ <? _); [done|].
  intros H. injection H as <-.
  eexists points, _. split; [done|]. split; [|done].
  apply Forall_forall. intros q Hq.
  apply list_elem_of_omap in Hq as (r & _ & Hr). by eapply list_elem_of_lookup_2.
Qed.

(** X23: [add_rand_mask] only removes: the array it returns has as
    many elements as the mask, and each of them is the element of the mask
    at the same place or 0. *)
Theorem add_rand_mask_only_erases (mask : ndarray) (perc : Q) (perm : list nat)
    (m' : ndarray) :
  add_rand_mask mask perc perm = Ok m' ->
  Forall2 (fun x x' => x' = x \/ x' = 0%Q) (elements mask) (elements m').
Proof.
  intros H. apply add_rand_mask_ok in H as (points & qs & _ & _ & ->).
  apply foldl_erase_rel.
Qed.

Lemma add_rand_mask_only_erases_witness :
  Forall2 (fun x x' => x' = x \/ x' = 0%Q)
    (elements (Arr2 [[1; 0; 1; 1]; [1; 1; 1; 0]; [0; 1; 1; 1]]%Q))
    (elements (Arr2 [[1; 0; 1; 0]; [1; 1; 1; 0]; [0; 1; 1; 0]]%Q)).
Proof.
  apply (add_rand_mask_only_erases _ (1 # 2) [2; 0; 1]%nat). reflexivity.
Defined.

Lemma fits_erase (m : ndarray) (q p : list nat) : fits m p -> fits (erase_trace m q) p.
Proof. by destruct m, q as [|? [|? ?]]. Qed.

Lemma trace_erase_other (m : ndarray) (q p : list nat) :
  fits m q -> p <> q -> trace (erase_trace m q) p = trace m p.
Proof.
  intros Hq Hne. destruct m as [a|a]; destruct q as [|j [|k [|? ?]]]; try done; simpl.
  - destruct p as [|j' [|? ?]]; try done.
    rewrite <- list_fmap_compose. apply list_fmap_ext. intros i row _. simpl.
    apply list_lookup_insert_ne. congruence.
  - destruct p as [|j' [|k' [|? ?]]]; try done.
    rewrite <- list_fmap_compose. apply list_fmap_ext. intros i plane _. simpl.
    destruct (decide (j = j')) as [<-|Hj].
    + rewrite list_lookup_alter_eq. destruct (plane !! j) as [row|]; [|done]. simpl.
      apply list_lookup_insert_ne. congruence.
    + by rewrite list_lookup_alter_ne.
Qed.

Lemma erased_erase_self (m : ndarray) (q : list nat) :
  fits m q -> erased (erase_trace m q) q.
Proof.
  intros Hq t x. destruct m as [a|a]; destruct q as [|j [|k [|? ?]]]; try done; simpl.
  - rewrite <- list_fmap_compose, list_lookup_fmap.
    destruct (a !! t) as [row|]; [|done]. simpl. intros H. injection H as H.
    apply list_lookup_insert_Some in H as [(_ & <- & _)|(? & _)]; done.
  - rewrite <- list_fmap_compose, list_lookup_fmap.
    destruct (a !! t) as [plane|]; [|done]. simpl. rewrite list_lookup_alter_eq.
    destruct (plane !! j) as [row|]; [|done]. simpl. intros H. injection H as H.
    apply list_lookup_insert_Some in H as [(_ & <- & _)|(? & _)]; done.
Qed.

Lemma foldl_erase_traces (qs : list (list nat)) (m : ndarray) (p : list nat) :
  Forall (fits m) qs ->
  (p ∈ qs -> erased (foldl erase_trace m qs) p) /\
  (p ∉ qs -> trace (foldl erase_trace m qs) p = trace m p).
Proof.
  revert m. induction qs as [|q qs IH]; intros m Hqs.
  - split; [by intros ?%elem_of_nil|done].
  - inversion_clear Hqs as [|? ? Hq Hqs'].
    assert (Hqs1 : Forall (fits (erase_trace m q)) qs).
    { eapply Forall_impl; [exact Hqs'|]. intros p'. apply fits_erase. }
    destruct (IH (erase_trace m q) Hqs1) as [IH1 IH2]. simpl. split.
    + intros Hp. destruct (decide (p ∈ qs)) as [Hin|Hnin]; [by apply IH1|].
      apply elem_of_cons in Hp as [->|Hp]; [|done].
      intros t x. rewrite (IH2 Hnin). by apply erased_erase_self.
    + intros Hp. apply not_elem_of_cons in Hp as [Hne Hnin].
      rewrite (IH2 Hnin). by apply trace_erase_other.
Qed.

Lemma where_one_spec (row : list Q) (i j : nat) :
  j ∈ where_one i row <->
  exists x, (i <= j)%nat /\ row !! (j - i)%nat = Some x /\ Qeq_bool x 1 = true.
Proof.
  revert i. induction row as [|y row IH]; intros i; simpl.
  - split; [by intros ?%elem_of_nil|by intros (x & _ & ? & _)].
  - assert (Hrest : j ∈ where_one (S i) row <->
              exists x, (S i <= j)%nat /\ (y :: row) !! (j - i)%nat = Some x
                        /\ Qeq_bool x 1 = true).
    { rewrite IH. split; intros (x & Hle & Hx & Hone); exists x; (split; [lia|]); split;
        try done.
      - replace (j - i)%nat with (S (j - S i)) by lia. done.
      - replace (j - i)%nat with (S (j - S i)) in Hx by lia. done. }
    destruct (Qeq_bool y 1) eqn:Hy.
    + rewrite elem_of_cons, Hrest. split.
      * intros [->|(x & Hle & Hx & Hone)].
        -- exists y. rewrite Nat.sub_diag. by split; [lia|].
        -- exists x. by split; [lia|].
      * intros (x & Hle & Hx & Hone). destruct (decide (j = i)) as [->|Hne]; [by left|].
        right. exists x. by split; [lia|].
    + rewrite Hrest. split.
      * intros (x & Hle & Hx & Hone). exists x. by split; [lia|].
      * intros (x & Hle & Hx & Hone). destruct (decide (j = i)) as [->|Hne].
        -- rewrite Nat.sub_diag in Hx. simpl in Hx. congruence.
        -- exists x. by split; [lia|].
Qed.

Lemma where_one_0 (row : list Q) (j : nat) :
  j ∈ where_one 0 row <-> exists x, row !! j = Some x /\ Qeq_bool x 1 = true.
Proof.
  rewrite where_one_spec. rewrite Nat.sub_0_r.
  split; [intros (x & _ & ?); by exists x|intros (x & ?); exists x; by split; [lia|]].
Qed.

Lemma first_points_alive (mask : ndarray) (points : list (list nat)) (p : list nat) :
  first_points mask = Some points ->
  p ∈ points <-> alive_at_start mask p.
Proof.
  unfold alive_at_start. destruct mask as [a|a]; simpl.
  - destruct a as [|row0 rest]; [done|]. simpl. intros H. injection H as <-.
    unfold argwhere1. rewrite list_elem_of_fmap. split.
    + intros (j & -> & Hj). apply where_one_0 in Hj as (x & Hx & Hone).
      exists x. simpl. by rewrite Hx.
    + intros (x & Hx & Hone). destruct p as [|j [|? ?]]; try done.
      simpl in Hx. exists j. split; [done|]. apply where_one_0. exists x.
      split; [congruence|done].
  - destruct a as [|plane0 rest]; [done|]. simpl. intros H. injection H as <-.
    unfold argwhere2. rewrite list_elem_of_In, in_concat. split.
    + intros (l & Hl & Hp). apply list_elem_of_In in Hl, Hp.
      apply elem_of_lookup_imap in Hl as (j & row & -> & Hrow).
      apply list_elem_of_fmap in Hp as (k & -> & Hk).
      apply where_one_0 in Hk as (x & Hx & Hone).
      exists x. simpl. by rewrite Hrow; simpl; rewrite Hx.
    + intros (x & Hx & Hone). destruct p as [|j [|k [|? ?]]]; try done.
      simpl in Hx. destruct (plane0 !! j) as [row|] eqn:Hrow; [|done]. simpl in Hx.
      exists ((fun k => [j; k]) <$> where_one 0 row). split.
      * apply list_elem_of_In. apply elem_of_lookup_imap. by exists j, row.
      * apply list_elem_of_In, list_elem_of_fmap. exists k. split; [done|].
        apply where_one_0. exists x. split; [congruence|done].
Qed.

Lemma alive_fits (mask : ndarray) (p : list nat) : alive_at_start mask p -> fits mask p.
Proof.
  intros (x & Hx & _). by destruct mask, p as [|? [|? [|? ?]]].
Qed.

(** X24: [add_rand_mask] removes whole traces, and only traces that
    are alive (equal to 1) at the first time sample: in the array it
    returns, the trace at every position is the trace of the mask, or it is
    0 at every time and was alive at the first sample of the mask. *)
Theorem add_rand_mask_whole_traces (mask : ndarray) (perc : Q) (perm : list nat)
    (m' : ndarray) (p : list nat) :
  add_rand_mask mask perc perm = Ok m' ->
  trace m' p = trace mask p \/ (alive_at_start mask p /\ erased m' p).
Proof.
  intros H. apply add_rand_mask_ok in H as (points & qs & Hpoints & Hqs & ->).
  assert (Hfits : Forall (fits mask) qs).
  { eapply Forall_impl; [exact Hqs|]. intros q Hq.
    by apply alive_fits, (first_points_alive mask points). }
  destruct (foldl_erase_traces qs mask p Hfits) as [H1 H2].
  destruct (decide (p ∈ qs)) as [Hin|Hnin]; [right|left; auto].
  split; [|auto]. apply (first_points_alive mask points); [done|].
  rewrite Forall_forall in Hqs. auto.
Qed.

Lemma add_rand_mask_whole_traces_witness :
  trace (Arr2 [[1; 0; 1; 0]; [1; 1; 1; 0]; [0; 1; 1; 0]]%Q) [3%nat]
  = trace (Arr2 [[1; 0; 1; 1]; [1; 1; 1; 0]; [0; 1; 1; 1]]%Q) [3%nat] \/
  (alive_at_start (Arr2 [[1; 0; 1; 1]; [1; 1; 1; 0]; [0; 1; 1; 1]]%Q) [3%nat] /\
   erased (Arr2 [[1; 0; 1; 0]; [1; 1; 1; 0]; [0; 1; 1; 0]]%Q) [3%nat]).
Proof.
  apply (add_rand_mask_whole_traces _ (1 # 2) [2; 0; 1]%nat). reflexivity.
Defined.

Lemma omap_lookup_seq {A : Type} (pre l : list A) :
  omap (fun i => (pre ++ l) !! i) (seq (length pre) (length l)) = l.
Proof.
  revert pre. induction l as [|x l IH]; intros pre; [done|].
  simpl. rewrite list_lookup_middle by done. f_equal.
  specialize (IH (pre ++ [x])). rewrite <- app_assoc, length_app in IH. simpl in IH.
  by rewrite Nat.add_1_r in IH.
Qed.

Lemma first_points_some (mask : ndarray) :
  time_samples mask <> 0%nat -> exists points, first_points mask = Some points.
Proof. destruct mask as [[|? ?]|[|? ?]]; simpl; try done; by eexists. Qed.

Lemma first_points_none (mask : ndarray) :
  time_samples mask = 0%nat -> first_points mask = None.
Proof. by destruct mask as [[|? ?]|[|? ?]]. Qed.

Lemma py_int_of_nat (n : nat) : py_int (inject_Z (Z.of_nat n) * 1) = Z.of_nat n.
Proof. unfold py_int. simpl. rewrite Z.mul_1_r. apply Z.quot_1_r. Qed.

Lemma py_int_zero (n : Z) : py_int (inject_Z n * 0) = 0.
Proof. unfold py_int. simpl. by rewrite Z.mul_0_r. Qed.

Lemma py_int_ge (z : Z) (x : Q) : 0 <= z -> (inject_Z z <= x)%Q -> z <= py_int x.
Proof.
  intros Hz Hx. destruct x as [a b]. unfold Qle in Hx. simpl in Hx. unfold py_int. simpl.
  rewrite Z.quot_div_nonneg by lia. apply Z.div_le_lower_bound; lia.
Qed.

(** X25: with [perc = 1] every trace that is alive at the first
    time sample is removed and every other trace is kept: for a mask with at
    least one time sample and any permutation drawn by
    [np.random.choice], the call returns an array in which the alive traces
    are 0 at every time and the other traces are those of the mask. *)
Theorem add_rand_mask_all (mask : ndarray) (perm : list nat) :
  time_samples mask <> 0%nat ->
  perm ≡ₚ seq 0 (alive_count mask) ->
  exists m', add_rand_mask mask 1 perm = Ok m' /\
    forall p, (alive_at_start mask p -> erased m' p) /\
              (~ alive_at_start mask p -> trace m' p = trace mask p).
Proof.
  intros Hnt Hperm. destruct (first_points_some mask Hnt) as [points Hpoints].
  unfold alive_count in Hperm. rewrite Hpoints in Hperm.
  assert (Hlen : length perm = length points).
  { by rewrite Hperm, length_seq. }
  unfold add_rand_mask. rewrite Hpoints. cbv zeta. rewrite py_int_of_nat.
  destruct (Z.ltb_spec (Z.of_nat (length points)) 0); [lia|].
  rewrite Z.ltb_irrefl, Nat2Z.id, take_ge by lia.
  eexists. split; [done|]. intros p.
  assert (Hqs : omap (fun r => points !! r) perm ≡ₚ points).
  { rewrite Hperm. pose proof (omap_lookup_seq [] points) as E. simpl in E.
    by rewrite E. }
  assert (Hfits : Forall (fits mask) (omap (fun r => points !! r) perm)).
  { apply Forall_forall. intros q Hq. rewrite Hqs in Hq.
    by apply alive_fits, (first_points_alive mask points). }
  destruct (foldl_erase_traces _ mask p Hfits) as [H1 H2]. split.
  - intros Hp. apply H1. rewrite Hqs. by apply (first_points_alive mask points).
  - intros Hp. apply H2. rewrite Hqs. intros Hin. apply Hp.
    by apply (first_points_alive mask points).
Qed.

Lemma add_rand_mask_all_witness :
  exists m', add_rand_mask (Arr2 [[1; 0; 1; 1]; [1; 1; 1; 0]; [0; 1; 1; 1]]%Q) 1 [2; 0; 1]%nat
             = Ok m' /\
    forall p, (alive_at_start (Arr2 [[1; 0; 1; 1]; [1; 1; 1; 0]; [0; 1; 1; 1]]%Q) p
               -> erased m' p) /\
              (~ alive_at_start (Arr2 [[1; 0; 1; 1]; [1; 1; 1; 0]; [0; 1; 1; 1]]%Q) p
               -> trace m' p = trace (Arr2 [[1; 0; 1; 1]; [1; 1; 1; 0]; [0; 1; 1; 1]]%Q) p).
Proof.
  apply (add_rand_mask_all (Arr2 [[1; 0; 1; 1]; [1; 1; 1; 0]; [0; 1; 1; 1]]%Q)
           [2; 0; 1]%nat).
  - discriminate.
  - change (alive_count _) with 3%nat. simpl.
    etrans; [apply (Permutation_cons_append [0; 1]%nat 2%nat)|]. done.
Defined.

(** X26: the two ends of [add_rand_mask]. A mask without any time
    sample raises [IndexError] whatever [perc] is, because [m[0]] does not
    exist; for a mask with a time sample, [perc = 0] returns an array equal
    to the mask. *)
Theorem add_rand_mask_none (mask : ndarray) (perm : list nat) :
  (time_samples mask = 0%nat ->
   forall perc, add_rand_mask mask perc perm = Raise IndexError) /\
  (time_samples mask <> 0%nat -> add_rand_mask mask 0 perm = Ok mask).
Proof.
  split.
  - intros Hnt perc. unfold add_rand_mask. by rewrite (first_points_none mask Hnt).
  - intros Hnt. destruct (first_points_some mask Hnt) as [points Hpoints].
    unfold add_rand_mask. rewrite Hpoints. cbv zeta. rewrite py_int_zero. simpl.
    by destruct (Z.ltb_spec (Z.of_nat (length points)) 0); [lia|].
Qed.

Lemma add_rand_mask_none_witness :
  add_rand_mask (Arr3 []) (3 # 10) [] = Raise IndexError /\
  add_rand_mask (Arr2 [[1; 0; 1]]%Q) 0 [1; 0]%nat = Ok (Arr2 [[1; 0; 1]]%Q).
Proof.
  split.
  - by apply (proj1 (add_rand_mask_none (Arr3 []) [])).
  - by apply (proj2 (add_rand_mask_none (Arr2 [[1; 0; 1]]%Q) [1; 0]%nat)).
Defined.

(** X27: asking for more traces than are alive is an error: when the
    product of the number of alive traces and [perc] reaches that number
    plus one, [np.random.choice] raises [ValueError] ([perc = 2] on a mask
    with an alive trace, for instance). *)
Theorem add_rand_mask_too_many (mask : ndarray) (perc : Q) (perm : list nat) :
  time_samples mask <> 0%nat ->
  (inject_Z (Z.of_nat (alive_count mask) + 1)
   <= inject_Z (Z.of_nat (alive_count mask)) * perc)%Q ->
  add_rand_mask mask perc perm = Raise ValueError.
Proof.
  intros Hnt Hperc. destruct (first_points_some mask Hnt) as [points Hpoints].
  unfold alive_count in Hperc. rewrite Hpoints in Hperc.
  unfold add_rand_mask. rewrite Hpoints. cbv zeta.
  apply py_int_ge in Hperc; [|lia].
  destruct (Z.ltb_spec (py_int (inject_Z (Z.of_nat (length points)) * perc)) 0); [lia|].
  by destruct (Z.ltb_spec (Z.of_nat (length points))
                 (py_int (inject_Z (Z.of_nat (length points)) * perc))); [|lia].
Qed.

Lemma add_rand_mask_too_many_witness :
  add_rand_mask (Arr2 [[1; 0; 1]]%Q) 2 [1; 0]%nat = Raise ValueError.
Proof.
  apply (add_rand_mask_too_many (Arr2 [[1; 0; 1]]%Q) 2 [1; 0]%nat).
  - discriminate.
  - vm_compute. discriminate.
Defined.
